(** * Attendance Lifeline: the solver functions of [software.py]

    The script computes with Python [int]s (unbounded integers, here [Z])
    and Python [float]s (IEEE 754 binary64, here the Standard Library's
    [spec_float] with [prec = 53] and [emax = 1024], whose operations round
    to nearest, ties to even).  A Python exception ([ZeroDivisionError],
    [OverflowError], [ValueError]) is the result [None].

    The file has four parts: the embedding of the two solver functions,
    of the chart loop and of the page that calls them; facts on binary64
    rounding that bound the magnitude of every intermediate float and keep
    the percentage of a partial attendance below 100; the operations as
    correct roundings of the exact real results, with the error analysis
    of the closed form; the properties of the solver and of the page. *)

From Stdlib Require Import ZArith List Bool Lia SpecFloat QArith Reals Qreals Lra.
Import ListNotations.
Local Open Scope Z_scope.

(** ** Python numbers *)

Module Py.

Definition prec : Z := 53.
Definition emax : Z := 1024.

Definition float := spec_float.

Definition is_finite (x : float) : bool :=
  match x with
  | S754_zero _ | S754_finite _ _ _ => true
  | S754_infinity _ | S754_nan => false
  end.

(** A float that an operation produced, or [OverflowError] when the exact
    result is too large for a binary64. *)
Definition checked (r : float) : option float :=
  if is_finite r then Some r else None.

(** [float(z)] as the mixed [int]/[float] operators apply it: correctly
    rounded, [OverflowError] when [z] is too large. *)
Definition float_of_int (z : Z) : option float :=
  checked (binary_normalize prec emax z 0 false).

(** [a / b] on two [int]s: the correctly rounded quotient of the exact
    integers; [ZeroDivisionError] when [b = 0]. *)
Definition int_true_div (a b : Z) : option float :=
  if b =? 0 then None
  else
    match a with
    | Z0 => Some (S754_zero (b <? 0))
    | _ =>
        let '(q, e, l) := SFdiv_core_binary prec emax (Z.abs a) 0 (Z.abs b) 0 in
        checked (binary_round_aux prec emax (xorb (a <? 0) (b <? 0)) q e l)
    end.

(** [x / y] on two [float]s: [ZeroDivisionError] when [y] is a zero. *)
Definition float_div (x y : float) : option float :=
  match y with
  | S754_zero _ => None
  | _ => Some (SFdiv prec emax x y)
  end.

Definition float_mul (x y : float) : float := SFmul prec emax x y.
Definition float_sub (x y : float) : float := SFsub prec emax x y.

(** [x >= y], [x == y] on floats (false when either is a NaN). *)
Definition float_ge (x y : float) : bool := SFleb y x.
Definition float_eq (x y : float) : bool := SFeqb x y.
Definition float_lt (x y : float) : bool := SFltb x y.

(** The literals of the script. *)
Definition f0_0 : float := S754_zero false.
Definition f1_0 : float := S754_finite false 4503599627370496 (-52).
Definition f100_0 : float := S754_finite false 7036874417766400 (-46).

(** The integer part functions on the dyadic number [n * 2^e]. *)
Definition floor_dyadic (n e : Z) : Z :=
  if 0 <=? e then n * 2 ^ e else n / 2 ^ (- e).

Definition ceil_dyadic (n e : Z) : Z :=
  if 0 <=? e then n * 2 ^ e else - ((- n) / 2 ^ (- e)).

(** [math.floor] and [math.ceil]: an [int]; [OverflowError] on an
    infinity and [ValueError] on a NaN. *)
Definition math_floor (x : float) : option Z :=
  match x with
  | S754_zero _ => Some 0
  | S754_finite s m e => Some (floor_dyadic (cond_Zopp s (Zpos m)) e)
  | S754_infinity _ | S754_nan => None
  end.

Definition math_ceil (x : float) : option Z :=
  match x with
  | S754_zero _ => Some 0
  | S754_finite s m e => Some (ceil_dyadic (cond_Zopp s (Zpos m)) e)
  | S754_infinity _ | S754_nan => None
  end.

(** [range(lo, hi)]. *)
Definition range (lo hi : Z) : list Z :=
  map (fun i => lo + Z.of_nat i) (seq 0 (Z.to_nat (hi - lo))).

(** The exact rational value of a finite float. *)
Definition to_Q (x : float) : option Q :=
  match x with
  | S754_zero _ => Some 0%Q
  | S754_finite s m e =>
      Some (if 0 <=? e then inject_Z (cond_Zopp s (Zpos m) * 2 ^ e)
            else Qmake (cond_Zopp s (Zpos m)) (Z.to_pos (2 ^ (- e))))
  | S754_infinity _ | S754_nan => None
  end.

End Py.

Import Py.

(** ** The error monad of a Python call *)

Definition bind {A B : Type} (c : option A) (k : A -> option B) : option B :=
  match c with
  | Some a => k a
  | None => None
  end.

Notation "x <- c ;; k" := (bind c (fun x => k))
  (at level 61, c at next level, right associativity).

(** ** Core logic: required classes (lines 50-65) *)

Definition current_percent_of (c_att c_total : Z) : option float :=
  q <- int_true_div c_att c_total ;;
  Some (float_mul q f100_0).

Definition calculate_required_classes (c_att c_total : Z) (p_req : float)
  : option (Z * float * float) :=
  current_percent <- current_percent_of c_att c_total ;;
  if float_ge current_percent p_req then
    Some (0, current_percent, current_percent)
  else if float_eq p_req f100_0 then
    Some (-1, current_percent, f0_0)
  else
    R <- float_div p_req f100_0 ;;
    ft <- float_of_int c_total ;;
    fa <- float_of_int c_att ;;
    let numerator := float_sub (float_mul R ft) fa in
    let denominator := float_sub f1_0 R in
    x_float <- float_div numerator denominator ;;
    x_min <- math_ceil x_float ;;
    q <- int_true_div (c_att + x_min) (c_total + x_min) ;;
    let projected_percent := float_mul q f100_0 in
    Some (x_min, current_percent, projected_percent).

(** ** Missable classes (lines 68-75) *)

(** The body of the loop up to [m_int], for the window size [x]. *)
Definition missable_floor (c_att c_total : Z) (R : float) (x : Z) : option Z :=
  ftx <- float_of_int (c_total + x) ;;
  fa <- float_of_int c_att ;;
  fx <- float_of_int x ;;
  let m := float_sub fx (float_sub (float_mul R ftx) fa) in
  math_floor m.

Fixpoint missable_scan (c_att c_total : Z) (R : float) (xs : list Z)
  : option (Z * Z) :=
  match xs with
  | [] => Some (0, 0)
  | x :: rest =>
      m_int <- missable_floor c_att c_total R x ;;
      if 0 <=? m_int then Some (m_int, x)
      else missable_scan c_att c_total R rest
  end.

Definition calculate_max_missable_classes
  (c_att c_total : Z) (p_req : float) (max_future_classes : Z)
  : option (Z * Z) :=
  R <- float_div p_req f100_0 ;;
  missable_scan c_att c_total R (range 1 (max_future_classes + 1)).

Definition default_max_future_classes : Z := 50.

(** ** The chart series (lines 165-176) *)

Definition future_classes_range : list Z := range 1 31.

(** One iteration of the loop of lines 168-171: the value appended. *)
Definition missable_entry (classes_attended total_classes : Z)
  (required_percentage : float) (x : Z) : option Z :=
  R <- float_div required_percentage f100_0 ;;
  ftx <- float_of_int (total_classes + x) ;;
  fa <- float_of_int classes_attended ;;
  fx <- float_of_int x ;;
  let m := float_sub fx (float_sub (float_mul R ftx) fa) in
  m_int <- math_floor m ;;
  Some (Z.max 0 m_int).

(** The loop, threading the list [missable_data] it appends to. *)
Fixpoint missable_loop (classes_attended total_classes : Z)
  (required_percentage : float) (xs : list Z) (missable_data : list Z)
  : option (list Z) :=
  match xs with
  | [] => Some missable_data
  | x :: rest =>
      v <- missable_entry classes_attended total_classes required_percentage x ;;
      missable_loop classes_attended total_classes required_percentage rest
        (missable_data ++ [v])
  end.

Definition missable_data (classes_attended total_classes : Z)
  (required_percentage : float) (windows : list Z) : option (list Z) :=
  missable_loop classes_attended total_classes required_percentage windows [].

(** The two columns of [missable_df], row by row. *)
Definition missable_df (classes_attended total_classes : Z)
  (required_percentage : float) (windows : list Z) : option (list (Z * Z)) :=
  data <- missable_data classes_attended total_classes required_percentage windows ;;
  Some (combine windows data).

(** ** Inputs of the solver

    The counts come from the two integer fields of the form (lines 84-86),
    the percentage from its third field (line 88), between 0.0 and 100.0.
    The statements take the counts up to [max_count] = 2^53 - 1, the range
    in which every integer is a float exactly. *)

Definition max_count : Z := 9007199254740991.

Definition valid_counts (c_att c_total : Z) : Prop :=
  0 <= c_att <= c_total /\ 1 <= c_total <= max_count.

Definition valid_percent (p_req : float) : Prop :=
  valid_binary prec emax p_req = true
  /\ float_ge p_req f0_0 = true /\ float_ge f100_0 p_req = true.

(** ** Vocabulary of the rounding lemmas *)

(** The exponent of the binary64 format at magnitude [e]. *)
Definition fexp64 (e : Z) : Z := fexp 53 1024 e.

(** Twice the mantissa of a shift record plus its round bit. *)
Definition shr_h (mrs : shr_record) : Z :=
  2 * shr_m mrs + (if shr_r mrs then 1 else 0).

(** A finite float in canonical form, below [2^k] in magnitude. *)
Definition bounded_mag (k : Z) (x : spec_float) : Prop :=
  match x with
  | S754_zero _ => True
  | S754_finite _ m e =>
      fexp64 (Zpos (digits2_pos m) + e) = e /\ Zpos (digits2_pos m) + e <= k
  | S754_infinity _ | S754_nan => False
  end.

(** A float that is a zero or positive. *)
Definition nonneg_float (x : float) : Prop :=
  match x with
  | S754_zero _ | S754_finite false _ _ => True
  | _ => False
  end.

(** ** Vocabulary of the statements *)

(** The window [x] allows no miss: its floored value is negative. *)
Definition no_slack (c_att c_total : Z) (R : float) (x : Z) : Prop :=
  exists m_int, missable_floor c_att c_total R x = Some m_int /\ m_int < 0.

(** Lines 58-61: the raw solution [x_float] of the inequality. *)
Definition raw_solution (c_att c_total : Z) (p_req : float) : option float :=
  R <- float_div p_req f100_0 ;;
  ft <- float_of_int c_total ;;
  fa <- float_of_int c_att ;;
  float_div (float_sub (float_mul R ft) fa) (float_sub f1_0 R).

(** In exact arithmetic, [x] more classes, all attended, reach the target:
    [(c_att + x) / (c_total + x) >= p_req / 100]. *)
Definition meets_target (c_att c_total : Z) (p_req : float) (x : Z) : Prop :=
  match to_Q p_req with
  | Some p => (p / 100 <= inject_Z (c_att + x) / inject_Z (c_total + x))%Q
  | None => False
  end.

(** Rounding a rational to the nearest integer, ties to even. *)
Definition round_half_even (q : Q) : Z :=
  let d := Zpos (Qden q) in
  let f := Qnum q / d in
  match 2 * (Qnum q mod d) ?= d with
  | Lt => f
  | Gt => f + 1
  | Eq => if Z.even f then f else f + 1
  end.

(** The format [:.2f] of line 104, as a number of hundredths. *)
Definition format_2f (x : float) : option Z :=
  match to_Q x with
  | Some q => Some (round_half_even (q * 100))
  | None => None
  end.

Definition f60_0 : float := S754_finite false 8444249301319680 (-47).
Definition f75_0 : float := S754_finite false 5277655813324800 (-46).
Definition f90_0 : float := S754_finite false 6333186975989760 (-46).
Definition f66_666 : float := S754_finite false 4691249611844266 (-46).



(** ** The formulas of the specification

    Written from the words of the specification, in the double precision
    its design notes assume, to be compared with what the functions of the
    script compute. *)

(** Section 3: [currentPercent = classesAttended / totalClasses * 100]. *)
Definition spec_current_percent (classesAttended totalClasses : Z)
  : option float :=
  match int_true_div classesAttended totalClasses with
  | Some ratio => Some (float_mul ratio f100_0)
  | None => None
  end.

(** Section 4.2: [m = x - (R * (totalClasses + x) - classesAttended)] with
    [R = requiredPercent / 100], floored to the integer [mInt]. *)
Definition spec_affordable_misses (classesAttended totalClasses : Z)
  (requiredPercent : float) (x : Z) : option Z :=
  match float_div requiredPercent f100_0,
        float_of_int (totalClasses + x),
        float_of_int classesAttended,
        float_of_int x with
  | Some R, Some window_total, Some attended, Some window =>
      math_floor (float_sub window (float_sub (float_mul R window_total) attended))
  | _, _, _, _ => None
  end.
(** ** The page of the button (lines 92-198) *)

(** [df['Percentage'].clip(upper=100)] on one value of the column. *)
Definition clip_upper (upper x : float) : float :=
  if float_lt upper x then upper else x.

(** The calls of the Streamlit interface the handler makes, each with the
    values it displays; the constant texts are in the names. *)
Inductive ui_call : Type :=
| St_error_attended_exceeds_total
| St_error_total_zero
| St_markdown_box_open
| St_subheader_status
| St_markdown_current (current_percent : float)
| St_subheader_plan
| St_success (current_percent required_percentage : float)
| St_error_impossible (current_percent : float)
| St_warning (required_percentage : float) (x_min : Z) (projected_percent : float)
| St_markdown_box_close
| St_info_planning (future_window missable_classes : Z) (required_percentage : float)
| St_info_heads_up
| St_subheader_bars
| St_plotly_bars (percentage : list float)
| St_subheader_flexible
| St_plotly_line (rows : list (Z * Z))
| St_caption.

(** The branch of lines 108-113 on [x_min]. *)
Definition action_plan (x_min : Z) (current_percent required_percentage
  projected_percent : float) : ui_call :=
  if x_min =? 0 then St_success current_percent required_percentage
  else if x_min =? -1 then St_error_impossible current_percent
  else St_warning required_percentage x_min projected_percent.

(** The branch of lines 121-124 on [missable_classes]. *)
Definition planning_insight (missable_classes future_window : Z)
  (required_percentage : float) : ui_call :=
  if 0 <? missable_classes
  then St_info_planning future_window missable_classes required_percentage
  else St_info_heads_up.

(** The body of [if st.button(...)]: the calls made, in order, and whether
    the body ran to its end ([false]: an exception left it). *)
Definition on_calculate (classes_attended total_classes : Z)
  (required_percentage : float) : list ui_call * bool :=
  if total_classes <? classes_attended then
    ([St_error_attended_exceeds_total], true)
  else if total_classes =? 0 then
    ([St_error_total_zero], true)
  else
    match calculate_required_classes classes_attended total_classes
            required_percentage with
    | None => ([], false)
    | Some (x_min, current_percent, projected_percent) =>
        let report :=
          [St_markdown_box_open; St_subheader_status;
           St_markdown_current current_percent; St_subheader_plan;
           action_plan x_min current_percent required_percentage projected_percent;
           St_markdown_box_close] in
        match calculate_max_missable_classes classes_attended total_classes
                required_percentage default_max_future_classes with
        | None => (report, false)
        | Some (missable_classes, future_window) =>
            let bars :=
              [planning_insight missable_classes future_window required_percentage;
               St_subheader_bars;
               St_plotly_bars
                 (map (clip_upper f100_0) [current_percent; required_percentage]);
               St_subheader_flexible] in
            match missable_df classes_attended total_classes required_percentage
                    future_classes_range with
            | None => (report ++ bars, false)
            | Some rows =>
                (report ++ bars ++ [St_plotly_line rows; St_caption], true)
            end
        end
    end.


(** ** Integers as floats *)

(** The binary64 of the integer [n] when [|n| < 2^53]: every such integer
    is a float, with a mantissa of 53 bits. *)
Definition int_float (n : Z) : float :=
  match n with
  | Z0 => S754_zero false
  | _ => S754_finite (n <? 0)
           (Z.to_pos (Z.abs n * 2 ^ (53 - Zdigits2 n))) (Zdigits2 n - 53)
  end.

(** ** The real value of a float and correct rounding *)

Definition bpow (e : Z) : R := powerRZ 2 e.

(** The real number a finite float stands for. *)
Definition F2R (x : float) : R :=
  match x with
  | S754_finite s m e => (IZR (cond_Zopp s (Zpos m)) * bpow e)%R
  | _ => 0%R
  end.

(** A zero or a finite float in canonical form. *)
Definition good (x : float) : Prop :=
  match x with
  | S754_zero _ => True
  | S754_finite _ m e => fexp64 (Zpos (digits2_pos m) + e) = e
  | S754_infinity _ | S754_nan => False
  end.

(** [n] is the integer nearest to [t], the even one when two are. *)
Definition rne (t : R) (n : Z) : Prop :=
  (IZR n - / 2 <= t <= IZR n + / 2)%R
  /\ (t = (IZR n - / 2)%R \/ t = (IZR n + / 2)%R -> Z.even n = true).

(** The shift record [mrs] holds the integer part of [t] and the place of
    [t] between it and the next integer. *)
Definition rec_of (t : R) (mrs : shr_record) : Prop :=
  (IZR (shr_m mrs) <= t < IZR (shr_m mrs) + 1)%R
  /\ match shr_r mrs, shr_s mrs with
     | false, false => t = IZR (shr_m mrs)
     | false, true => (IZR (shr_m mrs) < t < IZR (shr_m mrs) + / 2)%R
     | true, false => t = (IZR (shr_m mrs) + / 2)%R
     | true, true => (IZR (shr_m mrs) + / 2 < t)%R
     end.

(** [n * 2^E] is the non-negative real [v] rounded to binary64: [E] is the
    exponent of the binade of [v] and [n] the nearest mantissa. *)
Definition rounds_pos (v : R) (n E : Z) : Prop :=
  rne (v * bpow (- E)) n
  /\ -1074 <= E
  /\ (v < bpow (E + 53))%R
  /\ ((bpow (E + 52) <= v)%R \/ E = -1074).

(** The float [r] is the real [v] rounded to binary64. *)
Definition rounds (v : R) (r : float) : Prop :=
  good r
  /\ (((0 <= v)%R
       /\ exists n E, rounds_pos v n E /\ F2R r = (IZR n * bpow E)%R)
      \/ ((v <= 0)%R
          /\ exists n E, rounds_pos (- v) n E /\ F2R r = (- (IZR n * bpow E))%R)).

(** The float [2^k], with its sign. *)
Definition float_pow2 (s : bool) (k : Z) : float :=
  S754_finite s 4503599627370496 (k - 52).

(** ** The intermediate floats of the closed form (lines 58-61) *)

Definition ratio_of (p_req : float) : float := SFdiv prec emax p_req f100_0.

Definition numerator_of (c_att c_total : Z) (p_req : float) : float :=
  float_sub (float_mul (ratio_of p_req) (int_float c_total)) (int_float c_att).

Definition denominator_of (p_req : float) : float :=
  float_sub f1_0 (ratio_of p_req).

(** Totals up to [2^24]: the range in which the rounding of the closed
    form cannot push its ceiling below 0. *)
Definition max_ordinary_total : Z := 16777216.

Definition ordinary_counts (c_att c_total : Z) : Prop :=
  0 <= c_att <= c_total /\ 1 <= c_total <= max_ordinary_total.

(** * Facts on binary64 rounding *)


Lemma digits2_pos_size (p : positive) : digits2_pos p = Pos.size p.
Proof. induction p; simpl; congruence. Qed.

Lemma Zdigits2_pos_bounds (p : positive) :
  2 ^ (Zpos (digits2_pos p) - 1) <= Zpos p < 2 ^ Zpos (digits2_pos p).
Proof.
  rewrite digits2_pos_size. split.
  - pose proof (Pos.size_le p) as H.
    assert (Hz : 2 ^ Zpos (Pos.size p) <= 2 * Zpos p).
    { change (2 * Zpos p) with (Zpos p~0). rewrite <- Pos2Z.inj_pow. exact H. }
    replace (Zpos (Pos.size p)) with (Z.succ (Zpos (Pos.size p) - 1)) in Hz by lia.
    rewrite Z.pow_succ_r in Hz by lia. lia.
  - pose proof (Pos.size_gt p) as H.
    rewrite <- Pos2Z.inj_pow. exact H.
Qed.

Lemma Zdigits2_nonneg (m : Z) : 0 <= Zdigits2 m.
Proof. destruct m; simpl; lia. Qed.

Lemma Zdigits2_bounds (m : Z) :
  0 < m -> 2 ^ (Zdigits2 m - 1) <= m < 2 ^ Zdigits2 m.
Proof. destruct m; simpl; try lia. intros _. apply Zdigits2_pos_bounds. Qed.

Lemma Zdigits2_le (m d : Z) : 0 <= d -> 0 <= m < 2 ^ d -> Zdigits2 m <= d.
Proof.
  intros Hd [H0 Hm]. destruct (Z.eq_dec m 0) as [->|Hn]; [simpl; lia|].
  destruct (Zdigits2_bounds m ltac:(lia)) as [Hlo _].
  destruct (Z_le_gt_dec (Zdigits2 m) d) as [|Hgt]; [assumption|exfalso].
  assert (2 ^ d <= 2 ^ (Zdigits2 m - 1)) by (apply Z.pow_le_mono_r; lia).
  lia.
Qed.

Lemma Zdigits2_ge (m d : Z) : 0 <= d -> 2 ^ d <= m -> d + 1 <= Zdigits2 m.
Proof.
  intros Hd Hm.
  assert (0 < 2 ^ d) by (apply Z.pow_pos_nonneg; lia).
  destruct (Zdigits2_bounds m ltac:(lia)) as [_ Hhi].
  destruct (Z_le_gt_dec (d + 1) (Zdigits2 m)) as [|Hgt]; [assumption|exfalso].
  assert (2 ^ Zdigits2 m <= 2 ^ d).
  { apply Z.pow_le_mono_r; try lia. }
  lia.
Qed.

Lemma shr_1_m (mrs : shr_record) :
  0 <= shr_m mrs -> shr_m (shr_1 mrs) = shr_m mrs / 2.
Proof.
  destruct mrs as [m r s]. simpl. intros Hm.
  destruct m as [|p|p]; try lia; [reflexivity|].
  destruct p as [p|p|]; simpl.
  - rewrite Pos2Z.inj_xI. eapply Z.div_unique with (r := 1); lia.
  - rewrite Pos2Z.inj_xO. eapply Z.div_unique with (r := 0); lia.
  - reflexivity.
Qed.

Lemma shr_1_h (mrs : shr_record) :
  0 <= shr_h mrs -> shr_h (shr_1 mrs) = shr_h mrs / 2.
Proof.
  destruct mrs as [m r s]. unfold shr_h. cbn [shr_m shr_r]. intros Hm.
  assert (E : (2 * m + (if r then 1 else 0)) / 2 = m).
  { symmetry.
    destruct r;
      [eapply Z.div_unique with (r := 1)|eapply Z.div_unique with (r := 0)]; lia. }
  rewrite E. clear E.
  destruct m as [|p|p]; [reflexivity| |destruct r; lia].
  destruct p as [p|p|]; cbn [shr_1 shr_m shr_r]; lia.
Qed.

Lemma iter_shr_1_div (phi : shr_record -> Z) :
  (forall x, 0 <= phi x -> phi (shr_1 x) = phi x / 2) ->
  forall (n : positive) (x : shr_record),
    0 <= phi x -> phi (SpecFloat.iter_pos shr_1 n x) = phi x / 2 ^ Zpos n.
Proof.
  intros Hphi.
  assert (Hdd : forall m a b, 0 <= m -> 0 < a -> 0 < b ->
                 m / 2 ^ a / 2 ^ b = m / 2 ^ (a + b)).
  { intros m a b Hm Ha Hb.
    assert (0 < 2 ^ a) by (apply Z.pow_pos_nonneg; lia).
    assert (0 < 2 ^ b) by (apply Z.pow_pos_nonneg; lia).
    rewrite Z.pow_add_r by lia. rewrite Z.div_div by lia. reflexivity. }
  assert (Hp : forall m a, 0 <= m -> 0 <= m / 2 ^ Zpos a).
  { intros. apply Z.div_pos; [lia|]. apply Z.pow_pos_nonneg; lia. }
  induction n as [n IH|n IH|]; intros x Hx; cbn [SpecFloat.iter_pos].
  - assert (H1 : 0 <= phi (shr_1 x)) by (rewrite Hphi by lia; apply Z.div_pos; lia).
    assert (H2 : 0 <= phi (SpecFloat.iter_pos shr_1 n (shr_1 x)))
      by (rewrite IH by lia; apply Hp; lia).
    rewrite (IH _ H2), (IH _ H1), Hphi by lia.
    change (phi x / 2) with (phi x / 2 ^ 1).
    rewrite (Hdd (phi x) 1 (Zpos n)), (Hdd (phi x) (1 + Zpos n) (Zpos n)) by lia.
    f_equal. f_equal. rewrite (Pos2Z.inj_xI n). lia.
  - assert (H2 : 0 <= phi (SpecFloat.iter_pos shr_1 n x))
      by (rewrite IH by lia; apply Hp; lia).
    rewrite (IH _ H2), (IH _ Hx), (Hdd (phi x) (Zpos n) (Zpos n)) by lia.
    f_equal. f_equal. rewrite (Pos2Z.inj_xO n). lia.
  - rewrite Hphi by lia. reflexivity.
Qed.

Lemma pow2_pos (a : Z) : 0 <= a -> 0 < 2 ^ a.
Proof. intros. apply Z.pow_pos_nonneg; lia. Qed.

Lemma div_pow2_lt (m D n : Z) :
  0 <= n <= D -> 0 <= m < 2 ^ D -> 0 <= m / 2 ^ n < 2 ^ (D - n).
Proof.
  intros Hn Hm. pose proof (pow2_pos n ltac:(lia)). split.
  - apply Z.div_pos; lia.
  - apply Z.div_lt_upper_bound; [lia|].
    rewrite <- Z.pow_add_r by lia. replace (n + (D - n)) with D by lia. lia.
Qed.

Lemma div_pow2_ge (m D n : Z) :
  0 <= n <= D -> 2 ^ D <= m -> 2 ^ (D - n) <= m / 2 ^ n.
Proof.
  intros Hn Hm. pose proof (pow2_pos n ltac:(lia)).
  apply Z.div_le_lower_bound; [lia|].
  rewrite <- Z.pow_add_r by lia. replace (n + (D - n)) with D by lia. lia.
Qed.

Lemma div_pow2_zero (m D n : Z) :
  0 <= D <= n -> 0 <= m < 2 ^ D -> m / 2 ^ n = 0.
Proof.
  intros Hn Hm. apply Z.div_small. split; [lia|].
  assert (2 ^ D <= 2 ^ n) by (apply Z.pow_le_mono_r; lia). lia.
Qed.

Lemma fexp64_eq (e : Z) : fexp64 e = Z.max (e - 53) (-1074).
Proof. reflexivity. Qed.

Lemma shr_record_of_loc_m (m : Z) (l : location) :
  shr_m (shr_record_of_loc m l) = m.
Proof. destruct l as [|[]]; reflexivity. Qed.

Lemma shr_fexp_spec (m e : Z) (l : location) :
  0 <= m -> e <= fexp64 (Zdigits2 m + e) ->
  exists mrs, shr_fexp 53 1024 m e l = (mrs, fexp64 (Zdigits2 m + e))
              /\ shr_m mrs = m / 2 ^ (fexp64 (Zdigits2 m + e) - e)
              /\ shr_h mrs
                 = shr_h (shr_record_of_loc m l) / 2 ^ (fexp64 (Zdigits2 m + e) - e).
Proof.
  intros Hm He. unfold shr_fexp, shr. fold (fexp64 (Zdigits2 m + e)).
  assert (Hh : 0 <= shr_h (shr_record_of_loc m l)).
  { unfold shr_h. rewrite shr_record_of_loc_m. destruct (shr_r _); lia. }
  destruct (fexp64 (Zdigits2 m + e) - e) as [|n|n] eqn:En; try lia.
  - eexists; split; [f_equal; lia|].
    rewrite shr_record_of_loc_m, !Z.div_1_r. split; reflexivity.
  - eexists; split; [f_equal; lia|]. split.
    + rewrite (iter_shr_1_div shr_m shr_1_m) by (rewrite shr_record_of_loc_m; lia).
      rewrite shr_record_of_loc_m. reflexivity.
    + apply (iter_shr_1_div shr_h shr_1_h). assumption.
Qed.

Lemma round_nearest_even_bounds (m : Z) (l : location) :
  m <= round_nearest_even m l <= m + 1.
Proof. destruct l as [|[]]; simpl; try destruct (Z.even m); lia. Qed.

Lemma round_nearest_even_half (mrs : shr_record) :
  2 * round_nearest_even (shr_m mrs) (loc_of_shr_record mrs) <= shr_h mrs + 1.
Proof.
  destruct mrs as [m [] []]; unfold shr_h;
    cbn [shr_m shr_r loc_of_shr_record round_nearest_even];
    try destruct (Z.even m); lia.
Qed.

Lemma binary_round_aux_at (s : bool) (m e : Z) (l : location) (mrs1 : shr_record) :
  0 <= m -> e <= fexp64 (Zdigits2 m + e) -> Zdigits2 m + e <= 1023 ->
  shr_fexp 53 1024 m e l = (mrs1, fexp64 (Zdigits2 m + e)) ->
  shr_m mrs1 = m / 2 ^ (fexp64 (Zdigits2 m + e) - e) ->
  (round_nearest_even (shr_m mrs1) (loc_of_shr_record mrs1) = 0
   /\ binary_round_aux 53 1024 s m e l = S754_zero s)
  \/ (exists p, round_nearest_even (shr_m mrs1) (loc_of_shr_record mrs1) = Zpos p
        /\ Zpos (digits2_pos p) <= 53
        /\ fexp64 (Zpos (digits2_pos p) + fexp64 (Zdigits2 m + e))
           = fexp64 (Zdigits2 m + e)
        /\ Zpos (digits2_pos p) + fexp64 (Zdigits2 m + e)
           <= Z.max (Zdigits2 m + e) (-1074) + 1
        /\ binary_round_aux 53 1024 s m e l
           = S754_finite s p (fexp64 (Zdigits2 m + e)))
  \/ (round_nearest_even (shr_m mrs1) (loc_of_shr_record mrs1) = 2 ^ 53
      /\ fexp64 (Zdigits2 m + e) = Zdigits2 m + e - 53
      /\ binary_round_aux 53 1024 s m e l
         = S754_finite s 4503599627370496 (fexp64 (Zdigits2 m + e) + 1)).
Proof.
  intros Hm He Hk E1 Hm1. unfold binary_round_aux. rewrite E1.
  set (D := Zdigits2 m) in *. set (E := fexp64 (D + e)) in *.
  pose proof (round_nearest_even_bounds (shr_m mrs1) (loc_of_shr_record mrs1)) as Hr.
  set (m1 := round_nearest_even (shr_m mrs1) (loc_of_shr_record mrs1)) in *.
  clearbody m1.
  pose proof (Zdigits2_nonneg m) as HD. fold D in HD.
  assert (HE : E = Z.max (D + e - 53) (-1074)) by reflexivity.
  (* the truncated mantissa *)
  assert (Hm1b : 0 <= shr_m mrs1 < 2 ^ Z.max (D + e - E) 0
                 /\ (-1074 < E -> 2 ^ 52 <= shr_m mrs1)).
  { rewrite Hm1. destruct (Z.eq_dec m 0) as [->|Hm0].
    - rewrite Z.div_0_l by (pose proof (pow2_pos (E - e)); lia).
      split; [split; [lia|apply pow2_pos; lia]|].
      intros HE'. subst D. simpl in HE. lia.
    - destruct (Zdigits2_bounds m ltac:(lia)) as [Hlo Hhi]. fold D in Hlo, Hhi.
      destruct (Z_le_gt_dec (E - e) D) as [Hle|Hgt].
      + split.
        * replace (Z.max (D + e - E) 0) with (D - (E - e)) by lia.
          apply div_pow2_lt; lia.
        * intros HE'. assert (E - e = D - 53) by lia.
          replace 52 with (D - 1 - (E - e)) by lia. apply div_pow2_ge; lia.
      + rewrite (div_pow2_zero m D (E - e)) by lia.
        split; [split; [lia|apply pow2_pos; lia]|]. intros; lia. }
  destruct Hm1b as [[Hm1lo Hm1hi] Hm1n].
  assert (Hm1pos : 0 <= m1) by lia.
  assert (Hle53 : Z.max (D + e - E) 0 <= 53) by lia.
  assert (Hm1le : m1 <= 2 ^ Z.max (D + e - E) 0) by lia.
  assert (Hp53 : 2 ^ Z.max (D + e - E) 0 <= 2 ^ 53) by (apply Z.pow_le_mono_r; lia).
  assert (Hd1 : Zdigits2 m1 <= 54).
  { apply Zdigits2_le; [lia|]. change (2 ^ 54) with (2 * 2 ^ 53). lia. }
  assert (He2 : E <= fexp64 (Zdigits2 m1 + E)).
  { rewrite fexp64_eq. destruct (Z_le_gt_dec E (-1074)); [lia|].
    assert (53 <= Zdigits2 m1) by (apply (Zdigits2_ge m1 52); lia). lia. }
  destruct (shr_fexp_spec m1 E loc_Exact Hm1pos He2) as (mrs2 & E2 & Hm2 & _).
  rewrite E2.
  set (d1 := Zdigits2 m1) in *. set (F := fexp64 (d1 + E)) in *.
  assert (HF : F = Z.max (d1 + E - 53) (-1074)) by reflexivity.
  destruct (Z.eq_dec m1 0) as [Hz|Hnz].
  { left. split; [assumption|].
    rewrite Hm2, Hz, Z.div_0_l by (pose proof (pow2_pos (F - E)); lia). reflexivity. }
  right.
  destruct (Zdigits2_bounds m1 ltac:(lia)) as [Hlo1 Hhi1]. fold d1 in Hlo1, Hhi1.
  assert (Hd1pos : 1 <= d1).
  { pose proof (Zdigits2_ge m1 0 ltac:(lia)) as X. change (2 ^ 0) with 1 in X.
    fold d1 in X. lia. }
  destruct (Z_le_gt_dec d1 53) as [Hs|Hb].
  - (* no carry out of the mantissa *)
    left.
    assert (HFE : F = E).
    { destruct (Z_le_gt_dec E (-1074)); [lia|].
      assert (53 <= d1) by (apply (Zdigits2_ge m1 52); lia). lia. }
    rewrite Hm2, HFE, Z.sub_diag, Z.div_1_r.
    destruct m1 as [|p|p]; try lia.
    assert (Hdk : d1 + E <= Z.max (D + e) (-1074) + 1).
    { assert (d1 <= Z.max (D + e - E) 0 + 1).
      { apply Zdigits2_le; [lia|]. rewrite Z.pow_add_r by lia. lia. }
      lia. }
    replace (E <=? 1024 - 53) with true by (symmetry; apply Z.leb_le; lia).
    exists p. change (Z.pos (digits2_pos p)) with d1. fold F.
    repeat split; try reflexivity; lia.
  - (* the rounding carried: the mantissa is 2^53 *)
    right.
    assert (d1 = 54) by lia.
    assert (Hm1v : m1 = 2 ^ 53).
    { assert (2 ^ 53 <= m1) by (replace 53 with (d1 - 1) by lia; lia). lia. }
    assert (Hmax : Z.max (D + e - E) 0 = 53).
    { destruct (Z_le_gt_dec 53 (Z.max (D + e - E) 0)); [lia|].
      assert (2 ^ Z.max (D + e - E) 0 <= 2 ^ 52) by (apply Z.pow_le_mono_r; lia).
      change (2 ^ 53) with (2 * 2 ^ 52) in Hm1v. pose proof (pow2_pos 52). lia. }
    assert (HFE : F = E + 1) by lia.
    rewrite Hm2, HFE, Hm1v. replace (E + 1 - E) with 1 by lia.
    change (2 ^ 53 / 2 ^ 1) with (Zpos 4503599627370496).
    replace (E + 1 <=? 1024 - 53) with true by (symmetry; apply Z.leb_le; lia).
    repeat split; try reflexivity; lia.
Qed.


Lemma binary_round_aux_cases (s : bool) (m e : Z) (l : location) :
  0 <= m -> e <= fexp64 (Zdigits2 m + e) -> Zdigits2 m + e <= 1023 ->
  exists m1,
    m / 2 ^ (fexp64 (Zdigits2 m + e) - e) <= m1
      <= m / 2 ^ (fexp64 (Zdigits2 m + e) - e) + 1
    /\ 2 * m1 <= shr_h (shr_record_of_loc m l) / 2 ^ (fexp64 (Zdigits2 m + e) - e) + 1
    /\ ((m1 = 0 /\ binary_round_aux 53 1024 s m e l = S754_zero s)
        \/ (exists p, m1 = Zpos p /\ Zpos (digits2_pos p) <= 53
              /\ fexp64 (Zpos (digits2_pos p) + fexp64 (Zdigits2 m + e))
                 = fexp64 (Zdigits2 m + e)
              /\ Zpos (digits2_pos p) + fexp64 (Zdigits2 m + e)
                 <= Z.max (Zdigits2 m + e) (-1074) + 1
              /\ binary_round_aux 53 1024 s m e l
                 = S754_finite s p (fexp64 (Zdigits2 m + e)))
        \/ (m1 = 2 ^ 53 /\ fexp64 (Zdigits2 m + e) = Zdigits2 m + e - 53
              /\ binary_round_aux 53 1024 s m e l
                 = S754_finite s 4503599627370496 (fexp64 (Zdigits2 m + e) + 1))).
Proof.
  intros Hm He Hk.
  destruct (shr_fexp_spec m e l Hm He) as (mrs1 & E1 & Hm1 & Hh1).
  exists (round_nearest_even (shr_m mrs1) (loc_of_shr_record mrs1)).
  rewrite <- Hm1, <- Hh1.
  split; [apply round_nearest_even_bounds|].
  split; [apply round_nearest_even_half|].
  exact (binary_round_aux_at s m e l mrs1 Hm He Hk E1 Hm1).
Qed.

Lemma binary_round_aux_bounded (s : bool) (m e : Z) (l : location) (k : Z) :
  0 <= m -> e <= fexp64 (Zdigits2 m + e) -> Zdigits2 m + e <= k ->
  -1074 <= k <= 1023 ->
  bounded_mag (k + 1) (binary_round_aux 53 1024 s m e l).
Proof.
  intros Hm He Hk Hkr.
  destruct (binary_round_aux_cases s m e l Hm He ltac:(lia))
    as (m1 & _ & _ & [[_ ->]|[(p & _ & _ & Hc & Hd & ->)|(_ & HE & ->)]]);
    cbn [bounded_mag].
  - exact I.
  - split; [assumption|lia].
  - change (Z.pos (digits2_pos 4503599627370496)) with 53.
    rewrite (fexp64_eq (53 + _)). rewrite fexp64_eq in HE |- *. split; lia.
Qed.

Lemma bounded_mag_weaken (k k' : Z) (x : spec_float) :
  k <= k' -> bounded_mag k x -> bounded_mag k' x.
Proof. destruct x; simpl; intuition lia. Qed.

Lemma digits2_pos_iter_xO (mx d : positive) :
  Zpos (digits2_pos (Pos.iter xO mx d)) = Zpos (digits2_pos mx) + Zpos d.
Proof.
  induction d as [|d IH] using Pos.peano_ind.
  - simpl. lia.
  - rewrite Pos.iter_succ. cbn [digits2_pos]. lia.
Qed.

Lemma shl_align_spec (mx : positive) (ex ex' : Z) :
  snd (shl_align mx ex ex') = Z.min ex ex' /\
  Zpos (digits2_pos (fst (shl_align mx ex ex'))) + snd (shl_align mx ex ex')
  = Zpos (digits2_pos mx) + ex.
Proof.
  unfold shl_align. destruct (ex' - ex) as [|d|d] eqn:Ed; cbn [fst snd]; try lia.
  rewrite digits2_pos_iter_xO. lia.
Qed.

Lemma binary_round_bounded (s : bool) (mx : positive) (ex k : Z) :
  Zpos (digits2_pos mx) + ex <= k -> -1074 <= k <= 1023 ->
  bounded_mag (k + 1) (binary_round 53 1024 s mx ex).
Proof.
  intros Hk Hkr. unfold binary_round.
  pose proof (shl_align_spec mx ex (fexp 53 1024 (Zpos (digits2_pos mx) + ex)))
    as [Hs Hd].
  destruct (shl_align mx ex (fexp 53 1024 (Zpos (digits2_pos mx) + ex))) as [mz ez].
  cbn [fst snd] in Hs, Hd.
  apply binary_round_aux_bounded; cbn [Zdigits2]; try lia.
  rewrite Hd. unfold fexp64. lia.
Qed.

Lemma binary_normalize_bounded (z e k : Z) :
  Zdigits2 z + e <= k -> -1074 <= k <= 1023 ->
  bounded_mag (k + 1) (binary_normalize 53 1024 z e false).
Proof.
  intros Hk Hkr. destruct z as [|p|p]; cbn [binary_normalize]; [exact I| |];
    apply binary_round_bounded; assumption.
Qed.

Lemma digits2_pos_pos (p : positive) : 1 <= Zpos (digits2_pos p).
Proof. lia. Qed.

Lemma Zdigits2_mul (a b : positive) :
  Zpos (digits2_pos a) + Zpos (digits2_pos b) - 1 <= Zpos (digits2_pos (a * b))
  <= Zpos (digits2_pos a) + Zpos (digits2_pos b).
Proof.
  pose proof (Zdigits2_pos_bounds a) as [Ha1 Ha2].
  pose proof (Zdigits2_pos_bounds b) as [Hb1 Hb2].
  set (da := Zpos (digits2_pos a)) in *. set (db := Zpos (digits2_pos b)) in *.
  assert (1 <= da) by (unfold da; lia). assert (1 <= db) by (unfold db; lia).
  pose proof (pow2_pos (da - 1) ltac:(lia)). pose proof (pow2_pos (db - 1) ltac:(lia)).
  change (Zpos (digits2_pos (a * b))) with (Zdigits2 (Zpos a * Zpos b)).
  split.
  - replace (da + db - 1) with ((da - 1 + (db - 1)) + 1) by lia.
    apply Zdigits2_ge; [lia|]. rewrite Z.pow_add_r by lia. nia.
  - apply Zdigits2_le; [lia|]. rewrite Z.pow_add_r by lia. nia.
Qed.

Lemma SFmul_bounded (x y : spec_float) (k1 k2 k : Z) :
  bounded_mag k1 x -> bounded_mag k2 y -> k1 + k2 <= k -> -1074 <= k <= 1023 ->
  bounded_mag (k + 1) (SFmul 53 1024 x y).
Proof.
  destruct x as [sx|sx| |sx mx ex], y as [sy|sy| |sy my ey]; cbn [bounded_mag SFmul];
    try tauto.
  intros [Hcx Hkx] [Hcy Hky] Hk Hkr.
  pose proof (Zdigits2_mul mx my) as [Hlo Hhi].
  rewrite fexp64_eq in Hcx, Hcy.
  apply binary_round_aux_bounded; cbn [Zdigits2]; try lia.
  rewrite fexp64_eq. lia.
Qed.

Lemma SFopp_bounded (k : Z) (x : spec_float) :
  bounded_mag k x -> bounded_mag k (SFopp x).
Proof. destruct x; simpl; tauto. Qed.

Lemma Zdigits2_abs (z : Z) : Zdigits2 (Z.abs z) = Zdigits2 z.
Proof. destruct z; reflexivity. Qed.

Lemma Zdigits2_sum (a b : positive) (sa sb : bool) (d : Z) :
  Zpos (digits2_pos a) <= d -> Zpos (digits2_pos b) <= d ->
  Zdigits2 (cond_Zopp sa (Zpos a) - cond_Zopp sb (Zpos b)) <= d + 1.
Proof.
  intros Ha Hb. rewrite <- Zdigits2_abs.
  pose proof (Zdigits2_pos_bounds a) as [_ Ha2].
  pose proof (Zdigits2_pos_bounds b) as [_ Hb2].
  assert (2 ^ Zpos (digits2_pos a) <= 2 ^ d) by (apply Z.pow_le_mono_r; lia).
  assert (2 ^ Zpos (digits2_pos b) <= 2 ^ d) by (apply Z.pow_le_mono_r; lia).
  apply Zdigits2_le; [lia|]. rewrite Z.pow_add_r by lia. change (2 ^ 1) with 2.
  destruct sa, sb; cbn [cond_Zopp]; lia.
Qed.

Lemma SFsub_bounded (x y : spec_float) (k : Z) :
  bounded_mag k x -> bounded_mag k y -> -1074 <= k <= 1022 ->
  bounded_mag (k + 2) (SFsub 53 1024 x y).
Proof.
  destruct x as [sx|sx| |sx mx ex], y as [sy|sy| |sy my ey]; cbn [bounded_mag SFsub];
    try tauto.
  - intros _ _ _. destruct sx, sy; exact I.
  - intros _ [Hc Hk] _. split; [assumption|lia].
  - intros [Hc Hk] _ _. split; [assumption|lia].
  - intros [Hcx Hkx] [Hcy Hky] Hkr.
    pose proof (shl_align_spec mx ex (Z.min ex ey)) as [Hsx Hdx].
    pose proof (shl_align_spec my ey (Z.min ex ey)) as [Hsy Hdy].
    replace (k + 2) with (k + 1 + 1) by lia.
    apply binary_normalize_bounded; [|lia].
    pose proof (Zdigits2_sum (fst (shl_align mx ex (Z.min ex ey)))
                  (fst (shl_align my ey (Z.min ex ey))) sx sy (k - Z.min ex ey)
                  ltac:(lia) ltac:(lia)).
    lia.
Qed.

Lemma SFdiv_core_binary_spec (m1 m2 : positive) (e1 e2 : Z) :
  let X := Zpos (digits2_pos m1) + e1 - (Zpos (digits2_pos m2) + e2) in
  let '(q, e', _) := SFdiv_core_binary 53 1024 (Zpos m1) e1 (Zpos m2) e2 in
  0 <= q /\ e' <= fexp64 (Zdigits2 q + e') /\
  Zdigits2 q + e' <= Z.max (X + 1) (-1074) /\
  e' = Z.min (fexp64 X) (e1 - e2) /\
  q = Zpos m1 * 2 ^ (e1 - e2 - e') / Zpos m2.
Proof.
  intros X. unfold SFdiv_core_binary. cbn [Zdigits2]. fold X. fold (fexp64 X).
  set (d1 := Zpos (digits2_pos m1)) in *. set (d2 := Zpos (digits2_pos m2)) in *.
  set (e' := Z.min (fexp64 X) (e1 - e2)).
  set (s := e1 - e2 - e').
  set (m' := match s with
             | Z.pos _ => Z.shiftl (Z.pos m1) s
             | Z0 => Z.pos m1
             | Z.neg _ => 0
             end).
  assert (Hs : 0 <= s) by (unfold s, e'; lia).
  assert (Hm' : m' = Zpos m1 * 2 ^ s).
  { unfold m'. destruct s as [|p|p] eqn:Es; try lia.
    rewrite Z.shiftl_mul_pow2 by lia. reflexivity. }
  clearbody m'.
  destruct (Z.div_eucl m' (Z.pos m2)) as [q r] eqn:Eq.
  assert (Hq : q = m' / Zpos m2) by (unfold Z.div; rewrite Eq; reflexivity).
  pose proof (Zdigits2_pos_bounds m1) as [H1lo H1hi]. fold d1 in H1lo, H1hi.
  pose proof (Zdigits2_pos_bounds m2) as [H2lo H2hi]. fold d2 in H2lo, H2hi.
  assert (Hd1 : 1 <= d1) by (unfold d1; lia).
  assert (Hd2 : 1 <= d2) by (unfold d2; lia).
  pose proof (pow2_pos s Hs) as Hps.
  assert (Hq0 : 0 <= q) by (subst q; apply Z.div_pos; nia).
  assert (HX : fexp64 X = Z.max (X - 53) (-1074)) by reflexivity.
  (* the quotient has at least [d1 + s - d2] digits *)
  assert (Hlo : d1 + s - d2 <= Zdigits2 q).
  { destruct (Z_le_gt_dec (d1 + s - d2) 0) as [|Hgt].
    - pose proof (Zdigits2_nonneg q). lia.
    - replace (d1 + s - d2) with (d1 + s - d2 - 1 + 1) by lia.
      apply Zdigits2_ge; [lia|]. subst q. apply Z.div_le_lower_bound; [lia|].
      assert (2 ^ d2 * 2 ^ (d1 + s - d2 - 1) = 2 ^ (d1 - 1) * 2 ^ s).
      { rewrite <- !Z.pow_add_r by lia. f_equal. lia. }
      pose proof (pow2_pos (d1 + s - d2 - 1) ltac:(lia)). nia. }
  (* and at most [d1 + s - d2 + 1] *)
  assert (Hhi : Zdigits2 q <= Z.max (d1 + s - d2 + 1) 0).
  { destruct (Z_le_gt_dec 0 (d1 + s - d2 + 1)) as [Hge|Hlt].
    - apply Zdigits2_le; [lia|]. split; [lia|]. subst q.
      apply Z.div_lt_upper_bound; [lia|].
      replace (Z.max (d1 + s - d2 + 1) 0) with (d1 + s - d2 + 1) by lia.
      assert (2 ^ (d2 - 1) * 2 ^ (d1 + s - d2 + 1) = 2 ^ d1 * 2 ^ s).
      { rewrite <- !Z.pow_add_r by lia. f_equal. lia. }
      pose proof (pow2_pos (d1 + s - d2 + 1) ltac:(lia)). nia.
    - replace (Z.max (d1 + s - d2 + 1) 0) with 0 by lia.
      assert (Hz : m' / Zpos m2 = 0); [|rewrite Hq, Hz; simpl; lia].
      apply Z.div_small. split; [lia|].
      assert (2 ^ (d1 + s) <= 2 ^ (d2 - 1)) by (apply Z.pow_le_mono_r; lia).
      rewrite Z.pow_add_r in * by lia. nia. }
  split; [assumption|]. rewrite fexp64_eq.
  split; [unfold s, e' in *; lia|].
  split; [unfold s, e' in *; lia|].
  split; [reflexivity|]. rewrite Hq, Hm'. reflexivity.
Qed.

(** * Totality of the Python operations on the inputs of the solver *)

Lemma bounded_mag_finite (k : Z) (x : float) :
  bounded_mag k x -> is_finite x = true.
Proof. destruct x; simpl; tauto. Qed.

Lemma checked_bounded (k : Z) (x : float) :
  bounded_mag k x -> checked x = Some x.
Proof. intros H. unfold checked. rewrite (bounded_mag_finite k x H). reflexivity. Qed.

Lemma float_of_int_bounded (z d : Z) :
  Zdigits2 z <= d -> -1074 <= d <= 1023 ->
  exists f, float_of_int z = Some f /\ bounded_mag (d + 1) f.
Proof.
  intros Hd Hr. unfold float_of_int.
  assert (H : bounded_mag (d + 1) (binary_normalize prec emax z 0 false))
    by (apply binary_normalize_bounded; lia).
  eexists. split; [apply (checked_bounded _ _ H)|exact H].
Qed.

Lemma Zdigits2_count (z : Z) : 0 <= z <= 2 * max_count -> Zdigits2 z <= 54.
Proof. intros H. apply Zdigits2_le; [lia|]. unfold max_count in H. lia. Qed.

Lemma SFdiv_bounded (x : float) (sy : bool) (my : positive) (ey k1 j k : Z) :
  bounded_mag k1 x -> j <= Zpos (digits2_pos my) + ey ->
  k1 - j + 1 <= k -> -1074 <= k <= 1023 ->
  bounded_mag (k + 1) (SFdiv prec emax x (S754_finite sy my ey)).
Proof.
  destruct x as [sx|sx| |sx mx ex]; cbn [bounded_mag SFdiv]; try tauto.
  intros [Hc Hk1] Hj Hk Hkr.
  pose proof (SFdiv_core_binary_spec mx my ex ey) as H. cbv zeta in H.
  unfold prec, emax.
  destruct (SFdiv_core_binary 53 1024 (Z.pos mx) ex (Z.pos my) ey) as [[q e'] l].
  destruct H as (Hq & He & Hd & _).
  apply binary_round_aux_bounded; lia.
Qed.

Lemma float_div_100 (x : float) : float_div x f100_0 = Some (SFdiv prec emax x f100_0).
Proof. reflexivity. Qed.

Lemma valid_percent_bounded (p : float) : valid_percent p -> bounded_mag 7 p.
Proof.
  intros (Hv & H0 & H100). unfold float_ge, SFleb in H0, H100.
  destruct p as [s|s| |s m e]; cbn [bounded_mag]; try exact I.
  - destruct s; discriminate.
  - discriminate.
  - cbn [valid_binary] in Hv. unfold bounded, canonical_mantissa in Hv.
    apply andb_true_iff in Hv. destruct Hv as [Hc He].
    apply Z.eqb_eq in Hc. fold (fexp64 (Z.pos (digits2_pos m) + e)) in Hc.
    split; [assumption|].
    rewrite fexp64_eq in Hc.
    destruct s; [discriminate|].
    cbn [SFcompare f100_0] in H100.
    destruct (e ?= -46) eqn:Ecmp; try discriminate.
    + apply Z.compare_eq in Ecmp. lia.
    + pose proof (proj1 (Z.compare_lt_iff _ _) Ecmp). lia.
Qed.

Lemma Zdigits2_mono (a b : Z) : 0 <= a <= b -> Zdigits2 a <= Zdigits2 b.
Proof.
  intros [Ha Hab]. destruct (Z.eq_dec b 0) as [->|Hb].
  - replace a with 0 by lia. lia.
  - pose proof (Zdigits2_bounds b ltac:(lia)) as [_ Hhi].
    apply Zdigits2_le; [apply Zdigits2_nonneg|lia].
Qed.

Lemma int_true_div_bounded (a b : Z) :
  0 <= a <= b -> 1 <= b ->
  exists q, int_true_div a b = Some q /\ bounded_mag 2 q.
Proof.
  intros Ha Hb. unfold int_true_div.
  replace (b =? 0) with false by (symmetry; apply Z.eqb_neq; lia).
  destruct a as [|pa|pa]; try lia.
  - eexists. split; [reflexivity|exact I].
  - destruct b as [|pb|pb]; try lia. cbn [Z.abs].
    pose proof (SFdiv_core_binary_spec pa pb 0 0) as H. cbv zeta in H.
    pose proof (Zdigits2_mono (Zpos pa) (Zpos pb) ltac:(lia)) as Hd.
    cbn [Zdigits2] in Hd.
    unfold prec, emax.
    destruct (SFdiv_core_binary 53 1024 (Z.pos pa) 0 (Z.pos pb) 0) as [[q e'] l].
    destruct H as (Hq & He & Hm & _).
    assert (Hbd : bounded_mag (1 + 1)
              (binary_round_aux 53 1024 (xorb (Z.pos pa <? 0) (Z.pos pb <? 0)) q e' l))
      by (apply binary_round_aux_bounded; lia).
    eexists. split; [apply (checked_bounded _ _ Hbd)|exact Hbd].
Qed.

Lemma math_floor_bounded (k : Z) (x : float) :
  bounded_mag k x -> exists n, math_floor x = Some n.
Proof. destruct x; simpl; try tauto; eauto. Qed.

Lemma percent_ratio_bounded (p : float) :
  valid_percent p -> bounded_mag 2 (SFdiv prec emax p f100_0).
Proof.
  intros Hp. apply (SFdiv_bounded p false 7036874417766400 (-46) 7 7 1).
  - apply valid_percent_bounded, Hp.
  - simpl. lia.
  - lia.
  - lia.
Qed.

Lemma missable_value_bounded (c_att c_total x : Z) (R : float) :
  valid_counts c_att c_total -> bounded_mag 2 R -> 0 <= x <= max_count ->
  exists ftx fa fx,
    float_of_int (c_total + x) = Some ftx /\ float_of_int c_att = Some fa
    /\ float_of_int x = Some fx
    /\ bounded_mag 62 (float_sub fx (float_sub (float_mul R ftx) fa)).
Proof.
  intros [Ha Ht] HR Hx.
  destruct (float_of_int_bounded (c_total + x) 54) as (ftx & E1 & B1);
    [apply Zdigits2_count; lia|lia|].
  destruct (float_of_int_bounded c_att 54) as (fa & E2 & B2);
    [apply Zdigits2_count; lia|lia|].
  destruct (float_of_int_bounded x 54) as (fx & E3 & B3);
    [apply Zdigits2_count; lia|lia|].
  exists ftx, fa, fx. repeat split; try assumption.
  assert (Bm : bounded_mag 58 (float_mul R ftx)).
  { apply (SFmul_bounded R ftx 2 55 57); try assumption; lia. }
  assert (Bs : bounded_mag 60 (float_sub (float_mul R ftx) fa)).
  { apply (SFsub_bounded _ _ 58); [assumption| |lia].
    apply (bounded_mag_weaken 55); [lia|assumption]. }
  apply (SFsub_bounded _ _ 60); [|assumption|lia].
  apply (bounded_mag_weaken 55); [lia|assumption].
Qed.

Lemma missable_floor_total (c_att c_total x : Z) (R : float) :
  valid_counts c_att c_total -> bounded_mag 2 R -> 0 <= x <= max_count ->
  exists m_int, missable_floor c_att c_total R x = Some m_int.
Proof.
  intros Hc HR Hx.
  destruct (missable_value_bounded c_att c_total x R Hc HR Hx)
    as (ftx & fa & fx & E1 & E2 & E3 & B).
  unfold missable_floor. rewrite E1, E2, E3. cbn [bind].
  apply (math_floor_bounded 62), B.
Qed.

(** * The current percentage of a partial attendance is below 100 *)

Lemma int_true_div_lt_one (a b : Z) :
  0 <= a < b -> b <= max_count ->
  exists q, int_true_div a b = Some q /\ bounded_mag 0 q /\ nonneg_float q.
Proof.
  intros Ha Hb. unfold int_true_div.
  replace (b =? 0) with false by (symmetry; apply Z.eqb_neq; lia).
  destruct a as [|pa|pa]; try lia.
  { eexists. split; [reflexivity|]. split; exact I. }
  destruct b as [|pb|pb]; try lia. cbn [Z.abs].
  pose proof (SFdiv_core_binary_spec pa pb 0 0) as H. cbv zeta in H.
  pose proof (Zdigits2_mono (Zpos pa) (Zpos pb) ltac:(lia)) as Hd. cbn [Zdigits2] in Hd.
  pose proof (Zdigits2_pos_bounds pa) as [Halo Hahi].
  pose proof (Zdigits2_pos_bounds pb) as [Hblo Hbhi].
  assert (Hdb : Zpos (digits2_pos pb) <= 53).
  { change (Zpos (digits2_pos pb)) with (Zdigits2 (Zpos pb)).
    apply Zdigits2_le; [lia|]. unfold max_count in Hb. lia. }
  unfold prec, emax.
  change (Z.pos pa <? 0) with false. change (Z.pos pb <? 0) with false.
  cbn [xorb].
  destruct (SFdiv_core_binary 53 1024 (Z.pos pa) 0 (Z.pos pb) 0) as [[q e'] l].
  set (da := Zpos (digits2_pos pa)) in *. set (db := Zpos (digits2_pos pb)) in *.
  destruct H as (Hq & He & Hm & He' & Hqv).
  assert (Hda : 1 <= da) by (unfold da; lia).
  rewrite fexp64_eq in He'.
  assert (Ee : e' = da - db - 53) by lia.
  replace (0 - 0 - e') with (- e') in Hqv by lia.
  (* the quotient is below [2^(-e')] *)
  pose proof (pow2_pos (- e') ltac:(lia)) as Hpe.
  assert (Hqlt : q < 2 ^ (- e')).
  { rewrite Hqv. apply Z.div_lt_upper_bound; [lia|]. nia. }
  assert (HD : Zdigits2 q <= - e') by (apply Zdigits2_le; lia).
  rewrite fexp64_eq in He.
  destruct (binary_round_aux_cases false q e' l Hq
              ltac:(rewrite fexp64_eq; lia) ltac:(lia))
    as (m1 & Hm1 & _ & Hcases).
  rewrite fexp64_eq in Hm1, Hcases.
  set (D := Zdigits2 q) in *.
  assert (HE : Z.max (D + e' - 53) (-1074) = D + e' - 53) by lia.
  rewrite HE in Hm1, Hcases.
  destruct Hcases as [[_ ->]|[(p & _ & Hp53 & Hc & _ & ->)|(Hcarry & _ & ->)]].
  - eexists. split; [reflexivity|]. split; exact I.
  - eexists. split; [reflexivity|]. split; [|exact I].
    cbn [bounded_mag]. rewrite fexp64_eq in Hc. rewrite fexp64_eq. split; lia.
  - eexists. split; [reflexivity|]. split; [|exact I].
    cbn [bounded_mag]. change (Z.pos (digits2_pos 4503599627370496)) with 53.
    rewrite fexp64_eq. split; [lia|].
    (* a carry needs the quotient within one unit of [2^(-e')] *)
    destruct (Z_le_gt_dec (D + e') (-1)) as [|Hgt]; [lia|exfalso].
    assert (HDe : D = - e') by lia.
    replace (D + e' - 53 - e') with (D - 53) in Hm1 by lia.
    assert (Hn : 0 <= D - 53) by lia.
    pose proof (pow2_pos (D - 53) Hn) as Hpn.
    assert (Hq1 : q / 2 ^ (D - 53) * 2 ^ (D - 53) <= q).
    { pose proof (Z.mul_div_le q (2 ^ (D - 53)) Hpn). lia. }
    assert (Hq2 : q * Zpos pb <= Zpos pa * 2 ^ (- e')).
    { rewrite Hqv.
      pose proof (Z.mul_div_le (Zpos pa * 2 ^ (- e')) (Zpos pb) ltac:(lia)). lia. }
    assert (Hpw : 2 ^ (- e') = 2 ^ 53 * 2 ^ (D - 53)).
    { rewrite <- Z.pow_add_r by lia. f_equal. lia. }
    rewrite Hpw in Hq2.
    assert (Hm' : q / 2 ^ (D - 53) * Zpos pb <= Zpos pa * 2 ^ 53).
    { apply (Z.mul_le_mono_pos_r _ _ (2 ^ (D - 53))); [lia|]. nia. }
    unfold max_count in Hb. nia.
Qed.

Lemma shr_h_exact (m : Z) : shr_h (shr_record_of_loc m loc_Exact) = 2 * m.
Proof. unfold shr_h. simpl. lia. Qed.

(** Rounding [mq * 100 / 2^n] to nearest, for [mq < 2^n], stays below 100
    in the units of the mantissa of [100.0]. *)
Lemma round_below_hundred (n m1 mq : Z) :
  1 <= n <= 53 -> 0 < mq < 2 ^ n ->
  2 * m1 <= 2 * (mq * 7036874417766400) / 2 ^ n + 1 ->
  m1 < 7036874417766400.
Proof.
  intros Hn Hmq Hhalf.
  pose proof (pow2_pos n ltac:(lia)) as Hp.
  assert (Hp53 : 2 ^ n <= 2 ^ 53) by (apply Z.pow_le_mono_r; lia).
  change (2 ^ 53) with 9007199254740992 in Hp53.
  pose proof (Z.mul_div_le (2 * (mq * 7036874417766400)) (2 ^ n) Hp) as Ht.
  set (t := 2 * (mq * 7036874417766400) / 2 ^ n) in *. clearbody t.
  set (P := 2 ^ n) in *. clearbody P.
  destruct (Z_lt_ge_dec m1 7036874417766400) as [|Hge]; [assumption|exfalso].
  assert (H1 : (2 * 7036874417766400 - 1) * P <= t * P).
  { apply Z.mul_le_mono_nonneg_r; lia. }
  nia.
Qed.

Lemma SFmul_finite (sx sy : bool) (mx my : positive) (ex ey : Z) :
  SFmul prec emax (S754_finite sx mx ex) (S754_finite sy my ey)
  = binary_round_aux 53 1024 (xorb sx sy) (Zpos (mx * my)) (ex + ey) loc_Exact.
Proof. reflexivity. Qed.

Lemma SFleb_finite_gt (m p : positive) (e E : Z) :
  E < e \/ (E = e /\ Zpos p < Zpos m) ->
  SFleb (S754_finite false m e) (S754_finite false p E) = false.
Proof.
  intros H. unfold SFleb. cbn [SFcompare].
  destruct (Z.compare_spec e E) as [HEq|HLt|HGt]; [|exfalso; lia|reflexivity].
  rewrite Pos.compare_cont_spec. cbn [Pos.switch_Eq].
  replace (m ?= p)%positive with Gt; [reflexivity|].
  symmetry. apply Pos.compare_gt_iff. lia.
Qed.

Lemma SFleb_100_finite (p : positive) (E : Z) :
  E < -46 \/ (E = -46 /\ Zpos p < 7036874417766400) ->
  SFleb f100_0 (S754_finite false p E) = false.
Proof. apply SFleb_finite_gt. Qed.

Lemma percent_below_100 (q : float) :
  bounded_mag 0 q -> nonneg_float q ->
  float_ge (float_mul q f100_0) f100_0 = false.
Proof.
  unfold float_ge, float_mul.
  destruct q as [s|s| |s mq eq]; cbn [bounded_mag nonneg_float]; try tauto.
  intros [Hc Hk] Hs. destruct s; [destruct Hs|]. clear Hs.
  unfold f100_0 at 2. rewrite SFmul_finite. cbn [xorb].
  pose proof (Zdigits2_mul mq 7036874417766400) as [Hdlo Hdhi].
  change (Zpos (digits2_pos 7036874417766400)) with 53 in Hdlo, Hdhi.
  pose proof (Zdigits2_pos_bounds mq) as [_ Hmq].
  rewrite fexp64_eq in Hc.
  assert (Hm : Zpos (mq * 7036874417766400) = Zpos mq * 7036874417766400)
    by apply Pos2Z.inj_mul.
  change (Zpos (digits2_pos (mq * 7036874417766400)))
    with (Zdigits2 (Zpos (mq * 7036874417766400))) in Hdlo, Hdhi.
  assert (Hmpos : 0 <= Zpos (mq * 7036874417766400)) by lia.
  revert Hdlo Hdhi Hm Hmpos.
  generalize (Zpos (mq * 7036874417766400)). intros m Hdlo Hdhi Hm Hmpos.
  assert (Hdq : 1 <= Zpos (digits2_pos mq)) by lia.
  revert Hdq Hc Hk Hmq Hdlo Hdhi.
  generalize (Zpos (digits2_pos mq)). intros dq Hdq Hc Hk Hmq Hdlo Hdhi.
  assert (Hpre : eq + -46 <= fexp64 (Zdigits2 m + (eq + -46)))
    by (rewrite fexp64_eq; lia).
  destruct (binary_round_aux_cases false m (eq + -46) loc_Exact Hmpos Hpre ltac:(lia))
    as (m1 & _ & Hhalf & Hcases).
  rewrite shr_h_exact in Hhalf.
  rewrite fexp64_eq in Hhalf, Hcases.
  revert Hhalf Hcases Hdlo Hdhi. generalize (Zdigits2 m).
  intros D Hhalf Hcases Hdlo Hdhi.
  assert (Hlt : Z.max (D + (eq + -46) - 53) (-1074) = -46 -> m1 < 7036874417766400).
  { intros HE46. apply (round_below_hundred dq m1 (Zpos mq)); [lia|lia|].
    replace (Z.max (D + (eq + -46) - 53) (-1074) - (eq + -46)) with dq in Hhalf by lia.
    rewrite Hm in Hhalf. exact Hhalf. }
  assert (HE : Z.max (D + (eq + -46) - 53) (-1074) <= -46) by lia.
  clear Hhalf Hpre Hm Hmq Hc Hk Hdlo Hdhi.
  revert Hcases Hlt HE. generalize (Z.max (D + (eq + -46) - 53) (-1074)).
  intros E Hcases Hlt HE.
  destruct Hcases as [[_ ->]|[(p & Hp & _ & _ & _ & ->)|(Hcarry & _ & ->)]].
  - reflexivity.
  - apply SFleb_100_finite.
    destruct (Z.eq_dec E (-46)) as [H46|]; [right|left; lia].
    split; [assumption|]. specialize (Hlt H46). lia.
  - apply SFleb_100_finite.
    destruct (Z.eq_dec E (-46)) as [H46|].
    + exfalso. specialize (Hlt H46).
      change (2 ^ 53) with 9007199254740992 in Hcarry. lia.
    + destruct (Z.eq_dec (E + 1) (-46)); [right|left; lia]. split; [assumption|lia].
Qed.

Lemma current_percent_below_100 (c_att c_total : Z) :
  valid_counts c_att c_total -> c_att < c_total ->
  exists cp, current_percent_of c_att c_total = Some cp
             /\ float_ge cp f100_0 = false.
Proof.
  intros [Ha Ht] Hlt.
  destruct (int_true_div_lt_one c_att c_total) as (q & Eq & Hb & Hn); [lia|lia|].
  exists (float_mul q f100_0). unfold current_percent_of. rewrite Eq. cbn [bind].
  split; [reflexivity|]. apply percent_below_100; assumption.
Qed.

(** * The loops of the script *)

Lemma range_nil (lo hi : Z) : hi <= lo -> range lo hi = [].
Proof.
  intros H. unfold range. replace (Z.to_nat (hi - lo)) with 0%nat by lia. reflexivity.
Qed.

Lemma range_cons (lo hi : Z) : lo < hi -> range lo hi = lo :: range (lo + 1) hi.
Proof.
  intros H. unfold range.
  replace (Z.to_nat (hi - lo)) with (S (Z.to_nat (hi - (lo + 1)))) by lia.
  cbn [seq map]. f_equal; [lia|].
  rewrite <- seq_shift, map_map. apply map_ext. intros i. lia.
Qed.

Lemma range_first (lo hi a : Z) (l : list Z) :
  range lo hi = a :: l -> lo < hi /\ a = lo /\ l = range (lo + 1) hi.
Proof.
  intros H. destruct (Z_lt_ge_dec lo hi) as [Hlt|Hge].
  - rewrite (range_cons lo hi Hlt) in H. inversion H. subst. repeat split; auto.
  - rewrite range_nil in H by lia. discriminate.
Qed.

Lemma In_range (lo hi x : Z) : In x (range lo hi) <-> lo <= x < hi.
Proof.
  unfold range. rewrite in_map_iff. split.
  - intros (i & <- & Hi). apply in_seq in Hi. lia.
  - intros H. exists (Z.to_nat (x - lo)). split; [lia|]. apply in_seq. lia.
Qed.

Lemma range_split (pre post : list Z) (w : Z) : forall lo hi,
  range lo hi = pre ++ w :: post ->
  lo <= w < hi /\ forall x, lo <= x < w -> In x pre.
Proof.
  induction pre as [|a pre IH]; intros lo hi H; cbn [app] in H;
    apply range_first in H; destruct H as (Hlt & -> & Hrest).
  - split; [lia|]. intros x Hx. lia.
  - symmetry in Hrest. destruct (IH _ _ Hrest) as [Hw Hin].
    split; [lia|]. intros x Hx.
    destruct (Z.eq_dec x lo) as [->|]; [left; reflexivity|right; apply Hin; lia].
Qed.

Section Scan.
Variables (c_att c_total : Z) (R : float).

Lemma missable_scan_inv (xs : list Z) (m w : Z) :
  missable_scan c_att c_total R xs = Some (m, w) ->
  (exists pre post, xs = pre ++ w :: post
     /\ missable_floor c_att c_total R w = Some m /\ 0 <= m
     /\ Forall (no_slack c_att c_total R) pre)
  \/ (m = 0 /\ w = 0 /\ Forall (no_slack c_att c_total R) xs).
Proof.
  induction xs as [|x xs IH]; cbn [missable_scan].
  - intros H. inversion H. right. auto.
  - destruct (missable_floor c_att c_total R x) as [m_int|] eqn:Ex; cbn [bind];
      [|discriminate].
    destruct (Z.leb_spec 0 m_int) as [Hge|Hlt].
    + intros H. inversion H. subst. left. exists [], xs. auto.
    + intros H. assert (Hx : no_slack c_att c_total R x) by (exists m_int; auto).
      destruct (IH H) as [(pre & post & -> & Hw & Hm & Hpre)|(-> & -> & Hall)].
      * left. exists (x :: pre), post. auto.
      * right. auto.
Qed.

Lemma missable_scan_total (xs : list Z) :
  (forall x, In x xs -> exists m_int, missable_floor c_att c_total R x = Some m_int) ->
  exists r, missable_scan c_att c_total R xs = Some r.
Proof.
  induction xs as [|x xs IH]; intros H; cbn [missable_scan].
  - eauto.
  - destruct (H x (or_introl eq_refl)) as (m_int & ->). cbn [bind].
    destruct (0 <=? m_int); [eauto|]. apply IH. intros y Hy. apply H. right. exact Hy.
Qed.

Lemma missable_scan_range (hi m w : Z) :
  missable_scan c_att c_total R (range 1 hi) = Some (m, w) ->
  (1 <= w < hi /\ missable_floor c_att c_total R w = Some m /\ 0 <= m
     /\ forall x, 1 <= x < w -> no_slack c_att c_total R x)
  \/ (m = 0 /\ w = 0 /\ forall x, 1 <= x < hi -> no_slack c_att c_total R x).
Proof.
  intros H.
  destruct (missable_scan_inv _ _ _ H)
    as [(pre & post & E & Hw & Hm & Hpre)|(-> & -> & Hall)].
  - left. destruct (range_split _ _ _ _ _ E) as [Hr Hin].
    repeat split; try assumption; try lia.
    intros x Hx. rewrite Forall_forall in Hpre. apply Hpre, Hin, Hx.
  - right. repeat split. intros x Hx. rewrite Forall_forall in Hall.
    apply Hall, In_range, Hx.
Qed.
End Scan.

(** The value the chart loop appends is the floored value of the search,
    clipped at 0. *)
Lemma missable_entry_floor (c_att c_total : Z) (p_req : float) (x : Z) :
  missable_entry c_att c_total p_req x
  = (m_int <- missable_floor c_att c_total (SFdiv prec emax p_req f100_0) x ;;
     Some (Z.max 0 m_int)).
Proof.
  unfold missable_entry, missable_floor. rewrite float_div_100. cbn [bind].
  destruct (float_of_int (c_total + x)); cbn [bind]; [|reflexivity].
  destruct (float_of_int c_att); cbn [bind]; [|reflexivity].
  destruct (float_of_int x); reflexivity.
Qed.

(** * Arithmetic on integers below 2^53 is exact *)

Lemma Zdigits2_shift (n k : Z) :
  0 < n -> 0 <= k -> Zdigits2 (n * 2 ^ k) = Zdigits2 n + k.
Proof.
  intros Hn Hk. destruct (Zdigits2_bounds n Hn) as [Hlo Hhi].
  pose proof (pow2_pos k Hk) as Hp.
  assert (Hd : 1 <= Zdigits2 n).
  { pose proof (Zdigits2_ge n 0 ltac:(lia)) as X. change (2 ^ 0) with 1 in X. lia. }
  apply Z.le_antisymm.
  - apply Zdigits2_le; [lia|]. rewrite Z.pow_add_r by lia. nia.
  - replace (Zdigits2 n + k) with (Zdigits2 n - 1 + k + 1) by lia.
    apply Zdigits2_ge; [lia|]. rewrite Z.pow_add_r by lia. nia.
Qed.

Lemma round_nearest_even_exact (mrs : shr_record) :
  shr_h mrs = 2 * shr_m mrs ->
  round_nearest_even (shr_m mrs) (loc_of_shr_record mrs) = shr_m mrs.
Proof.
  destruct mrs as [m [] []]; unfold shr_h;
    cbn [shr_m shr_r loc_of_shr_record round_nearest_even]; intros H;
    try reflexivity; lia.
Qed.

(** Rounding [n * 2^(-e) * 2^e] gives the float of [n]. *)
Lemma binary_round_aux_int (s : bool) (m e n : Z) :
  0 < n -> Zdigits2 n <= 53 -> e <= Zdigits2 n - 53 -> m = n * 2 ^ (- e) ->
  binary_round_aux 53 1024 s m e loc_Exact
  = S754_finite s (Z.to_pos (n * 2 ^ (53 - Zdigits2 n))) (Zdigits2 n - 53).
Proof.
  intros Hn Hd He Hm.
  assert (Hd1 : 1 <= Zdigits2 n).
  { pose proof (Zdigits2_ge n 0 ltac:(lia)) as X. change (2 ^ 0) with 1 in X. lia. }
  pose proof (Zdigits2_shift n (- e) Hn ltac:(lia)) as Hdm. rewrite <- Hm in Hdm.
  pose proof (Zdigits2_shift n (53 - Zdigits2 n) Hn ltac:(lia)) as HdM.
  remember (Zdigits2 n) as d eqn:Ed.
  remember (n * 2 ^ (53 - d)) as M eqn:EM.
  pose proof (pow2_pos (- e) ltac:(lia)) as Hpe.
  pose proof (pow2_pos (53 - d) ltac:(lia)) as HpE.
  pose proof (pow2_pos (d - 53 - e) ltac:(lia)) as Hpk.
  assert (Hm0 : 0 < m) by nia.
  assert (HM0 : 0 < M) by nia.
  assert (HmM : m = M * 2 ^ (d - 53 - e)).
  { rewrite Hm, EM, <- Z.mul_assoc, <- Z.pow_add_r by lia. do 2 f_equal. lia. }
  assert (HE : fexp64 (Zdigits2 m + e) = d - 53) by (rewrite Hdm, fexp64_eq; lia).
  unfold binary_round_aux.
  destruct (shr_fexp_spec m e loc_Exact ltac:(lia) ltac:(lia)) as (mrs1 & E1 & Hm1 & Hh1).
  rewrite E1, HE. rewrite HE in Hm1, Hh1.
  rewrite shr_h_exact in Hh1.
  assert (Hm1v : shr_m mrs1 = M).
  { rewrite Hm1, HmM. apply Z.div_mul. lia. }
  assert (Hh1v : shr_h mrs1 = 2 * shr_m mrs1).
  { rewrite Hh1, Hm1v, HmM, Z.mul_assoc. apply Z.div_mul. lia. }
  rewrite (round_nearest_even_exact mrs1 Hh1v), Hm1v.
  assert (HE2 : fexp64 (Zdigits2 M + (d - 53)) = d - 53) by (rewrite HdM, fexp64_eq; lia).
  destruct (shr_fexp_spec M (d - 53) loc_Exact ltac:(lia) ltac:(lia)) as (mrs2 & E2 & Hm2 & _).
  rewrite E2, HE2, Hm2, HE2, Z.sub_diag, Z.div_1_r.
  destruct M as [|p|p]; try lia.
  replace (d - 53 <=? 1024 - 53) with true by (symmetry; apply Z.leb_le; lia).
  reflexivity.
Qed.

Lemma iter_xO_value (mx k : positive) :
  Zpos (Pos.iter xO mx k) = Zpos mx * 2 ^ Zpos k.
Proof.
  induction k as [|k IH] using Pos.peano_ind.
  - cbn [Pos.iter]. lia.
  - rewrite Pos.iter_succ, Pos2Z.inj_succ, Z.pow_succ_r by lia.
    rewrite (Pos2Z.inj_xO (Pos.iter xO mx k)), IH. lia.
Qed.

Lemma shl_align_value (mx : positive) (ex ez : Z) :
  ez <= ex -> Zpos (fst (shl_align mx ex ez)) = Zpos mx * 2 ^ (ex - ez).
Proof.
  intros H. unfold shl_align. destruct (ez - ex) as [|k|k] eqn:Ek; cbn [fst]; try lia.
  - replace (ex - ez) with 0 by lia. lia.
  - rewrite iter_xO_value. f_equal. f_equal. lia.
Qed.

Lemma binary_round_int (s : bool) (mx : positive) (ex n : Z) :
  0 < n -> Zdigits2 n <= 53 -> ex <= 0 -> Zpos mx = n * 2 ^ (- ex) ->
  binary_round 53 1024 s mx ex
  = S754_finite s (Z.to_pos (n * 2 ^ (53 - Zdigits2 n))) (Zdigits2 n - 53).
Proof.
  intros Hn Hd He Hm.
  assert (Hd1 : 1 <= Zdigits2 n).
  { pose proof (Zdigits2_ge n 0 ltac:(lia)) as X. change (2 ^ 0) with 1 in X. lia. }
  pose proof (Zdigits2_shift n (- ex) Hn ltac:(lia)) as Hdm. rewrite <- Hm in Hdm.
  change (Zdigits2 (Zpos mx)) with (Zpos (digits2_pos mx)) in Hdm.
  unfold binary_round. fold (fexp64 (Zpos (digits2_pos mx) + ex)).
  rewrite Hdm. replace (Zdigits2 n + - ex + ex) with (Zdigits2 n) by lia.
  rewrite fexp64_eq. replace (Z.max (Zdigits2 n - 53) (-1074)) with (Zdigits2 n - 53) by lia.
  destruct (Z_le_gt_dec ex (Zdigits2 n - 53)) as [Hle|Hgt].
  - assert (E : shl_align mx ex (Zdigits2 n - 53) = (mx, ex)).
    { unfold shl_align. destruct (Zdigits2 n - 53 - ex) eqn:Ek; try reflexivity. lia. }
    rewrite E. apply binary_round_aux_int; assumption.
  - pose proof (shl_align_value mx ex (Zdigits2 n - 53) ltac:(lia)) as Hv.
    pose proof (shl_align_spec mx ex (Zdigits2 n - 53)) as [Hs _].
    destruct (shl_align mx ex (Zdigits2 n - 53)) as [mz ez]. cbn [fst snd] in Hv, Hs.
    replace ez with (Zdigits2 n - 53) by lia.
    apply binary_round_aux_int; try assumption; try lia.
    rewrite Hv, Hm, <- Z.mul_assoc, <- Z.pow_add_r by lia. do 2 f_equal. lia.
Qed.

Lemma binary_normalize_int (z e : Z) :
  Zdigits2 z <= 53 -> e <= 0 ->
  binary_normalize 53 1024 (z * 2 ^ (- e)) e false = int_float z.
Proof.
  intros Hd He. pose proof (pow2_pos (- e) ltac:(lia)) as Hp.
  destruct z as [|p|p].
  - reflexivity.
  - remember (Zpos p * 2 ^ (- e)) as m eqn:Em.
    destruct m as [|q|q]; try nia.
    unfold binary_normalize, int_float.
    apply (binary_round_int false q e (Zpos p)); try assumption; lia.
  - remember (Zneg p * 2 ^ (- e)) as m eqn:Em.
    destruct m as [|q|q]; try nia.
    unfold binary_normalize, int_float.
    apply (binary_round_int true q e (Zpos p)); try assumption; lia.
Qed.

Lemma int_float_bounded (n : Z) : Zdigits2 n <= 53 -> is_finite (int_float n) = true.
Proof. destruct n; reflexivity. Qed.

Lemma float_of_int_exact (n : Z) :
  Zdigits2 n <= 53 -> float_of_int n = Some (int_float n).
Proof.
  intros Hd. unfold float_of_int.
  pose proof (binary_normalize_int n 0 Hd ltac:(lia)) as H.
  change (2 ^ (- 0)) with 1 in H. rewrite Z.mul_1_r in H.
  unfold prec, emax. rewrite H. unfold checked.
  rewrite (int_float_bounded n Hd). reflexivity.
Qed.

(** The signed mantissa of the float of [n], scaled back, is [n]. *)
Lemma int_float_value (n : Z) :
  n <> 0 -> Zdigits2 n <= 53 ->
  cond_Zopp (n <? 0) (Zpos (Z.to_pos (Z.abs n * 2 ^ (53 - Zdigits2 n))))
  = n * 2 ^ (53 - Zdigits2 n).
Proof.
  intros Hn Hd. pose proof (pow2_pos (53 - Zdigits2 n) ltac:(lia)) as Hp.
  rewrite Z2Pos.id by nia.
  destruct (Z.ltb_spec n 0); cbn [cond_Zopp]; nia.
Qed.

Lemma SFsub_int (a b : Z) :
  Zdigits2 a <= 53 -> Zdigits2 b <= 53 -> Zdigits2 (a - b) <= 53 ->
  float_sub (int_float a) (int_float b) = int_float (a - b).
Proof.
  intros Ha Hb Hab.
  destruct (Z.eq_dec b 0) as [->|Hb0].
  { rewrite Z.sub_0_r. destruct a; reflexivity. }
  destruct (Z.eq_dec a 0) as [->|Ha0].
  { destruct b as [|p|p]; [contradiction|reflexivity|reflexivity]. }
  assert (Hda : 1 <= Zdigits2 a) by (destruct a; [contradiction|cbn; lia|cbn; lia]).
  assert (Hdb : 1 <= Zdigits2 b) by (destruct b; [contradiction|cbn; lia|cbn; lia]).
  pose proof (int_float_value a Ha0 Ha) as Va.
  pose proof (int_float_value b Hb0 Hb) as Vb.
  assert (Ea : int_float a
               = S754_finite (a <? 0)
                   (Z.to_pos (Z.abs a * 2 ^ (53 - Zdigits2 a))) (Zdigits2 a - 53))
    by (destruct a; [contradiction|reflexivity|reflexivity]).
  assert (Eb : int_float b
               = S754_finite (b <? 0)
                   (Z.to_pos (Z.abs b * 2 ^ (53 - Zdigits2 b))) (Zdigits2 b - 53))
    by (destruct b; [contradiction|reflexivity|reflexivity]).
  rewrite Ea, Eb. unfold float_sub, SFsub.
  set (ma := Z.to_pos (Z.abs a * 2 ^ (53 - Zdigits2 a))) in *.
  set (mb := Z.to_pos (Z.abs b * 2 ^ (53 - Zdigits2 b))) in *.
  clearbody ma mb.
  set (ez := Z.min (Zdigits2 a - 53) (Zdigits2 b - 53)).
  rewrite (shl_align_value ma (Zdigits2 a - 53) ez) by (unfold ez; lia).
  rewrite (shl_align_value mb (Zdigits2 b - 53) ez) by (unfold ez; lia).
  assert (Hez : ez <= 0) by (unfold ez; lia).
  assert (Xa : cond_Zopp (a <? 0) (Zpos ma * 2 ^ (Zdigits2 a - 53 - ez))
               = a * 2 ^ (- ez)).
  { transitivity (cond_Zopp (a <? 0) (Zpos ma) * 2 ^ (Zdigits2 a - 53 - ez)).
    - destruct (a <? 0); cbn [cond_Zopp]; lia.
    - rewrite Va, <- Z.mul_assoc, <- Z.pow_add_r by (unfold ez; lia).
      do 2 f_equal. lia. }
  assert (Xb : cond_Zopp (b <? 0) (Zpos mb * 2 ^ (Zdigits2 b - 53 - ez))
               = b * 2 ^ (- ez)).
  { transitivity (cond_Zopp (b <? 0) (Zpos mb) * 2 ^ (Zdigits2 b - 53 - ez)).
    - destruct (b <? 0); cbn [cond_Zopp]; lia.
    - rewrite Vb, <- Z.mul_assoc, <- Z.pow_add_r by (unfold ez; lia).
      do 2 f_equal. lia. }
  rewrite Xa, Xb, <- Z.mul_sub_distr_r.
  apply binary_normalize_int; assumption.
Qed.

Lemma SFmul_one_int (n : Z) :
  Zdigits2 n <= 53 -> float_mul f1_0 (int_float n) = int_float n.
Proof.
  intros Hd. destruct (Z.eq_dec n 0) as [->|Hn]; [reflexivity|].
  assert (Hd1 : 1 <= Zdigits2 n) by (destruct n; [contradiction|cbn; lia|cbn; lia]).
  assert (En : int_float n
               = S754_finite (n <? 0)
                   (Z.to_pos (Z.abs n * 2 ^ (53 - Zdigits2 n))) (Zdigits2 n - 53))
    by (destruct n; [contradiction|reflexivity|reflexivity]).
  rewrite En. unfold float_mul, f1_0, SFmul. cbn [xorb].
  pose proof (pow2_pos (53 - Zdigits2 n) ltac:(lia)) as Hp.
  rewrite <- (Zdigits2_abs n) in *.
  assert (Ha : 0 < Z.abs n) by lia.
  set (a := Z.abs n) in *. clearbody a.
  apply binary_round_aux_int; try assumption; try lia.
  rewrite Pos2Z.inj_mul, Z2Pos.id by nia.
  replace (- (-52 + (Zdigits2 a - 53))) with (53 - Zdigits2 a + 52) by lia.
  rewrite Z.pow_add_r by lia. change (2 ^ 52) with 4503599627370496. lia.
Qed.

Lemma math_floor_int (n : Z) :
  Zdigits2 n <= 53 -> math_floor (int_float n) = Some n.
Proof.
  intros Hd. destruct (Z.eq_dec n 0) as [->|Hn]; [reflexivity|].
  assert (Hd1 : 1 <= Zdigits2 n) by (destruct n; [contradiction|cbn; lia|cbn; lia]).
  assert (En : int_float n
               = S754_finite (n <? 0)
                   (Z.to_pos (Z.abs n * 2 ^ (53 - Zdigits2 n))) (Zdigits2 n - 53))
    by (destruct n; [contradiction|reflexivity|reflexivity]).
  rewrite En. cbn [math_floor]. rewrite (int_float_value n Hn Hd).
  unfold floor_dyadic. f_equal.
  pose proof (pow2_pos (53 - Zdigits2 n) ltac:(lia)) as Hp.
  destruct (Z.leb_spec 0 (Zdigits2 n - 53)) as [H|H].
  - replace (53 - Zdigits2 n) with 0 by lia. replace (Zdigits2 n - 53) with 0 by lia. lia.
  - replace (- (Zdigits2 n - 53)) with (53 - Zdigits2 n) by lia.
    apply Z.div_mul. lia.
Qed.

Lemma Zdigits2_small (n : Z) : - max_count <= n <= max_count -> Zdigits2 n <= 53.
Proof.
  intros H. rewrite <- Zdigits2_abs. apply Zdigits2_le; [lia|].
  unfold max_count in H. change (2 ^ 53) with 9007199254740992. lia.
Qed.

(** * The order on floats *)

Lemma Pos_compare_cont_Eq (a b : positive) :
  Pos.compare_cont Eq a b = (a ?= b)%positive.
Proof. rewrite Pos.compare_cont_spec. destruct (a ?= b)%positive; reflexivity. Qed.

Lemma SFleb_positive (mx my : positive) (ex ey : Z) :
  SFleb (S754_finite false mx ex) (S754_finite false my ey) = true
  <-> ex < ey \/ (ex = ey /\ Zpos mx <= Zpos my).
Proof.
  unfold SFleb. cbn [SFcompare]. rewrite Pos_compare_cont_Eq.
  destruct (Z.compare_spec ex ey) as [E|E|E];
    [destruct (Pos.compare_spec mx my) as [M|M|M]| |];
    split; try discriminate; try reflexivity; try lia.
Qed.

Lemma SFleb_negative (mx my : positive) (ex ey : Z) :
  SFleb (S754_finite true mx ex) (S754_finite true my ey) = true
  <-> ey < ex \/ (ex = ey /\ Zpos my <= Zpos mx).
Proof.
  unfold SFleb. cbn [SFcompare]. rewrite Pos_compare_cont_Eq.
  destruct (Z.compare_spec ex ey) as [E|E|E];
    [destruct (Pos.compare_spec mx my) as [M|M|M]| |];
    cbn [CompOpp]; split; try discriminate; try reflexivity; try lia.
Qed.

Lemma SFleb_trans (x y z : float) :
  SFleb x y = true -> SFleb y z = true -> SFleb x z = true.
Proof.
  destruct x as [sx|sx| |sx mx ex], y as [sy|sy| |sy my ey], z as [sz|sz| |sz mz ez];
    try (destruct sx); try (destruct sy); try (destruct sz);
    try reflexivity; try discriminate; try (intros _ H; discriminate H);
    try (intros H _; discriminate H).
  - rewrite !SFleb_negative. lia.
  - rewrite !SFleb_positive. lia.
Qed.

(** * Correct rounding *)

(** ** Powers of two *)

Lemma bpow_pos (e : Z) : (0 < bpow e)%R.
Proof. apply powerRZ_lt. lra. Qed.

Lemma bpow_add (a b : Z) : bpow (a + b) = (bpow a * bpow b)%R.
Proof. apply powerRZ_add. lra. Qed.

Lemma bpow_IZR (e : Z) : 0 <= e -> bpow e = IZR (2 ^ e).
Proof.
  intros He. unfold bpow. rewrite <- (Z2Nat.id e He) at 1.
  rewrite <- pow_powerRZ, pow_IZR, Z2Nat.id by exact He. reflexivity.
Qed.

Lemma bpow_0 : bpow 0 = 1%R.
Proof. reflexivity. Qed.

Lemma bpow_1 : bpow 1 = 2%R.
Proof. unfold bpow. simpl. lra. Qed.

Lemma bpow_opp (e : Z) : bpow (- e) = (/ bpow e)%R.
Proof.
  pose proof (bpow_pos e) as H. apply Rmult_eq_reg_l with (bpow e); [|lra].
  rewrite <- bpow_add, Z.add_opp_diag_r, bpow_0. field. lra.
Qed.

Lemma bpow_ge_1 (e : Z) : 0 <= e -> (1 <= bpow e)%R.
Proof.
  intros He. rewrite (bpow_IZR e He). apply IZR_le.
  pose proof (pow2_pos e He). lia.
Qed.

Lemma bpow_le (a b : Z) : a <= b -> (bpow a <= bpow b)%R.
Proof.
  intros H. replace b with (a + (b - a)) by lia. rewrite bpow_add.
  pose proof (bpow_pos a). pose proof (bpow_ge_1 (b - a) ltac:(lia)). nra.
Qed.

Lemma bpow_lt (a b : Z) : a < b -> (bpow a < bpow b)%R.
Proof.
  intros H. replace b with (a + 1 + (b - a - 1)) by lia. rewrite !bpow_add.
  pose proof (bpow_pos a). pose proof (bpow_ge_1 (b - a - 1) ltac:(lia)).
  rewrite bpow_1. nra.
Qed.

Lemma bpow_succ (a : Z) : bpow (a + 1) = (2 * bpow a)%R.
Proof. rewrite bpow_add, bpow_1. lra. Qed.

Lemma bpow_cancel (v : R) (a : Z) : (v * bpow (- a) * bpow a)%R = v.
Proof.
  rewrite Rmult_assoc, <- bpow_add. replace (- a + a) with 0 by lia.
  rewrite bpow_0. lra.
Qed.

(** The digits of a positive integer give its binade. *)
Lemma digits_bpow (m : Z) :
  0 < m -> (bpow (Zdigits2 m - 1) <= IZR m < bpow (Zdigits2 m))%R.
Proof.
  intros Hm. destruct (Zdigits2_bounds m Hm) as [Hlo Hhi].
  assert (Hd : 1 <= Zdigits2 m).
  { pose proof (Zdigits2_ge m 0 ltac:(lia)) as X. change (2 ^ 0) with 1 in X. lia. }
  rewrite !bpow_IZR by lia. split; [apply IZR_le|apply IZR_lt]; assumption.
Qed.

(** ** Shift records and the reals they truncate *)

Lemma IZR_xO (p : positive) : IZR (Zpos p~0) = (2 * IZR (Zpos p))%R.
Proof. rewrite (Pos2Z.inj_xO p), mult_IZR. reflexivity. Qed.

Lemma IZR_xI (p : positive) : IZR (Zpos p~1) = (2 * IZR (Zpos p) + 1)%R.
Proof. rewrite (Pos2Z.inj_xI p), plus_IZR, mult_IZR. reflexivity. Qed.

Lemma rec_of_nonneg (t : R) (mrs : shr_record) :
  (0 <= t)%R -> rec_of t mrs -> 0 <= shr_m mrs.
Proof.
  intros Ht [[Hlo Hhi] _]. apply Z.lt_succ_r. apply lt_IZR.
  unfold Z.succ. rewrite plus_IZR. lra.
Qed.

Lemma shr_1_rec (t : R) (mrs : shr_record) :
  (0 <= t)%R -> rec_of t mrs -> rec_of (t * / 2) (shr_1 mrs).
Proof.
  intros Ht H. pose proof (rec_of_nonneg t mrs Ht H) as Hm.
  destruct mrs as [m r s]. cbn [shr_m] in Hm.
  destruct m as [|p|p]; [| |lia].
  - destruct H as [Hb Hl]. cbn [shr_m shr_r shr_s] in Hb, Hl.
    destruct r, s; unfold rec_of; cbn [shr_1 orb shr_m shr_r shr_s];
      split; lra.
  - destruct H as [Hb Hl]. cbn [shr_m shr_r shr_s] in Hb, Hl.
    destruct p as [p|p|].
    + rewrite IZR_xI in Hb, Hl.
      destruct r, s; unfold rec_of; cbn [shr_1 orb shr_m shr_r shr_s];
        split; lra.
    + rewrite IZR_xO in Hb, Hl.
      destruct r, s; unfold rec_of; cbn [shr_1 orb shr_m shr_r shr_s];
        split; lra.
    + destruct r, s; unfold rec_of; cbn [shr_1 orb shr_m shr_r shr_s];
        split; lra.
Qed.

Lemma iter_shr_1_rec (n : positive) : forall (t : R) (mrs : shr_record),
  (0 <= t)%R -> rec_of t mrs ->
  rec_of (t * bpow (- Zpos n)) (SpecFloat.iter_pos shr_1 n mrs).
Proof.
  assert (Hhalf : forall t, (0 <= t)%R -> forall k, (0 <= t * bpow k)%R).
  { intros t Ht k. pose proof (bpow_pos k). nra. }
  assert (H1 : bpow (- 1) = (/ 2)%R) by (unfold bpow; simpl; f_equal; lra).
  induction n as [n IH|n IH|]; intros t mrs Ht H; cbn [SpecFloat.iter_pos].
  - replace (- Zpos n~1) with (- 1 + - Zpos n + - Zpos n) by lia.
    rewrite !bpow_add, H1, <- !Rmult_assoc.
    apply IH; [apply Hhalf; lra|]. apply IH; [lra|]. apply shr_1_rec; assumption.
  - replace (- Zpos n~0) with (- Zpos n + - Zpos n) by lia.
    rewrite !bpow_add, <- !Rmult_assoc.
    apply IH; [apply Hhalf; lra|]. apply IH; assumption.
  - replace (bpow (- Zpos 1)) with (/ 2)%R by (symmetry; exact H1).
    apply shr_1_rec; assumption.
Qed.

Lemma shr_fexp_rec (m e : Z) (l : location) (t : R) :
  (0 <= t)%R -> e <= fexp64 (Zdigits2 m + e) ->
  rec_of t (shr_record_of_loc m l) ->
  exists mrs, shr_fexp 53 1024 m e l = (mrs, fexp64 (Zdigits2 m + e))
              /\ rec_of (t * bpow (e - fexp64 (Zdigits2 m + e))) mrs.
Proof.
  intros Ht He H. unfold shr_fexp, shr. fold (fexp64 (Zdigits2 m + e)).
  destruct (fexp64 (Zdigits2 m + e) - e) as [|n|n] eqn:En; try lia.
  - eexists. split; [f_equal; lia|].
    replace (e - fexp64 (Zdigits2 m + e)) with 0 by lia.
    rewrite bpow_0, Rmult_1_r. exact H.
  - eexists. split; [f_equal; lia|].
    replace (e - fexp64 (Zdigits2 m + e)) with (- Zpos n) by lia.
    apply iter_shr_1_rec; assumption.
Qed.

Lemma rne_of_rec (t : R) (mrs : shr_record) :
  rec_of t mrs ->
  rne t (round_nearest_even (shr_m mrs) (loc_of_shr_record mrs)).
Proof.
  destruct mrs as [m r s]. intros [Hb Hl]. cbn [shr_m shr_r shr_s] in Hb, Hl.
  destruct r, s; cbn [shr_m loc_of_shr_record round_nearest_even]; unfold rne.
  - rewrite plus_IZR. split; [lra|]. intros [E|E]; exfalso; lra.
  - destruct (Z.even m) eqn:Ev.
    + split; [lra|]. intros _. exact Ev.
    + rewrite plus_IZR. split; [lra|]. intros _.
      change (m + 1) with (Z.succ m). rewrite Z.even_succ, <- Z.negb_even, Ev.
      reflexivity.
  - split; [lra|]. intros [E|E]; exfalso; lra.
  - split; [lra|]. intros [E|E]; exfalso; lra.
Qed.

Lemma rec_of_exact (m : Z) : rec_of (IZR m) (shr_record_of_loc m loc_Exact).
Proof. unfold rec_of. cbn. split; lra. Qed.

(** ** The rounding of [binary_round_aux] is to nearest, ties to even *)

Lemma cond_Zopp_IZR (s : bool) (n : Z) :
  IZR (cond_Zopp s n) = (if s then - IZR n else IZR n)%R.
Proof. destruct s; cbn [cond_Zopp]; [apply opp_IZR|reflexivity]. Qed.

Lemma binary_round_aux_rounds (s : bool) (m e : Z) (l : location) (v : R) :
  0 <= m -> e <= fexp64 (Zdigits2 m + e) -> Zdigits2 m + e <= 1023 ->
  (0 <= v)%R -> rec_of (v * bpow (- e)) (shr_record_of_loc m l) ->
  good (binary_round_aux 53 1024 s m e l)
  /\ exists n,
       rounds_pos v n (fexp64 (Zdigits2 m + e))
       /\ F2R (binary_round_aux 53 1024 s m e l)
          = (IZR (cond_Zopp s n) * bpow (fexp64 (Zdigits2 m + e)))%R.
Proof.
  intros Hm He Hk Hv Hrec.
  assert (Ht : (0 <= v * bpow (- e))%R) by (pose proof (bpow_pos (- e)); nra).
  destruct (shr_fexp_rec m e l _ Ht He Hrec) as (mrs & Eshr & Hrec1).
  destruct (shr_fexp_spec m e l Hm He) as (mrs' & Eshr' & Hm1 & _).
  rewrite Eshr in Eshr'. injection Eshr' as <-.
  rewrite Rmult_assoc, <- bpow_add in Hrec1.
  replace (- e + (e - fexp64 (Zdigits2 m + e)))
    with (- fexp64 (Zdigits2 m + e)) in Hrec1 by lia.
  pose proof (rne_of_rec _ _ Hrec1) as Hrne.
  pose proof (binary_round_aux_at s m e l mrs Hm He Hk Eshr Hm1) as Hcases.
  set (E := fexp64 (Zdigits2 m + e)) in *.
  assert (HE : E = Z.max (Zdigits2 m + e - 53) (-1074)) by reflexivity.
  set (n := round_nearest_even (shr_m mrs) (loc_of_shr_record mrs)) in *.
  assert (Hpos : rounds_pos v n E).
  { split; [exact Hrne|]. split; [lia|]. destruct Hrec as [[Hlo Hhi] _].
    rewrite shr_record_of_loc_m in Hlo, Hhi.
    pose proof (bpow_cancel v e) as Hc. pose proof (bpow_pos e) as Hpe.
    destruct (Z.eq_dec m 0) as [->|Hm0].
    - cbn [Zdigits2] in HE. assert (E = -1074) by lia. assert (e <= -1074) by lia.
      split; [|right; assumption].
      assert (v < bpow e)%R by nra.
      pose proof (bpow_le e (E + 53) ltac:(lia)). lra.
    - destruct (digits_bpow m ltac:(lia)) as [Dlo Dhi].
      assert (Dhi' : (IZR m + 1 <= bpow (Zdigits2 m))%R).
      { pose proof (Zdigits2_nonneg m). rewrite bpow_IZR by assumption.
        rewrite <- plus_IZR. apply IZR_le.
        destruct (Zdigits2_bounds m ltac:(lia)). lia. }
      split.
      + assert (v < bpow (Zdigits2 m) * bpow e)%R by nra.
        rewrite <- bpow_add in H.
        pose proof (bpow_le (Zdigits2 m + e) (E + 53) ltac:(lia)). lra.
      + destruct (Z.eq_dec E (-1074)) as [|HE']; [right; assumption|left].
        assert (E + 52 = Zdigits2 m - 1 + e) as -> by lia.
        rewrite bpow_add. nra. }
  clearbody n.
  destruct Hcases as [[Hn ->]|[(p & Hn & _ & Hc & _ & ->)|(Hn & HEd & ->)]].
  - split; [exact I|]. exists n. split; [assumption|].
    rewrite Hn. cbn [F2R]. destruct s; cbn [cond_Zopp]; simpl; lra.
  - split; [exact Hc|]. exists n. split; [assumption|]. rewrite Hn. reflexivity.
  - split.
    + cbn [good]. change (Zpos (digits2_pos 4503599627370496)) with 53.
      rewrite fexp64_eq. lia.
    + exists n. split; [assumption|]. rewrite Hn. cbn [F2R].
      rewrite bpow_succ, !cond_Zopp_IZR.
      change (2 ^ 53) with (2 * 4503599627370496). rewrite mult_IZR.
      destruct s; lra.
Qed.

(** ** Rounding is monotone *)

Lemma rne_ge_int (t : R) (n k : Z) : rne t n -> (IZR k <= t)%R -> k <= n.
Proof.
  intros [[_ Hhi] _] Hk. apply Z.lt_succ_r. apply lt_IZR.
  unfold Z.succ. rewrite plus_IZR. lra.
Qed.

Lemma rne_le_int (t : R) (n k : Z) : rne t n -> (t <= IZR k)%R -> n <= k.
Proof.
  intros [[Hlo _] _] Hk. apply Z.lt_succ_r. apply lt_IZR.
  unfold Z.succ. rewrite plus_IZR. lra.
Qed.

Lemma rne_mono (t1 t2 : R) (n1 n2 : Z) :
  rne t1 n1 -> rne t2 n2 -> (t1 <= t2)%R -> n1 <= n2.
Proof.
  intros [[L1 H1] T1] [[L2 H2] T2] Ht.
  destruct (Z_le_gt_dec n1 n2) as [|Hgt]; [assumption|exfalso].
  assert (Hs : (IZR n2 + 1 <= IZR n1)%R).
  { rewrite <- plus_IZR. apply IZR_le. lia. }
  assert (E1 : t1 = (IZR n1 - / 2)%R) by lra.
  assert (E2 : t2 = (IZR n2 + / 2)%R) by lra.
  assert (En : n1 = n2 + 1).
  { apply eq_IZR. rewrite plus_IZR. lra. }
  pose proof (T1 (or_introl E1)) as Ev1. pose proof (T2 (or_intror E2)) as Ev2.
  rewrite En in Ev1. change (n2 + 1) with (Z.succ n2) in Ev1.
  rewrite Z.even_succ, <- Z.negb_even, Ev2 in Ev1. discriminate.
Qed.

Lemma rne_int (n k : Z) : rne (IZR k) n -> n = k.
Proof.
  intros H. apply Z.le_antisymm.
  - apply (rne_le_int _ _ _ H). lra.
  - apply (rne_ge_int _ _ _ H). lra.
Qed.

Lemma rne_of_int (k : Z) : rne (IZR k) k.
Proof. split; [lra|]. intros [E|E]; exfalso; lra. Qed.

Lemma rounds_pos_nonneg (v : R) (n E : Z) :
  (0 <= v)%R -> rounds_pos v n E -> 0 <= n.
Proof.
  intros Hv (Hr & _). apply (rne_ge_int _ _ 0 Hr).
  pose proof (bpow_pos (- E)). nra.
Qed.

Lemma rounds_pos_zero (v : R) (n E : Z) : v = 0%R -> rounds_pos v n E -> n = 0.
Proof.
  intros -> (Hr & _). rewrite Rmult_0_l in Hr. apply (rne_int n 0 Hr).
Qed.

Lemma rounds_pos_mantissa (v : R) (n E : Z) :
  rounds_pos v n E -> n <= 2 ^ 53 /\ ((bpow (E + 52) <= v)%R -> 2 ^ 52 <= n).
Proof.
  intros (Hr & HE & Hhi & Hlo). pose proof (bpow_pos (- E)) as Hp. split.
  - apply (rne_le_int _ _ _ Hr). rewrite <- (bpow_IZR 53) by lia.
    replace 53 with ((E + 53) + - E) by lia. rewrite bpow_add. nra.
  - intros Hv. apply (rne_ge_int _ _ _ Hr). rewrite <- (bpow_IZR 52) by lia.
    replace 52 with ((E + 52) + - E) by lia. rewrite bpow_add. nra.
Qed.

Lemma rounds_pos_mono (v1 v2 : R) (n1 n2 E1 E2 : Z) :
  rounds_pos v1 n1 E1 -> rounds_pos v2 n2 E2 -> (0 <= v1 <= v2)%R ->
  (IZR n1 * bpow E1 <= IZR n2 * bpow E2)%R.
Proof.
  intros H1 H2 Hv.
  pose proof (rounds_pos_mantissa _ _ _ H1) as [Hn1 _].
  pose proof (rounds_pos_mantissa _ _ _ H2) as [_ Hn2].
  destruct H1 as (R1 & HE1 & Hhi1 & Hlo1). destruct H2 as (R2 & HE2 & Hhi2 & Hlo2).
  destruct (Z.lt_trichotomy E1 E2) as [Hlt|[->|Hgt]].
  - destruct Hlo2 as [Hlo2|]; [|lia]. specialize (Hn2 Hlo2).
    apply Rle_trans with (bpow (E1 + 53)).
    + rewrite Z.add_comm, bpow_add, (bpow_IZR 53) by lia.
      pose proof (bpow_pos E1). apply Rmult_le_compat_r; [lra|]. apply IZR_le, Hn1.
    + apply Rle_trans with (bpow (E2 + 52)); [apply bpow_le; lia|].
      rewrite (Z.add_comm E2), bpow_add, (bpow_IZR 52) by lia.
      pose proof (bpow_pos E2). apply Rmult_le_compat_r; [lra|]. apply IZR_le, Hn2.
  - pose proof (bpow_pos E2). pose proof (bpow_pos (- E2)).
    apply Rmult_le_compat_r; [lra|]. apply IZR_le.
    apply (rne_mono _ _ _ _ R1 R2). nra.
  - exfalso. destruct Hlo1 as [Hlo1|]; [|lia].
    pose proof (bpow_le (E2 + 53) (E1 + 52) ltac:(lia)). lra.
Qed.

Lemma rounds_mono (v1 v2 : R) (r1 r2 : float) :
  rounds v1 r1 -> rounds v2 r2 -> (v1 <= v2)%R -> (F2R r1 <= F2R r2)%R.
Proof.
  intros [_ H1] [_ H2] Hv.
  assert (Hnn : forall v n E, (0 <= v)%R -> rounds_pos v n E ->
                              (0 <= IZR n * bpow E)%R).
  { intros v n E Hv0 Hr. pose proof (rounds_pos_nonneg v n E Hv0 Hr) as Hn.
    apply IZR_le in Hn. pose proof (bpow_pos E). nra. }
  destruct H1 as [(P1 & n1 & E1 & R1 & ->)|(P1 & n1 & E1 & R1 & ->)];
    destruct H2 as [(P2 & n2 & E2 & R2 & ->)|(P2 & n2 & E2 & R2 & ->)].
  - apply (rounds_pos_mono v1 v2); try assumption. lra.
  - assert (Z1 : n1 = 0).
    { apply (rounds_pos_zero v1 n1 E1); [lra|assumption]. }
    assert (Z2 : n2 = 0).
    { apply (rounds_pos_zero (- v2) n2 E2); [lra|assumption]. }
    subst. lra.
  - pose proof (Hnn (- v1)%R n1 E1 ltac:(lra) R1).
    pose proof (Hnn v2 n2 E2 ltac:(lra) R2). lra.
  - pose proof (rounds_pos_mono (- v2) (- v1) n2 n1 E2 E1 R2 R1 ltac:(lra)). lra.
Qed.

Lemma rounds_unique (v : R) (r1 r2 : float) :
  rounds v r1 -> rounds v r2 -> F2R r1 = F2R r2.
Proof.
  intros H1 H2. apply Rle_antisym; eapply rounds_mono; eauto; lra.
Qed.

(** ** Canonical floats: value and order *)

Lemma good_finite (s : bool) (m : positive) (e : Z) :
  good (S754_finite s m e) ->
  -1074 <= e /\ (IZR (Zpos m) < bpow 53)%R
  /\ (-1074 < e -> (bpow 52 <= IZR (Zpos m))%R).
Proof.
  cbn [good]. rewrite fexp64_eq. intros H.
  destruct (digits_bpow (Zpos m) ltac:(lia)) as [Dlo Dhi].
  cbn [Zdigits2] in Dlo, Dhi.
  split; [lia|]. split.
  - pose proof (bpow_le (Zpos (digits2_pos m)) 53 ltac:(lia)). lra.
  - intros He. replace 52 with (Zpos (digits2_pos m) - 1) by lia. exact Dlo.
Qed.

Lemma F2R_finite (s : bool) (m : positive) (e : Z) :
  F2R (S754_finite s m e)
  = (if s then - (IZR (Zpos m) * bpow e) else IZR (Zpos m) * bpow e)%R.
Proof. cbn [F2R]. rewrite cond_Zopp_IZR. destruct s; lra. Qed.

Lemma IZR_pos_gt_0 (m : positive) : (0 < IZR (Zpos m))%R.
Proof. apply IZR_lt. lia. Qed.

Lemma good_rounds_pos (s : bool) (m : positive) (e : Z) :
  good (S754_finite s m e) ->
  rounds_pos (IZR (Zpos m) * bpow e) (Zpos m) e.
Proof.
  intros H. destruct (good_finite s m e H) as (He & Hhi & Hlo).
  pose proof (bpow_pos e) as Hp. split; [|split; [exact He|split]].
  - rewrite Rmult_assoc, <- bpow_add, Z.add_opp_diag_r, bpow_0, Rmult_1_r.
    apply rne_of_int.
  - rewrite Z.add_comm, bpow_add. nra.
  - destruct (Z.eq_dec e (-1074)) as [|Hne]; [right; assumption|left].
    rewrite Z.add_comm, bpow_add. specialize (Hlo ltac:(lia)). nra.
Qed.

Lemma rounds_pos_0 : rounds_pos 0 0 (-1074).
Proof.
  split; [rewrite Rmult_0_l; apply rne_of_int|]. split; [lia|].
  split; [apply bpow_pos|right; reflexivity].
Qed.

(** A canonical float is the rounding of its own value. *)
Lemma good_rounds (x : float) : good x -> rounds (F2R x) x.
Proof.
  intros H. split; [exact H|].
  destruct x as [s|s| |s m e]; cbn [good] in H; try contradiction.
  - left. cbn [F2R]. split; [lra|]. exists 0, (-1074).
    split; [apply rounds_pos_0|lra].
  - pose proof (good_rounds_pos s m e H) as Hr.
    pose proof (IZR_pos_gt_0 m). pose proof (bpow_pos e).
    rewrite F2R_finite. destruct s.
    + right. split; [nra|]. exists (Zpos m), e. rewrite Ropp_involutive. auto.
    + left. split; [nra|]. exists (Zpos m), e. auto.
Qed.

Lemma lex_value_lt (sx sy : bool) (mx my : positive) (ex ey : Z) :
  good (S754_finite sx mx ex) -> good (S754_finite sy my ey) ->
  ex < ey \/ (ex = ey /\ (mx < my)%positive) ->
  (IZR (Zpos mx) * bpow ex < IZR (Zpos my) * bpow ey)%R.
Proof.
  intros Hx Hy H.
  destruct (good_finite _ _ _ Hx) as (Hex & Hxhi & _).
  destruct (good_finite _ _ _ Hy) as (_ & _ & Hylo).
  pose proof (bpow_pos ex). pose proof (bpow_pos ey).
  destruct H as [Hlt|[-> Hm]].
  - specialize (Hylo ltac:(lia)).
    apply Rlt_le_trans with (bpow (53 + ex)); [rewrite bpow_add; nra|].
    apply Rle_trans with (bpow (52 + ey)); [apply bpow_le; lia|].
    rewrite bpow_add. nra.
  - apply Rmult_lt_compat_r; [assumption|]. apply IZR_lt. lia.
Qed.

Lemma SFcompare_F2R (x y : float) :
  good x -> good y ->
  match SFcompare x y with
  | Some Lt => (F2R x < F2R y)%R
  | Some Eq => F2R x = F2R y
  | Some Gt => (F2R y < F2R x)%R
  | None => False
  end.
Proof.
  intros Hx Hy.
  destruct x as [sx|sx| |sx mx ex]; cbn [good] in Hx; try contradiction;
    destruct y as [sy|sy| |sy my ey]; cbn [good] in Hy; try contradiction.
  - reflexivity.
  - cbn [SFcompare]. rewrite F2R_finite. cbn [F2R].
    pose proof (IZR_pos_gt_0 my). pose proof (bpow_pos ey). destruct sy; nra.
  - cbn [SFcompare]. rewrite F2R_finite. cbn [F2R].
    pose proof (IZR_pos_gt_0 mx). pose proof (bpow_pos ex). destruct sx; nra.
  - pose proof (IZR_pos_gt_0 mx). pose proof (bpow_pos ex).
    pose proof (IZR_pos_gt_0 my). pose proof (bpow_pos ey).
    cbn [SFcompare]. rewrite !F2R_finite.
    assert (Hlex : forall c, Pos.compare_cont Eq mx my = c ->
              match c with
              | Lt => (mx < my)%positive | Eq => mx = my | Gt => (my < mx)%positive
              end).
    { intros c <-. rewrite Pos_compare_cont_Eq.
      destruct (Pos.compare_spec mx my); assumption. }
    destruct sx, sy; try nra.
    + destruct (Z.compare_spec ex ey) as [->|Hlt|Hgt].
      * specialize (Hlex _ eq_refl).
        destruct (Pos.compare_cont Eq mx my); cbn [CompOpp].
        -- subst. reflexivity.
        -- pose proof (lex_value_lt true true mx my ey ey Hx Hy ltac:(auto)). lra.
        -- pose proof (lex_value_lt true true my mx ey ey Hy Hx ltac:(auto)). lra.
      * pose proof (lex_value_lt true true mx my ex ey Hx Hy ltac:(auto)). lra.
      * pose proof (lex_value_lt true true my mx ey ex Hy Hx ltac:(auto)). lra.
    + destruct (Z.compare_spec ex ey) as [->|Hlt|Hgt].
      * specialize (Hlex _ eq_refl).
        destruct (Pos.compare_cont Eq mx my).
        -- subst. reflexivity.
        -- exact (lex_value_lt false false mx my ey ey Hx Hy ltac:(auto)).
        -- exact (lex_value_lt false false my mx ey ey Hy Hx ltac:(auto)).
      * exact (lex_value_lt false false mx my ex ey Hx Hy ltac:(auto)).
      * exact (lex_value_lt false false my mx ey ex Hy Hx ltac:(auto)).
Qed.

Lemma SFleb_F2R (x y : float) :
  good x -> good y -> (SFleb x y = true <-> (F2R x <= F2R y)%R).
Proof.
  intros Hx Hy. pose proof (SFcompare_F2R x y Hx Hy) as H. unfold SFleb.
  destruct (SFcompare x y) as [[| |]|]; split; intros X;
    try reflexivity; try discriminate; try lra; contradiction.
Qed.


Lemma SFeqb_F2R (x y : float) :
  good x -> good y -> (SFeqb x y = true <-> F2R x = F2R y).
Proof.
  intros Hx Hy. pose proof (SFcompare_F2R x y Hx Hy) as H. unfold SFeqb.
  destruct (SFcompare x y) as [[| |]|]; split; intros X;
    try reflexivity; try discriminate; try lra; contradiction.
Qed.

Lemma bounded_mag_good (k : Z) (x : float) : bounded_mag k x -> good x.
Proof. destruct x; cbn; tauto. Qed.

(** Rounded values are ordered as floats like the reals they round. *)
Lemma rounds_leb (v1 v2 : R) (r1 r2 : float) :
  rounds v1 r1 -> rounds v2 r2 -> (v1 <= v2)%R -> SFleb r1 r2 = true.
Proof.
  intros H1 H2 Hv. apply SFleb_F2R; [apply H1|apply H2|].
  apply (rounds_mono v1 v2); assumption.
Qed.

(** ** The operations round the exact result *)

Lemma rounds_zero (s : bool) : rounds 0 (S754_zero s).
Proof.
  split; [exact I|]. left. split; [lra|]. exists 0, (-1074).
  split; [apply rounds_pos_0|cbn [F2R]; lra].
Qed.

Lemma rounds_of_signed (s : bool) (v : R) (r : float) (n E : Z) :
  good r -> (0 <= v)%R -> rounds_pos v n E ->
  F2R r = (IZR (cond_Zopp s n) * bpow E)%R ->
  rounds (if s then - v else v)%R r.
Proof.
  intros Hg Hv Hr HF. split; [exact Hg|]. rewrite cond_Zopp_IZR in HF.
  destruct s.
  - right. split; [lra|]. exists n, E. rewrite Ropp_involutive.
    split; [assumption|]. rewrite HF. lra.
  - left. split; [assumption|]. exists n, E. auto.
Qed.

Lemma binary_round_aux_exact_rounds (s : bool) (m : positive) (e : Z) :
  e <= fexp64 (Zpos (digits2_pos m) + e) -> Zpos (digits2_pos m) + e <= 1023 ->
  rounds (if s then - (IZR (Zpos m) * bpow e) else IZR (Zpos m) * bpow e)%R
         (binary_round_aux 53 1024 s (Zpos m) e loc_Exact).
Proof.
  intros He Hk.
  pose proof (IZR_pos_gt_0 m) as Hm. pose proof (bpow_pos e) as Hp.
  destruct (binary_round_aux_rounds s (Zpos m) e loc_Exact
              (IZR (Zpos m) * bpow e)%R) as (Hg & n & Hr & HF);
    try assumption; try lia; [nra| |].
  - rewrite Rmult_assoc, <- bpow_add, Z.add_opp_diag_r, bpow_0, Rmult_1_r.
    apply rec_of_exact.
  - apply (rounds_of_signed s _ _ n (fexp64 (Zdigits2 (Zpos m) + e)) Hg);
      [nra|exact Hr|exact HF].
Qed.

Lemma SFmul_rounds (x y : float) (k1 k2 : Z) :
  bounded_mag k1 x -> bounded_mag k2 y -> k1 + k2 <= 1023 ->
  rounds (F2R x * F2R y) (float_mul x y).
Proof.
  unfold float_mul.
  destruct x as [sx|sx| |sx mx ex], y as [sy|sy| |sy my ey];
    cbn [bounded_mag SFmul]; try tauto.
  - intros _ _ _. cbn [F2R]. rewrite Rmult_0_l. apply rounds_zero.
  - intros _ _ _. cbn [F2R]. rewrite Rmult_0_l. apply rounds_zero.
  - intros _ _ _. cbn [F2R]. rewrite Rmult_0_r. apply rounds_zero.
  - intros [Hcx Hkx] [Hcy Hky] Hk.
    pose proof (Zdigits2_mul mx my) as [Hlo Hhi].
    rewrite fexp64_eq in Hcx, Hcy.
    pose proof (binary_round_aux_exact_rounds (xorb sx sy) (mx * my) (ex + ey)) as H.
    rewrite fexp64_eq in H. specialize (H ltac:(lia) ltac:(lia)).
    rewrite !F2R_finite.
    replace (if xorb sx sy
             then (- (IZR (Zpos (mx * my)) * bpow (ex + ey)))%R
             else (IZR (Zpos (mx * my)) * bpow (ex + ey))%R)
      with ((if sx then - (IZR (Zpos mx) * bpow ex) else IZR (Zpos mx) * bpow ex)
            * (if sy then - (IZR (Zpos my) * bpow ey) else IZR (Zpos my) * bpow ey))%R
      in H; [exact H|].
    rewrite Pos2Z.inj_mul, mult_IZR, bpow_add. destruct sx, sy; cbn [xorb]; ring.
Qed.

Lemma shl_align_F2R (mx : positive) (ex ez : Z) :
  ez <= ex ->
  (IZR (Zpos (fst (shl_align mx ex ez))) * bpow ez)%R = (IZR (Zpos mx) * bpow ex)%R.
Proof.
  intros H. rewrite (shl_align_value mx ex ez H), mult_IZR.
  rewrite <- (bpow_IZR (ex - ez)) by lia.
  rewrite Rmult_assoc, <- bpow_add. do 2 f_equal. lia.
Qed.

Lemma binary_round_rounds (s : bool) (m : positive) (e : Z) :
  Zpos (digits2_pos m) + e <= 1023 ->
  rounds (if s then - (IZR (Zpos m) * bpow e) else IZR (Zpos m) * bpow e)%R
         (binary_round 53 1024 s m e).
Proof.
  intros Hk. unfold binary_round. fold (fexp64 (Zpos (digits2_pos m) + e)).
  pose proof (shl_align_spec m e (fexp64 (Zpos (digits2_pos m) + e))) as [Hs Hd].
  destruct (Z_le_gt_dec e (fexp64 (Zpos (digits2_pos m) + e))) as [Hle|Hgt].
  - assert (E : shl_align m e (fexp64 (Zpos (digits2_pos m) + e)) = (m, e)).
    { unfold shl_align.
      destruct (fexp64 (Zpos (digits2_pos m) + e) - e) eqn:Ek; try reflexivity. lia. }
    rewrite E. apply binary_round_aux_exact_rounds; assumption.
  - pose proof (shl_align_F2R m e (fexp64 (Zpos (digits2_pos m) + e)) ltac:(lia)) as Hv.
    destruct (shl_align m e (fexp64 (Zpos (digits2_pos m) + e))) as [mz ez].
    cbn [fst snd] in Hs, Hd, Hv.
    assert (Ez : ez = fexp64 (Zpos (digits2_pos m) + e)) by lia.
    rewrite <- Ez in Hv. rewrite <- Hv.
    apply binary_round_aux_exact_rounds; rewrite Hd; lia.
Qed.

Lemma binary_normalize_rounds (z e : Z) :
  Zdigits2 z + e <= 1023 ->
  rounds (IZR z * bpow e) (binary_normalize 53 1024 z e false).
Proof.
  intros Hk. destruct z as [|p|p]; cbn [binary_normalize].
  - rewrite Rmult_0_l. apply rounds_zero.
  - apply (binary_round_rounds false p e Hk).
  - replace (IZR (Zneg p) * bpow e)%R with (- (IZR (Zpos p) * bpow e))%R.
    + apply (binary_round_rounds true p e Hk).
    + change (Zneg p) with (- Zpos p). rewrite opp_IZR. ring.
Qed.

Lemma SFsub_rounds (x y : float) (k : Z) :
  bounded_mag k x -> bounded_mag k y -> k <= 1022 ->
  rounds (F2R x - F2R y) (float_sub x y).
Proof.
  unfold float_sub.
  destruct x as [sx|sx| |sx mx ex], y as [sy|sy| |sy my ey];
    cbn [bounded_mag SFsub]; try tauto.
  - intros _ _ _. cbn [F2R]. rewrite Rminus_0_r.
    destruct sx, sy; apply rounds_zero.
  - intros _ [Hc _] _.
    replace (F2R (S754_zero sx) - F2R (S754_finite sy my ey))%R
      with (F2R (S754_finite (negb sy) my ey)).
    + apply good_rounds. exact Hc.
    + rewrite !F2R_finite. cbn [F2R]. destruct sy; cbn [negb]; ring.
  - intros [Hc _] _ _. cbn [F2R]. rewrite Rminus_0_r.
    apply (good_rounds (S754_finite sx mx ex)). exact Hc.
  - intros [Hcx Hkx] [Hcy Hky] Hkr.
    pose proof (shl_align_spec mx ex (Z.min ex ey)) as [Hsx Hdx].
    pose proof (shl_align_spec my ey (Z.min ex ey)) as [Hsy Hdy].
    pose proof (shl_align_F2R mx ex (Z.min ex ey) ltac:(lia)) as Vx.
    pose proof (shl_align_F2R my ey (Z.min ex ey) ltac:(lia)) as Vy.
    pose proof (Zdigits2_sum (fst (shl_align mx ex (Z.min ex ey)))
                  (fst (shl_align my ey (Z.min ex ey))) sx sy (k - Z.min ex ey)
                  ltac:(lia) ltac:(lia)) as Hd.
    set (mx' := fst (shl_align mx ex (Z.min ex ey))) in *.
    set (my' := fst (shl_align my ey (Z.min ex ey))) in *.
    pose proof (binary_normalize_rounds
                  (cond_Zopp sx (Zpos mx') - cond_Zopp sy (Zpos my'))
                  (Z.min ex ey) ltac:(lia)) as H.
    replace (F2R (S754_finite sx mx ex) - F2R (S754_finite sy my ey))%R
      with (IZR (cond_Zopp sx (Zpos mx') - cond_Zopp sy (Zpos my'))
            * bpow (Z.min ex ey))%R; [exact H|].
    rewrite minus_IZR, !cond_Zopp_IZR, !F2R_finite.
    destruct sx, sy; lra.
Qed.

(** ** Division *)

Lemma new_location_rec (q r m2 : Z) :
  0 <= r < m2 ->
  rec_of (IZR q + IZR r / IZR m2) (shr_record_of_loc q (new_location m2 r)).
Proof.
  intros Hr.
  assert (Hm2 : (0 < IZR m2)%R) by (apply IZR_lt; lia).
  assert (Hr0 : (0 <= IZR r)%R) by (apply IZR_le; lia).
  assert (Hrm : (IZR r < IZR m2)%R) by (apply IZR_lt; lia).
  assert (Hfr : (0 <= IZR r / IZR m2 < 1)%R).
  { split.
    - apply Rmult_le_pos; [assumption|]. apply Rlt_le, Rinv_0_lt_compat. assumption.
    - apply Rmult_lt_reg_r with (IZR m2); [assumption|].
      unfold Rdiv. rewrite Rmult_assoc, Rinv_l by lra. lra. }
  assert (Hhalf : forall c, (2 * r ?= m2) = c ->
            match c with
            | Lt => (IZR r / IZR m2 < / 2)%R
            | Eq => (IZR r / IZR m2 = / 2)%R
            | Gt => (/ 2 < IZR r / IZR m2)%R
            end).
  { intros c <-. destruct (Z.compare_spec (2 * r) m2) as [E|E|E].
    - apply (f_equal IZR) in E. rewrite mult_IZR in E. field_simplify_eq; lra.
    - apply IZR_lt in E. rewrite mult_IZR in E.
      apply Rmult_lt_reg_r with (IZR m2); [assumption|].
      unfold Rdiv. rewrite Rmult_assoc, Rinv_l by lra. lra.
    - apply IZR_lt in E. rewrite mult_IZR in E.
      apply Rmult_lt_reg_r with (IZR m2); [assumption|].
      unfold Rdiv. rewrite Rmult_assoc, Rinv_l by lra. lra. }
  unfold new_location.
  destruct (Z.eqb_spec r 0) as [->|Hr1].
  - assert (E0 : (IZR q + 0 / IZR m2)%R = IZR q) by (unfold Rdiv; ring).
    rewrite E0.
    destruct (Z.even m2); unfold new_location_even, new_location_odd;
      cbn [Z.eqb]; apply rec_of_exact.
  - assert (Hrpos : (0 < IZR r / IZR m2)%R).
    { apply Rmult_lt_0_compat; [apply IZR_lt; lia|].
      apply Rinv_0_lt_compat. assumption. }
    destruct (Z.even m2) eqn:Ev; unfold new_location_even, new_location_odd;
      replace (r =? 0) with false by (symmetry; apply Z.eqb_neq; assumption).
    + specialize (Hhalf _ eq_refl).
      destruct (2 * r ?= m2); unfold rec_of;
        cbn [shr_record_of_loc shr_m shr_r shr_s]; split; lra.
    + assert (Hodd : 2 * r <> m2).
      { intros E. rewrite <- E, Z.even_mul in Ev. discriminate. }
      specialize (Hhalf _ eq_refl).
      destruct (Z.compare_spec (2 * r + 1) m2) as [E|E|E];
        destruct (Z.compare_spec (2 * r) m2) as [F|F|F]; try lia;
        unfold rec_of; cbn [shr_record_of_loc shr_m shr_r shr_s]; split; lra.
Qed.

Lemma SFdiv_core_binary_rec (m1 m2 : positive) (e1 e2 : Z) :
  let '(q, e', l) := SFdiv_core_binary 53 1024 (Zpos m1) e1 (Zpos m2) e2 in
  rec_of (IZR (Zpos m1) * bpow e1 / (IZR (Zpos m2) * bpow e2) * bpow (- e'))
         (shr_record_of_loc q l).
Proof.
  unfold SFdiv_core_binary. cbn [Zdigits2].
  set (X := Zpos (digits2_pos m1) + e1 - (Zpos (digits2_pos m2) + e2)).
  set (e' := Z.min (fexp 53 1024 X) (e1 - e2)).
  set (s := e1 - e2 - e').
  set (m' := match s with
             | Z.pos _ => Z.shiftl (Z.pos m1) s
             | Z0 => Z.pos m1
             | Z.neg _ => 0
             end).
  assert (Hs : 0 <= s) by (unfold s, e'; lia).
  assert (Hm' : m' = Zpos m1 * 2 ^ s).
  { unfold m'. destruct s as [|p|p] eqn:Es; try lia.
    rewrite Z.shiftl_mul_pow2 by lia. reflexivity. }
  clearbody m'.
  pose proof (Z_div_mod m' (Zpos m2) ltac:(lia)) as Hdm.
  destruct (Z.div_eucl m' (Z.pos m2)) as [q r]. destruct Hdm as [Hdm Hr].
  pose proof (new_location_rec q r (Zpos m2) Hr) as Hrec.
  pose proof (IZR_pos_gt_0 m2) as H2. pose proof (bpow_pos e2) as Hp2.
  replace (IZR (Zpos m1) * bpow e1 / (IZR (Zpos m2) * bpow e2) * bpow (- e'))%R
    with (IZR q + IZR r / IZR (Zpos m2))%R; [exact Hrec|].
  assert (E1 : bpow e1 = (bpow s * bpow e2 * bpow e')%R).
  { rewrite <- !bpow_add. f_equal. unfold s. lia. }
  assert (Em : (IZR (Zpos m1) * bpow s)%R = (IZR (Zpos m2) * IZR q + IZR r)%R).
  { rewrite (bpow_IZR s Hs), <- mult_IZR, <- Hm', Hdm, plus_IZR, mult_IZR.
    reflexivity. }
  rewrite E1. pose proof (bpow_pos e') as Hpe.
  rewrite bpow_opp.
  transitivity (IZR (Zpos m1) * bpow s / IZR (Zpos m2))%R.
  - rewrite Em. field. lra.
  - field. repeat split; lra.
Qed.

Lemma SFdiv_rounds (x : float) (sy : bool) (my : positive) (ey k1 j : Z) :
  bounded_mag k1 x -> j <= Zpos (digits2_pos my) + ey -> k1 - j + 1 <= 1023 ->
  rounds (F2R x / F2R (S754_finite sy my ey))
         (SFdiv prec emax x (S754_finite sy my ey)).
Proof.
  pose proof (IZR_pos_gt_0 my) as Hmy. pose proof (bpow_pos ey) as Hpy.
  destruct x as [sx|sx| |sx mx ex]; cbn [bounded_mag SFdiv]; try tauto.
  - intros _ _ _. cbn [F2R]. unfold Rdiv. rewrite Rmult_0_l. apply rounds_zero.
  - intros [Hc Hk1] Hj Hk.
    pose proof (SFdiv_core_binary_spec mx my ex ey) as H. cbv zeta in H.
    pose proof (SFdiv_core_binary_rec mx my ex ey) as Hrec.
    unfold prec, emax.
    destruct (SFdiv_core_binary 53 1024 (Z.pos mx) ex (Z.pos my) ey) as [[q e'] l].
    destruct H as (Hq & He & Hd & _).
    pose proof (IZR_pos_gt_0 mx) as Hmx. pose proof (bpow_pos ex) as Hpx.
    set (v := (IZR (Zpos mx) * bpow ex / (IZR (Zpos my) * bpow ey))%R) in *.
    assert (Hv : (0 <= v)%R).
    { unfold v. apply Rmult_le_pos; [nra|]. apply Rlt_le, Rinv_0_lt_compat. nra. }
    destruct (binary_round_aux_rounds (xorb sx sy) q e' l v Hq He ltac:(lia) Hv Hrec)
      as (Hg & n & Hr & HF).
    pose proof (rounds_of_signed (xorb sx sy) v _ n _ Hg Hv Hr HF) as Hres.
    replace (F2R (S754_finite sx mx ex) / F2R (S754_finite sy my ey))%R
      with (if xorb sx sy then (- v)%R else v); [exact Hres|].
    rewrite !F2R_finite. unfold v.
    destruct sx, sy; cbn [xorb]; field; nra.
Qed.

Lemma int_true_div_rounds (a b : Z) :
  0 <= a -> 1 <= b -> Zdigits2 a <= 1000 ->
  exists q, int_true_div a b = Some q /\ rounds (IZR a / IZR b) q.
Proof.
  intros Ha Hb Hda. unfold int_true_div.
  replace (b =? 0) with false by (symmetry; apply Z.eqb_neq; lia).
  destruct a as [|pa|pa]; try lia.
  - eexists. split; [reflexivity|]. unfold Rdiv. rewrite Rmult_0_l. apply rounds_zero.
  - destruct b as [|pb|pb]; try lia. cbn [Z.abs].
    pose proof (SFdiv_core_binary_spec pa pb 0 0) as H. cbv zeta in H.
    pose proof (SFdiv_core_binary_rec pa pb 0 0) as Hrec.
    cbn [Zdigits2] in Hda.
    unfold prec, emax.
    destruct (SFdiv_core_binary 53 1024 (Z.pos pa) 0 (Z.pos pb) 0) as [[q e'] l].
    destruct H as (Hq & He & Hd & _).
    pose proof (IZR_pos_gt_0 pa) as Hpa. pose proof (IZR_pos_gt_0 pb) as Hpb.
    rewrite bpow_0, !Rmult_1_r in Hrec.
    assert (Hv : (0 <= IZR (Zpos pa) / IZR (Zpos pb))%R).
    { apply Rmult_le_pos; [lra|]. apply Rlt_le, Rinv_0_lt_compat. lra. }
    destruct (binary_round_aux_rounds false q e' l _ Hq He ltac:(lia) Hv Hrec)
      as (Hg & n & Hr & HF).
    pose proof (rounds_of_signed false _ _ n _ Hg Hv Hr HF) as Hres.
    cbn [Z.ltb Z.compare xorb].
    eexists. split; [|exact Hres].
    unfold checked.
    destruct (binary_round_aux 53 1024 false q e' l); cbn [good] in Hg;
      try contradiction; reflexivity.
Qed.

(** ** Integers, ceilings and error bounds *)

Lemma int_float_F2R (n : Z) : Zdigits2 n <= 53 -> F2R (int_float n) = IZR n.
Proof.
  intros Hd. destruct (Z.eq_dec n 0) as [->|Hn]; [reflexivity|].
  assert (Hd1 : 1 <= Zdigits2 n) by (destruct n; [contradiction|cbn; lia|cbn; lia]).
  assert (En : int_float n
               = S754_finite (n <? 0)
                   (Z.to_pos (Z.abs n * 2 ^ (53 - Zdigits2 n))) (Zdigits2 n - 53))
    by (destruct n; [contradiction|reflexivity|reflexivity]).
  rewrite En. cbn [F2R]. rewrite (int_float_value n Hn Hd), mult_IZR.
  rewrite <- (bpow_IZR (53 - Zdigits2 n)) by lia.
  rewrite Rmult_assoc, <- bpow_add.
  replace (53 - Zdigits2 n + (Zdigits2 n - 53)) with 0 by lia.
  rewrite bpow_0. ring.
Qed.

Lemma int_float_good (n : Z) : Zdigits2 n <= 53 -> good (int_float n).
Proof.
  intros Hd. destruct (Z.eq_dec n 0) as [->|Hn]; [exact I|].
  assert (Hd1 : 1 <= Zdigits2 n) by (destruct n; [contradiction|cbn; lia|cbn; lia]).
  assert (En : int_float n
               = S754_finite (n <? 0)
                   (Z.to_pos (Z.abs n * 2 ^ (53 - Zdigits2 n))) (Zdigits2 n - 53))
    by (destruct n; [contradiction|reflexivity|reflexivity]).
  rewrite En. cbn [good].
  pose proof (pow2_pos (53 - Zdigits2 n) ltac:(lia)) as Hp.
  change (Zpos (digits2_pos (Z.to_pos (Z.abs n * 2 ^ (53 - Zdigits2 n)))))
    with (Zdigits2 (Zpos (Z.to_pos (Z.abs n * 2 ^ (53 - Zdigits2 n))))).
  rewrite Z2Pos.id by nia.
  rewrite Zdigits2_shift by lia. rewrite Zdigits2_abs, fexp64_eq. lia.
Qed.

Lemma int_float_bounded_mag (n : Z) : Zdigits2 n <= 53 -> bounded_mag 53 (int_float n).
Proof.
  intros Hd. pose proof (int_float_good n Hd) as Hg.
  destruct (Z.eq_dec n 0) as [->|Hn]; [exact I|].
  assert (Hd1 : 1 <= Zdigits2 n) by (destruct n; [contradiction|cbn; lia|cbn; lia]).
  assert (En : int_float n
               = S754_finite (n <? 0)
                   (Z.to_pos (Z.abs n * 2 ^ (53 - Zdigits2 n))) (Zdigits2 n - 53))
    by (destruct n; [contradiction|reflexivity|reflexivity]).
  rewrite En in *. cbn [good bounded_mag] in *. split; [exact Hg|].
  rewrite fexp64_eq in Hg. lia.
Qed.

(** [math.ceil] is the ceiling of the value. *)
Lemma math_ceil_F2R (x : float) (c : Z) :
  math_ceil x = Some c -> (IZR c - 1 < F2R x <= IZR c)%R.
Proof.
  destruct x as [s|s| |s m e]; cbn [math_ceil]; try discriminate.
  - intros H. injection H as <-. cbn [F2R]. lra.
  - intros H. injection H as <-. cbn [F2R]. unfold ceil_dyadic.
    set (n := cond_Zopp s (Zpos m)).
    destruct (Z.leb_spec 0 e) as [He|He].
    + rewrite mult_IZR, <- (bpow_IZR e He). lra.
    + pose proof (pow2_pos (- e) ltac:(lia)) as Hp.
      pose proof (Z_div_mod_eq_full (- n) (2 ^ (- e))) as Hdm.
      pose proof (Z.mod_pos_bound (- n) (2 ^ (- e)) Hp) as Hr.
      set (k := - n / 2 ^ (- e)) in *. set (r := (- n) mod 2 ^ (- e)) in *.
      assert (En : n = 2 ^ (- e) * (- k) - r) by lia.
      assert (Hpe : bpow e = (/ IZR (2 ^ (- e)))%R).
      { rewrite <- (bpow_IZR (- e)) by lia. rewrite <- bpow_opp. f_equal. lia. }
      assert (HP : (0 < IZR (2 ^ (- e)))%R) by (apply IZR_lt; lia).
      assert (Hr0 : (0 <= IZR r)%R) by (apply IZR_le; lia).
      assert (Hr1 : (IZR r < IZR (2 ^ (- e)))%R) by (apply IZR_lt; lia).
      rewrite Hpe, En, minus_IZR, mult_IZR.
      set (P := IZR (2 ^ (- e))) in *. clearbody P.
      assert (Ev : ((P * IZR (- k) - IZR r) * / P = IZR (- k) - IZR r * / P)%R)
        by (field; lra).
      rewrite Ev.
      assert (0 <= IZR r * / P < 1)%R.
      { split.
        - apply Rmult_le_pos; [assumption|]. apply Rlt_le, Rinv_0_lt_compat. lra.
        - apply Rmult_lt_reg_r with P; [assumption|].
          rewrite Rmult_assoc, Rinv_l by lra. lra. }
      lra.
Qed.

Lemma math_ceil_mono (x y : float) (cx cy : Z) :
  math_ceil x = Some cx -> math_ceil y = Some cy -> (F2R x <= F2R y)%R -> cx <= cy.
Proof.
  intros Hx Hy Hle. apply math_ceil_F2R in Hx, Hy.
  apply Z.lt_succ_r. apply lt_IZR. unfold Z.succ. rewrite plus_IZR. lra.
Qed.

Lemma math_ceil_good (x : float) : good x -> exists c, math_ceil x = Some c.
Proof. destruct x; cbn; try tauto; eauto. Qed.

Lemma good_is_finite (x : float) : good x -> is_finite x = true.
Proof. destruct x; cbn; tauto. Qed.

(** Rounding keeps to the side of every canonical float. *)
Lemma rounds_ge_float (v : R) (r g : float) :
  rounds v r -> good g -> (F2R g <= v)%R -> (F2R g <= F2R r)%R.
Proof. intros Hr Hg Hv. exact (rounds_mono _ _ _ _ (good_rounds g Hg) Hr Hv). Qed.

Lemma rounds_le_float (v : R) (r g : float) :
  rounds v r -> good g -> (v <= F2R g)%R -> (F2R r <= F2R g)%R.
Proof. intros Hr Hg Hv. exact (rounds_mono _ _ _ _ Hr (good_rounds g Hg) Hv). Qed.

(** In the normal range the rounded value is within a relative [2^-53]
    of the exact one. *)
Lemma rounds_error_below (v : R) (r : float) :
  rounds v r -> (bpow (-1022) <= v)%R -> (v * (1 - bpow (-53)) <= F2R r)%R.
Proof.
  intros [_ [(Hv & n & E & (Hr & HE & Hhi & Hlo) & ->)|(Hv & _)]] Hn.
  2:{ pose proof (bpow_pos (-1022)). lra. }
  assert (Hlo' : (bpow (E + 52) <= v)%R).
  { destruct Hlo as [ | -> ]; [assumption|]. exact Hn. }
  destruct Hr as [[_ Hup] _].
  pose proof (bpow_pos E) as HpE.
  assert (Hc : (v * bpow (- E) * bpow E)%R = v) by apply bpow_cancel.
  assert (Hu : (bpow E = 2 * (bpow (E + 52) * bpow (-53)))%R).
  { rewrite <- bpow_add, <- bpow_succ. f_equal. lia. }
  pose proof (bpow_pos (-53)). pose proof (bpow_pos (E + 52)).
  assert (v - bpow E * / 2 <= IZR n * bpow E)%R by nra.
  nra.
Qed.

(** * The closed form of the deficit branch *)

(** ** Constants *)

Lemma bpow_neg_IZR (k : Z) : 0 <= k -> bpow (- k) = (/ IZR (2 ^ k))%R.
Proof. intros Hk. rewrite bpow_opp, bpow_IZR by assumption. reflexivity. Qed.

Lemma F2R_f100_0 : F2R f100_0 = 100%R.
Proof.
  unfold f100_0. cbn [F2R cond_Zopp].
  replace (bpow (-46)) with (/ IZR 70368744177664)%R
    by (symmetry; exact (bpow_neg_IZR 46 ltac:(lia))).
  replace (IZR 7036874417766400) with (100 * IZR 70368744177664)%R
    by (rewrite <- mult_IZR; reflexivity).
  field; apply not_0_IZR; lia.
Qed.

Lemma F2R_f1_0 : F2R f1_0 = 1%R.
Proof.
  unfold f1_0. cbn [F2R cond_Zopp].
  replace (bpow (-52)) with (/ IZR 4503599627370496)%R
    by (symmetry; exact (bpow_neg_IZR 52 ltac:(lia))).
  field; apply not_0_IZR; lia.
Qed.

Lemma good_f100_0 : good f100_0.
Proof. reflexivity. Qed.

Lemma good_f1_0 : good f1_0.
Proof. reflexivity. Qed.

Lemma float_pow2_F2R (s : bool) (k : Z) :
  F2R (float_pow2 s k) = (if s then - bpow k else bpow k)%R.
Proof.
  unfold float_pow2. rewrite F2R_finite.
  replace (IZR (Zpos 4503599627370496) * bpow (k - 52))%R with (bpow k).
  - destruct s; reflexivity.
  - change (Zpos 4503599627370496) with (2 ^ 52). rewrite <- (bpow_IZR 52) by lia.
    rewrite <- bpow_add. f_equal. lia.
Qed.

Lemma float_pow2_good (s : bool) (k : Z) : -1022 <= k -> good (float_pow2 s k).
Proof.
  intros Hk. unfold float_pow2. cbn [good].
  change (Zpos (digits2_pos 4503599627370496)) with 53. rewrite fexp64_eq. lia.
Qed.

(** ** Valid percentages *)

Lemma valid_percent_good (p : float) : valid_percent p -> good p.
Proof. intros Hp. exact (bounded_mag_good 7 p (valid_percent_bounded p Hp)). Qed.

Lemma valid_percent_F2R (p : float) :
  valid_percent p -> (0 <= F2R p <= 100)%R.
Proof.
  intros Hp. pose proof (valid_percent_good p Hp) as Hg.
  destruct Hp as (_ & H0 & H100). unfold float_ge in H0, H100.
  apply (SFleb_F2R f0_0 p I Hg) in H0.
  apply (SFleb_F2R p f100_0 Hg good_f100_0) in H100.
  rewrite F2R_f100_0 in H100. cbn [F2R f0_0] in H0. lra.
Qed.

(** The float below 100.0 is [100 - 2^-46]. *)
Lemma good_below_100 (p : float) :
  good p -> (F2R p < 100)%R -> (F2R p <= 100 - bpow (-46))%R.
Proof.
  intros Hg Hlt. pose proof (bpow_pos (-46)) as H46.
  assert (B46 : bpow (-46) = (/ IZR 70368744177664)%R).
  { exact (bpow_neg_IZR 46 ltac:(lia)). }
  assert (P46 : (0 < IZR 70368744177664)%R) by (apply IZR_lt; lia).
  destruct p as [s|s| |s m e]; cbn [good] in Hg; try contradiction.
  - cbn [F2R]. rewrite B46.
    assert (/ IZR 70368744177664 <= 1)%R; [|lra].
    rewrite <- Rinv_1. apply Rinv_le_contravar; [lra|]. apply IZR_le. lia.
  - destruct (good_finite s m e Hg) as (He & Hhi & Hlo).
    rewrite F2R_finite in *. pose proof (IZR_pos_gt_0 m) as Hm.
    pose proof (bpow_pos e) as Hpe.
    assert (H1 : (bpow (-46) <= 1)%R).
    { rewrite <- bpow_0. apply bpow_le. lia. }
    destruct s; [nra|].
    destruct (Z_lt_ge_dec e (-46)) as [Hs|Hb].
    + assert (bpow e <= bpow (-47))%R by (apply bpow_le; lia).
      assert (bpow 53 * bpow (-47) = 64)%R.
      { rewrite <- bpow_add. change (53 + -47) with 6. rewrite bpow_IZR by lia.
        reflexivity. }
      nra.
    + destruct (Z.eq_dec e (-46)) as [->|Hne].
      * assert (Hmz : Zpos m < 7036874417766400).
        { apply lt_IZR.
          replace (IZR 7036874417766400) with (100 * IZR 70368744177664)%R
            by (rewrite <- mult_IZR; reflexivity).
          rewrite B46 in Hlt.
          apply Rmult_lt_reg_r with (/ IZR 70368744177664)%R;
            [apply Rinv_0_lt_compat; assumption|].
          rewrite Rmult_assoc, Rinv_r by lra. lra. }
        assert (Hmz' : (IZR (Zpos m) <= IZR 7036874417766400 - 1)%R).
        { rewrite <- minus_IZR. apply IZR_le. lia. }
        replace (IZR 7036874417766400) with (100 * IZR 70368744177664)%R in Hmz'
          by (rewrite <- mult_IZR; reflexivity).
        rewrite B46.
        apply Rmult_le_reg_r with (IZR 70368744177664); [assumption|].
        rewrite Rmult_assoc, Rinv_l by lra.
        rewrite Rmult_minus_distr_r, Rinv_l by lra. lra.
      * exfalso. specialize (Hlo ltac:(lia)).
        assert (bpow (-45) <= bpow e)%R by (apply bpow_le; lia).
        assert (bpow 52 * bpow (-45) = 128)%R.
        { rewrite <- bpow_add. change (52 + -45) with 7. rewrite bpow_IZR by lia.
          reflexivity. }
        assert (bpow 52 * bpow (-45) <= IZR (Zpos m) * bpow e)%R.
        { pose proof (bpow_pos 52). pose proof (bpow_pos (-45)).
          apply Rmult_le_compat; lra. }
        lra.
Qed.

(** ** The floats of the closed form and the reals they round *)

Lemma bpow_neg53 : bpow (-53) = (/ IZR 9007199254740992)%R.
Proof. exact (bpow_neg_IZR 53 ltac:(lia)). Qed.

Lemma bpow_neg46 : bpow (-46) = (128 * bpow (-53))%R.
Proof.
  replace (-46) with (7 + -53) by lia. rewrite bpow_add, (bpow_IZR 7) by lia.
  reflexivity.
Qed.

Lemma ratio_rounds (p : float) :
  valid_percent p ->
  rounds (F2R p / 100) (ratio_of p)
  /\ bounded_mag 2 (ratio_of p)
  /\ (0 <= F2R (ratio_of p) <= 1)%R.
Proof.
  intros Hp. pose proof (valid_percent_F2R p Hp) as Hv.
  assert (Hr : rounds (F2R p / 100) (ratio_of p)).
  { rewrite <- F2R_f100_0. unfold ratio_of, f100_0.
    apply (SFdiv_rounds p false 7036874417766400 (-46) 7 7).
    - apply valid_percent_bounded, Hp.
    - simpl. lia.
    - lia. }
  split; [exact Hr|]. split; [apply percent_ratio_bounded, Hp|]. split.
  - apply (rounds_ge_float _ _ f0_0 Hr I). cbn [F2R f0_0]. lra.
  - rewrite <- F2R_f1_0. apply (rounds_le_float _ _ f1_0 Hr good_f1_0).
    rewrite F2R_f1_0. lra.
Qed.

(** Below 100 the ratio stays below 1.0, so the denominator is not 0. *)
Lemma ratio_below_one (p : float) :
  valid_percent p -> (F2R p < 100)%R ->
  (F2R (ratio_of p) <= 1 - bpow (-53))%R.
Proof.
  intros Hp Hlt. destruct (ratio_rounds p Hp) as (Hr & _).
  pose proof (good_below_100 p (valid_percent_good p Hp) Hlt) as Hb.
  set (g := S754_finite false 9007199254740991 (-53)).
  assert (Hg : good g) by reflexivity.
  assert (Vg : F2R g = (1 - bpow (-53))%R).
  { unfold g. cbn [F2R cond_Zopp]. rewrite bpow_neg53.
    replace (IZR 9007199254740991) with (IZR 9007199254740992 - 1)%R
      by (rewrite <- minus_IZR; reflexivity).
    field; apply not_0_IZR; lia. }
  rewrite <- Vg. apply (rounds_le_float _ _ g Hr Hg).
  rewrite Vg. rewrite bpow_neg46 in Hb. pose proof (bpow_pos (-53)). lra.
Qed.

Lemma good_positive (x : float) (k : Z) :
  good x -> (bpow k <= F2R x)%R ->
  exists m e, x = S754_finite false m e /\ k + 1 <= Zpos (digits2_pos m) + e.
Proof.
  intros Hg Hk. pose proof (bpow_pos k) as Hpk.
  destruct x as [s|s| |s m e]; cbn [good] in Hg; try contradiction.
  - cbn [F2R] in Hk. lra.
  - rewrite F2R_finite in Hk.
    pose proof (IZR_pos_gt_0 m) as Hm. pose proof (bpow_pos e) as Hpe.
    destruct s; [nra|]. exists m, e. split; [reflexivity|].
    destruct (digits_bpow (Zpos m) ltac:(lia)) as [_ Dhi]. cbn [Zdigits2] in Dhi.
    assert (Hlt : (bpow k < bpow (Zpos (digits2_pos m) + e))%R).
    { rewrite bpow_add. nra. }
    destruct (Z_le_gt_dec (k + 1) (Zpos (digits2_pos m) + e)) as [|Hgt];
      [assumption|exfalso].
    pose proof (bpow_le (Zpos (digits2_pos m) + e) k ltac:(lia)). lra.
Qed.

Lemma denominator_rounds (p : float) :
  valid_percent p ->
  rounds (1 - F2R (ratio_of p)) (denominator_of p)
  /\ (0 <= F2R (denominator_of p))%R.
Proof.
  intros Hp. destruct (ratio_rounds p Hp) as (_ & Hb & H01).
  assert (Hr : rounds (1 - F2R (ratio_of p)) (denominator_of p)).
  { rewrite <- F2R_f1_0. unfold denominator_of.
    apply (SFsub_rounds f1_0 (ratio_of p) 2); [|exact Hb|lia].
    unfold f1_0. cbn [bounded_mag]. split; [reflexivity|simpl; lia]. }
  split; [exact Hr|].
  apply (rounds_ge_float _ _ f0_0 Hr I). cbn [F2R f0_0]. lra.
Qed.

Lemma denominator_positive (p : float) :
  valid_percent p -> (F2R p < 100)%R ->
  (bpow (-53) <= F2R (denominator_of p))%R
  /\ exists m e, denominator_of p = S754_finite false m e
                 /\ -52 <= Zpos (digits2_pos m) + e.
Proof.
  intros Hp Hlt. destruct (denominator_rounds p Hp) as (Hr & _).
  pose proof (ratio_below_one p Hp Hlt) as Hb.
  assert (Hd : (bpow (-53) <= F2R (denominator_of p))%R).
  { rewrite <- (float_pow2_F2R false (-53)).
    apply (rounds_ge_float _ _ _ Hr (float_pow2_good false (-53) ltac:(lia))).
    rewrite float_pow2_F2R. lra. }
  split; [exact Hd|].
  destruct (good_positive _ (-53) (proj1 Hr) Hd) as (m & e & E & Hk).
  exists m, e. split; [exact E|lia].
Qed.

Lemma valid_counts_digits (c_att c_total : Z) :
  valid_counts c_att c_total -> Zdigits2 c_att <= 53 /\ Zdigits2 c_total <= 53.
Proof. intros [Ha Ht]. split; apply Zdigits2_small; lia. Qed.

Lemma product_rounds (c_total : Z) (p : float) :
  1 <= c_total <= max_count -> valid_percent p ->
  rounds (F2R (ratio_of p) * IZR c_total)
         (float_mul (ratio_of p) (int_float c_total))
  /\ bounded_mag 56 (float_mul (ratio_of p) (int_float c_total)).
Proof.
  intros Ht Hp. destruct (ratio_rounds p Hp) as (_ & Hb & _).
  assert (Hd : Zdigits2 c_total <= 53) by (apply Zdigits2_small; lia).
  pose proof (int_float_bounded_mag c_total Hd) as Hbt. split.
  - rewrite <- (int_float_F2R c_total Hd).
    apply (SFmul_rounds _ _ 2 53 Hb Hbt). lia.
  - apply (SFmul_bounded _ _ 2 53 55 Hb Hbt); lia.
Qed.

Lemma numerator_rounds (c_att c_total : Z) (p : float) :
  valid_counts c_att c_total -> valid_percent p ->
  rounds (F2R (float_mul (ratio_of p) (int_float c_total)) - IZR c_att)
         (numerator_of c_att c_total p)
  /\ bounded_mag 58 (numerator_of c_att c_total p).
Proof.
  intros Hc Hp. destruct (valid_counts_digits _ _ Hc) as [Da Dt].
  destruct Hc as [Ha Ht].
  destruct (product_rounds c_total p Ht Hp) as (_ & Hbs).
  pose proof (bounded_mag_weaken 53 56 _ ltac:(lia) (int_float_bounded_mag c_att Da))
    as Hba.
  unfold numerator_of. split.
  - rewrite <- (int_float_F2R c_att Da). apply (SFsub_rounds _ _ 56 Hbs Hba). lia.
  - apply (SFsub_bounded _ _ 56 Hbs Hba). lia.
Qed.

(** Below 100 the raw solution is computed: no division by zero, no
    overflow; it rounds the quotient of numerator and denominator. *)
Lemma raw_solution_rounds (c_att c_total : Z) (p : float) :
  valid_counts c_att c_total -> valid_percent p -> (F2R p < 100)%R ->
  exists x_float,
    raw_solution c_att c_total p = Some x_float
    /\ rounds (F2R (numerator_of c_att c_total p) / F2R (denominator_of p)) x_float.
Proof.
  intros Hc Hp Hlt. destruct (valid_counts_digits _ _ Hc) as [Da Dt].
  destruct (numerator_rounds c_att c_total p Hc Hp) as (_ & Hbn).
  destruct (denominator_positive p Hp Hlt) as (_ & m & e & ED & Hk).
  unfold raw_solution. rewrite float_div_100. cbn [bind].
  rewrite (float_of_int_exact c_total Dt), (float_of_int_exact c_att Da). cbn [bind].
  fold (ratio_of p). fold (numerator_of c_att c_total p). fold (denominator_of p).
  rewrite ED. cbn [float_div]. eexists. split; [reflexivity|].
  apply (SFdiv_rounds _ false m e 58 (-52) Hbn Hk). lia.
Qed.

(** ** The deficit branch never goes below zero on ordinary counts *)

(** The error analysis in the reals: [u] is the unit roundoff [2^-53],
    [q], [cp], [R] and [S] the rounded quotient, current percentage, ratio
    and product.  When the product falls below [a], it does so by at most
    [2^-27], and the ratio is at least [2^-25] away from 1. *)
Lemma deficit_reals (a t q cp p R S u : R) :
  (0 < u <= / 9007199254740992)%R ->
  (1 <= a)%R -> (a + 1 <= t)%R -> (t <= 16777216)%R ->
  (a / t * (1 - u) <= q)%R -> (q * 100 * (1 - u) <= cp)%R -> (cp < p)%R ->
  (p / 100 * (1 - u) <= R)%R -> (R * t * (1 - u) <= S)%R -> (S < a)%R ->
  (- / 134217728 <= S - a)%R /\ (/ 33554432 <= 1 - R)%R.
Proof.
  intros Hu Ha Hat Ht Hq Hcp Hlt HR HS HSa.
  assert (Ht0 : (0 < t)%R) by lra.
  set (w := (1 - u)%R) in *.
  assert (Hw : (1 - / 9007199254740992 <= w < 1)%R) by (unfold w; lra).
  assert (Hw0 : (0 < w)%R) by lra.
  assert (Eat : (a / t * t = a)%R) by (field; lra).
  assert (Hq0 : (0 < a / t)%R) by (apply Rdiv_lt_0_compat; lra).
  (* the lower bounds, one rounding at a time *)
  assert (H1 : (a * w <= q * t)%R).
  { rewrite <- Eat at 1. nra. }
  assert (H2 : (a * w * w * 100 <= cp * t)%R) by nra.
  assert (H3 : (a * w * w * 100 < p * t)%R) by nra.
  assert (H4 : (a * w * w * w < R * t)%R).
  { assert (p * t * w <= R * t * 100)%R.
    { assert (p * w <= R * 100)%R by (unfold Rdiv in HR; lra). nra. }
    nra. }
  assert (H5 : (a * w * w * w * w < S)%R) by nra.
  assert (Hw2 : (1 - 2 * / 9007199254740992 <= w * w)%R).
  { assert (0 <= (w - (1 - / 9007199254740992)) * (w + (1 - / 9007199254740992)))%R
      by (apply Rmult_le_pos; lra).
    assert (0 <= / 9007199254740992 * / 9007199254740992)%R
      by (apply Rmult_le_pos; lra).
    lra. }
  assert (Hw4 : (1 - 4 * / 9007199254740992 <= w * w * w * w)%R).
  { assert (0 <= (w * w - (1 - 2 * / 9007199254740992))
                 * (w * w + (1 - 2 * / 9007199254740992)))%R
      by (apply Rmult_le_pos; lra).
    assert (0 <= / 9007199254740992 * / 9007199254740992)%R
      by (apply Rmult_le_pos; lra).
    lra. }
  split.
  - assert (a * (1 - 4 * / 9007199254740992) <= a * (w * w * w * w))%R
      by (apply Rmult_le_compat_l; lra).
    lra.
  - assert (H6 : (R * t * w < a)%R) by lra.
    assert (H7 : (R * t * w < t - 1)%R) by lra.
    assert (H8 : (t * (1 - / 33554432) * w >= t - 1)%R).
    { assert (Htw1 : (t - t * / 9007199254740992 <= t * w)%R) by nra.
      assert (Htw2 : (t * w <= t)%R) by nra.
      replace (t * (1 - / 33554432) * w)%R
        with (t * w - / 33554432 * (t * w))%R by ring.
      lra. }
    assert (H9 : (R * (t * w) < (1 - / 33554432) * (t * w))%R) by lra.
    assert (0 < t * w)%R by nra.
    assert (R < 1 - / 33554432)%R by (apply (Rmult_lt_reg_r (t * w)); assumption).
    lra.
Qed.

Lemma current_percent_rounds (c_att c_total : Z) :
  valid_counts c_att c_total ->
  exists q,
    int_true_div c_att c_total = Some q
    /\ current_percent_of c_att c_total = Some (float_mul q f100_0)
    /\ rounds (IZR c_att / IZR c_total) q
    /\ rounds (F2R q * 100) (float_mul q f100_0).
Proof.
  intros Hc. destruct (valid_counts_digits _ _ Hc) as [Da _]. destruct Hc as [Ha Ht].
  destruct (int_true_div_rounds c_att c_total) as (q & E & Hr); try lia.
  destruct (int_true_div_bounded c_att c_total Ha ltac:(lia)) as (q' & E' & Hb).
  rewrite E in E'. injection E' as <-.
  exists q. split; [exact E|]. split.
  - unfold current_percent_of. rewrite E. reflexivity.
  - split; [exact Hr|]. rewrite <- F2R_f100_0.
    apply (SFmul_rounds q f100_0 2 7 Hb); [|lia].
    unfold f100_0. cbn [bounded_mag]. split; [reflexivity|simpl; lia].
Qed.

Lemma ordinary_counts_valid (c_att c_total : Z) :
  ordinary_counts c_att c_total -> valid_counts c_att c_total.
Proof. unfold ordinary_counts, valid_counts, max_ordinary_total, max_count. lia. Qed.

Lemma bpow_neg1022_small : (bpow (-1022) <= / 1152921504606846976)%R.
Proof.
  replace (/ 1152921504606846976)%R with (bpow (-60))
    by exact (bpow_neg_IZR 60 ltac:(lia)).
  apply bpow_le. lia.
Qed.

(** When the rounded product falls below the attended count, it does so by
    little, and the ratio is well below 1.0. *)
Lemma deficit_chain (c_att c_total : Z) (p current_percent : float) :
  ordinary_counts c_att c_total -> valid_percent p ->
  current_percent_of c_att c_total = Some current_percent ->
  (F2R current_percent < F2R p)%R ->
  (F2R (float_mul (ratio_of p) (int_float c_total)) < IZR c_att)%R ->
  (- bpow (-27) <= F2R (float_mul (ratio_of p) (int_float c_total)) - IZR c_att)%R
  /\ (bpow (-25) <= 1 - F2R (ratio_of p))%R.
Proof.
  intros Ho Hp Hcp Hlt Hneg.
  pose proof (ordinary_counts_valid _ _ Ho) as Hc.
  destruct (current_percent_rounds c_att c_total Hc) as (q & _ & Ecp & Hq & Hcpr).
  rewrite Ecp in Hcp. injection Hcp as <-.
  destruct (ratio_rounds p Hp) as (HR & _ & HR01).
  destruct Ho as [Ha Ht]. unfold max_ordinary_total in Ht.
  destruct (product_rounds c_total p ltac:(unfold max_count; lia) Hp) as (HS & _).
  set (S := float_mul (ratio_of p) (int_float c_total)) in *.
  set (R := ratio_of p) in *.
  assert (HT : (1 <= IZR c_total <= 16777216)%R).
  { split; apply IZR_le; lia. }
  (* a product below the count needs a count *)
  assert (HA : (1 <= IZR c_att)%R).
  { destruct (Z.eq_dec c_att 0) as [->|Hne]; [exfalso|apply IZR_le; lia].
    assert (0 <= F2R S)%R; [|lra].
    apply (rounds_ge_float _ _ f0_0 HS I). cbn [F2R f0_0]. nra. }
  assert (HAT : (IZR c_att + 1 <= IZR c_total)%R).
  { destruct (Z.eq_dec c_att c_total) as [E|Hne].
    - exfalso. rewrite E in Hq. unfold Rdiv in Hq. rewrite Rinv_r in Hq by lra.
      pose proof (rounds_ge_float _ _ f1_0 Hq good_f1_0) as Hq1.
      rewrite F2R_f1_0 in Hq1. specialize (Hq1 ltac:(lra)).
      pose proof (rounds_ge_float _ _ f100_0 Hcpr good_f100_0) as H100.
      rewrite F2R_f100_0 in H100. specialize (H100 ltac:(lra)).
      pose proof (valid_percent_F2R p Hp). lra.
    - rewrite <- plus_IZR. apply IZR_le. lia. }
  pose proof bpow_neg1022_small as Hn.
  assert (Hat : (/ 16777216 <= IZR c_att / IZR c_total)%R).
  { apply Rle_trans with (1 / IZR c_total)%R.
    - unfold Rdiv. rewrite Rmult_1_l. apply Rinv_le_contravar; lra.
    - unfold Rdiv. apply Rmult_le_compat_r; [|lra].
      apply Rlt_le, Rinv_0_lt_compat. lra. }
  pose proof (bpow_pos (-53)) as Hu0.
  assert (Hu : (0 < bpow (-53) <= / 9007199254740992)%R).
  { rewrite bpow_neg53. rewrite bpow_neg53 in Hu0. lra. }
  set (u := bpow (-53)) in *.
  (* one relative error per rounding *)
  pose proof (rounds_error_below _ _ Hq ltac:(lra)) as E1. fold u in E1.
  assert (Hq30 : (/ 33554432 <= F2R q)%R).
  { assert (/ 16777216 * (1 - u) <= IZR c_att / IZR c_total * (1 - u))%R
      by (apply Rmult_le_compat_r; lra).
    assert (/ 33554432 <= / 16777216 * (1 - u))%R by lra. lra. }
  pose proof (rounds_error_below _ _ Hcpr ltac:(lra)) as E2. fold u in E2.
  assert (Hcp30 : (/ 33554432 <= F2R (float_mul q f100_0))%R).
  { assert (F2R q * 100 * (1 - u) >= / 33554432 * 100 * (1 - u))%R.
    { apply Rle_ge. apply Rmult_le_compat_r; lra. }
    assert (/ 33554432 <= / 33554432 * 100 * (1 - u))%R by lra. lra. }
  pose proof (rounds_error_below _ _ HR ltac:(lra)) as E3. fold u in E3.
  assert (HR30 : (/ 4294967296 <= F2R R)%R).
  { assert (F2R p / 100 * (1 - u) >= / 33554432 / 100 * (1 - u))%R.
    { apply Rle_ge. apply Rmult_le_compat_r; lra. }
    assert (/ 4294967296 <= / 33554432 / 100 * (1 - u))%R by lra. lra. }
  assert (HRT : (/ 4294967296 <= F2R R * IZR c_total)%R) by nra.
  pose proof (rounds_error_below _ _ HS ltac:(lra)) as E4. fold u in E4.
  destruct (deficit_reals (IZR c_att) (IZR c_total) (F2R q)
              (F2R (float_mul q f100_0)) (F2R p) (F2R R) (F2R S) u
              Hu HA HAT ltac:(lra) E1 E2 Hlt E3 E4 Hneg) as [G1 G2].
  replace (bpow (-27)) with (/ 134217728)%R by (symmetry; exact (bpow_neg_IZR 27 ltac:(lia))).
  replace (bpow (-25)) with (/ 33554432)%R by (symmetry; exact (bpow_neg_IZR 25 ltac:(lia))).
  split; assumption.
Qed.

Lemma numerator_sign (c_att c_total : Z) (p : float) :
  valid_counts c_att c_total -> valid_percent p ->
  (F2R (numerator_of c_att c_total p) < 0)%R ->
  (F2R (float_mul (ratio_of p) (int_float c_total)) < IZR c_att)%R.
Proof.
  intros Hc Hp Hneg. destruct (numerator_rounds c_att c_total p Hc Hp) as (Hr & _).
  destruct (Rlt_le_dec (F2R (float_mul (ratio_of p) (int_float c_total)))
              (IZR c_att)) as [|Hge]; [assumption|exfalso].
  pose proof (rounds_ge_float _ _ f0_0 Hr I) as H0. cbn [F2R f0_0] in H0.
  specialize (H0 ltac:(lra)). lra.
Qed.

(** The raw solution is above -1 on ordinary counts. *)
Lemma raw_solution_above_minus_one
  (c_att c_total : Z) (p current_percent x_float : float) :
  ordinary_counts c_att c_total -> valid_percent p -> (F2R p < 100)%R ->
  current_percent_of c_att c_total = Some current_percent ->
  (F2R current_percent < F2R p)%R ->
  raw_solution c_att c_total p = Some x_float ->
  good x_float /\ (- / 4 <= F2R x_float)%R.
Proof.
  intros Ho Hp H100 Hcp Hlt Hraw.
  pose proof (ordinary_counts_valid _ _ Ho) as Hc.
  destruct (raw_solution_rounds c_att c_total p Hc Hp H100) as (x & Ex & Hx).
  rewrite Hraw in Ex. injection Ex as <-. split; [apply Hx|].
  destruct (denominator_positive p Hp H100) as (HD & _).
  destruct (denominator_rounds p Hp) as (HDr & _).
  destruct (numerator_rounds c_att c_total p Hc Hp) as (HNr & _).
  pose proof (bpow_pos (-53)) as H53.
  set (N := F2R (numerator_of c_att c_total p)) in *.
  set (D := F2R (denominator_of p)) in *.
  assert (HD0 : (0 < D)%R) by lra.
  destruct (Rlt_le_dec N 0) as [Hneg|Hpos].
  - pose proof (numerator_sign c_att c_total p Hc Hp Hneg) as HS.
    destruct (deficit_chain c_att c_total p current_percent Ho Hp Hcp Hlt HS)
      as [G1 G2].
    assert (HN : (- bpow (-27) <= N)%R).
    { rewrite <- (float_pow2_F2R true (-27)).
      apply (rounds_ge_float _ _ _ HNr (float_pow2_good true (-27) ltac:(lia))).
      rewrite float_pow2_F2R. exact G1. }
    assert (HD25 : (bpow (-25) <= D)%R).
    { rewrite <- (float_pow2_F2R false (-25)).
      apply (rounds_ge_float _ _ _ HDr (float_pow2_good false (-25) ltac:(lia))).
      rewrite float_pow2_F2R. exact G2. }
    assert (E27 : bpow (-27) = (/ 4 * bpow (-25))%R).
    { replace (-27) with (-2 + -25) by lia. rewrite bpow_add. f_equal.
      exact (bpow_neg_IZR 2 ltac:(lia)). }
    pose proof (bpow_pos (-25)) as H25.
    assert (Hv : (- / 4 <= N / D)%R).
    { apply Rmult_le_reg_r with D; [assumption|].
      unfold Rdiv. rewrite Rmult_assoc, Rinv_l by lra. nra. }
    replace (- / 4)%R with (F2R (float_pow2 true (-2))).
    + apply (rounds_ge_float _ _ _ Hx (float_pow2_good true (-2) ltac:(lia))).
      rewrite float_pow2_F2R.
      replace (bpow (-2)) with (/ 4)%R by (symmetry; exact (bpow_neg_IZR 2 ltac:(lia))).
      exact Hv.
    + rewrite float_pow2_F2R. f_equal. exact (bpow_neg_IZR 2 ltac:(lia)).
  - assert (Hv : (0 <= N / D)%R).
    { apply Rmult_le_pos; [assumption|]. apply Rlt_le, Rinv_0_lt_compat. assumption. }
    pose proof (rounds_ge_float _ _ f0_0 Hx I) as H0. cbn [F2R f0_0] in H0.
    specialize (H0 Hv). lra.
Qed.

Lemma float_tests_of_values (current_percent p : float) :
  good current_percent -> valid_percent p ->
  (F2R current_percent < F2R p)%R -> (F2R p < 100)%R ->
  float_ge current_percent p = false /\ float_eq p f100_0 = false.
Proof.
  intros Hg Hp Hlt H100. pose proof (valid_percent_good p Hp) as Hgp. split.
  - unfold float_ge. destruct (SFleb p current_percent) eqn:E; [|reflexivity].
    apply (SFleb_F2R p current_percent Hgp Hg) in E. lra.
  - unfold float_eq. destruct (SFeqb p f100_0) eqn:E; [|reflexivity].
    apply (SFeqb_F2R p f100_0 Hgp good_f100_0) in E. rewrite F2R_f100_0 in E. lra.
Qed.

(** On ordinary counts the deficit branch returns, with a result that is
    not negative. *)
Lemma deficit_branch_returns (c_att c_total : Z) (p current_percent : float) :
  ordinary_counts c_att c_total -> valid_percent p -> (F2R p < 100)%R ->
  current_percent_of c_att c_total = Some current_percent ->
  (F2R current_percent < F2R p)%R ->
  exists x_float x_min projected_percent,
    raw_solution c_att c_total p = Some x_float
    /\ math_ceil x_float = Some x_min
    /\ 0 <= x_min
    /\ calculate_required_classes c_att c_total p
       = Some (x_min, current_percent, projected_percent).
Proof.
  intros Ho Hp H100 Hcp Hlt.
  pose proof (ordinary_counts_valid _ _ Ho) as Hc.
  destruct (raw_solution_rounds c_att c_total p Hc Hp H100) as (x & Ex & Hx).
  destruct (raw_solution_above_minus_one _ _ _ _ _ Ho Hp H100 Hcp Hlt Ex) as [Hgx Hx4].
  destruct (math_ceil_good x Hgx) as (c & Ec).
  pose proof (math_ceil_F2R x c Ec) as Hc1.
  assert (Hc0 : 0 <= c).
  { apply Z.lt_succ_r. apply lt_IZR. unfold Z.succ. rewrite plus_IZR. lra. }
  destruct (current_percent_rounds c_att c_total Hc) as (q & _ & Ecp & _ & Hcpr).
  assert (Hg : good current_percent).
  { rewrite Ecp in Hcp. injection Hcp as <-. apply Hcpr. }
  destruct (float_tests_of_values _ _ Hg Hp Hlt H100) as [T1 T2].
  destruct Hc as [Ha Ht].
  destruct (int_true_div_bounded (c_att + c) (c_total + c)) as (q2 & E2 & _);
    [lia|lia|].
  exists x, c, (float_mul q2 f100_0).
  split; [exact Ex|]. split; [exact Ec|]. split; [exact Hc0|].
  unfold calculate_required_classes. rewrite Hcp. cbn [bind]. rewrite T1, T2.
  unfold raw_solution in Ex.
  destruct (float_div p f100_0) as [R|]; cbn [bind] in *; [|discriminate].
  destruct (float_of_int c_total) as [ft|]; cbn [bind] in *; [|discriminate].
  destruct (float_of_int c_att) as [fa|]; cbn [bind] in *; [|discriminate].
  rewrite Ex. cbn [bind]. rewrite Ec. cbn [bind]. rewrite E2. reflexivity.
Qed.

(** ** The raw solution grows with the required percentage *)

Lemma ratio_mono (p1 p2 : float) :
  valid_percent p1 -> valid_percent p2 -> (F2R p1 <= F2R p2)%R ->
  (F2R (ratio_of p1) <= F2R (ratio_of p2))%R.
Proof.
  intros H1 H2 Hle. destruct (ratio_rounds p1 H1) as (R1 & _).
  destruct (ratio_rounds p2 H2) as (R2 & _).
  apply (rounds_mono _ _ _ _ R1 R2). lra.
Qed.

Lemma numerator_mono (c_att c_total : Z) (p1 p2 : float) :
  valid_counts c_att c_total -> valid_percent p1 -> valid_percent p2 ->
  (F2R p1 <= F2R p2)%R ->
  (F2R (numerator_of c_att c_total p1) <= F2R (numerator_of c_att c_total p2))%R.
Proof.
  intros Hc H1 H2 Hle. pose proof (ratio_mono p1 p2 H1 H2 Hle) as HR.
  destruct (product_rounds c_total p1 (proj2 Hc) H1) as (S1 & _).
  destruct (product_rounds c_total p2 (proj2 Hc) H2) as (S2 & _).
  destruct (numerator_rounds c_att c_total p1 Hc H1) as (N1 & _).
  destruct (numerator_rounds c_att c_total p2 Hc H2) as (N2 & _).
  assert (HT : (0 <= IZR c_total)%R) by (apply IZR_le; destruct Hc; lia).
  apply (rounds_mono _ _ _ _ N1 N2).
  assert (F2R (float_mul (ratio_of p1) (int_float c_total))
          <= F2R (float_mul (ratio_of p2) (int_float c_total)))%R; [|lra].
  apply (rounds_mono _ _ _ _ S1 S2). apply Rmult_le_compat_r; assumption.
Qed.

Lemma denominator_mono (p1 p2 : float) :
  valid_percent p1 -> valid_percent p2 -> (F2R p1 <= F2R p2)%R ->
  (F2R (denominator_of p2) <= F2R (denominator_of p1))%R.
Proof.
  intros H1 H2 Hle. pose proof (ratio_mono p1 p2 H1 H2 Hle) as HR.
  destruct (denominator_rounds p1 H1) as (D1 & _).
  destruct (denominator_rounds p2 H2) as (D2 & _).
  apply (rounds_mono _ _ _ _ D2 D1). lra.
Qed.

Lemma raw_solution_mono (c_att c_total : Z) (p1 p2 x1 x2 : float) :
  valid_counts c_att c_total -> valid_percent p1 -> valid_percent p2 ->
  (F2R p1 <= F2R p2)%R -> (F2R p2 < 100)%R ->
  (0 <= F2R (numerator_of c_att c_total p1))%R ->
  raw_solution c_att c_total p1 = Some x1 ->
  raw_solution c_att c_total p2 = Some x2 ->
  (F2R x1 <= F2R x2)%R.
Proof.
  intros Hc H1 H2 Hle H100 HN0 E1 E2.
  destruct (raw_solution_rounds c_att c_total p1 Hc H1 ltac:(lra)) as (y1 & F1 & X1).
  destruct (raw_solution_rounds c_att c_total p2 Hc H2 H100) as (y2 & F2 & X2).
  rewrite E1 in F1. injection F1 as <-. rewrite E2 in F2. injection F2 as <-.
  pose proof (numerator_mono c_att c_total p1 p2 Hc H1 H2 Hle) as HN.
  pose proof (denominator_mono p1 p2 H1 H2 Hle) as HD.
  destruct (denominator_positive p2 H2 H100) as (HD2 & _).
  pose proof (bpow_pos (-53)) as H53.
  apply (rounds_mono _ _ _ _ X1 X2).
  set (N1 := F2R (numerator_of c_att c_total p1)) in *.
  set (N2 := F2R (numerator_of c_att c_total p2)) in *.
  set (D1 := F2R (denominator_of p1)) in *.
  set (D2 := F2R (denominator_of p2)) in *.
  assert (HD1 : (0 < D1)%R) by lra. assert (HD2' : (0 < D2)%R) by lra.
  apply Rle_trans with (N1 / D2)%R.
  - unfold Rdiv. apply Rmult_le_compat_l; [assumption|].
    apply Rinv_le_contravar; assumption.
  - unfold Rdiv. apply Rmult_le_compat_r; [|assumption].
    apply Rlt_le, Rinv_0_lt_compat. assumption.
Qed.

Lemma raw_solution_nonpos (c_att c_total : Z) (p x_float : float) :
  valid_counts c_att c_total -> valid_percent p -> (F2R p < 100)%R ->
  (F2R (numerator_of c_att c_total p) < 0)%R ->
  raw_solution c_att c_total p = Some x_float ->
  (F2R x_float <= 0)%R.
Proof.
  intros Hc Hp H100 HN E.
  destruct (raw_solution_rounds c_att c_total p Hc Hp H100) as (y & F & X).
  rewrite E in F. injection F as <-.
  destruct (denominator_positive p Hp H100) as (HD & _).
  pose proof (bpow_pos (-53)) as H53.
  pose proof (rounds_le_float _ _ f0_0 X I) as H0. cbn [F2R f0_0] in H0.
  apply H0.
  assert (0 < / F2R (denominator_of p))%R by (apply Rinv_0_lt_compat; lra).
  unfold Rdiv. nra.
Qed.

(** ** The three outcomes of the solver on ordinary counts *)


Lemma current_percent_good (c_att c_total : Z) (current_percent : float) :
  valid_counts c_att c_total ->
  current_percent_of c_att c_total = Some current_percent -> good current_percent.
Proof.
  intros Hc E. destruct (current_percent_rounds c_att c_total Hc)
    as (q & _ & Ecp & _ & Hr).
  rewrite Ecp in E. injection E as <-. apply Hr.
Qed.

Lemma required_classes_outcome (c_att c_total : Z) (p : float) :
  ordinary_counts c_att c_total -> valid_percent p ->
  exists current_percent,
    current_percent_of c_att c_total = Some current_percent
    /\ (((F2R p <= F2R current_percent)%R
         /\ calculate_required_classes c_att c_total p
            = Some (0, current_percent, current_percent))
        \/ ((F2R current_percent < F2R p)%R /\ F2R p = 100%R
            /\ calculate_required_classes c_att c_total p
               = Some (-1, current_percent, f0_0))
        \/ ((F2R current_percent < F2R p)%R /\ (F2R p < 100)%R
            /\ exists x_float x_min projected_percent,
                 raw_solution c_att c_total p = Some x_float
                 /\ math_ceil x_float = Some x_min
                 /\ 0 <= x_min
                 /\ calculate_required_classes c_att c_total p
                    = Some (x_min, current_percent, projected_percent))).
Proof.
  intros Ho Hp. pose proof (ordinary_counts_valid _ _ Ho) as Hc.
  destruct (current_percent_rounds c_att c_total Hc) as (q & _ & Ecp & _ & Hr).
  exists (float_mul q f100_0). split; [exact Ecp|].
  pose proof (proj1 Hr) as Hg. pose proof (valid_percent_good p Hp) as Hgp.
  pose proof (valid_percent_F2R p Hp) as Hv.
  destruct (Rle_lt_dec (F2R p) (F2R (float_mul q f100_0))) as [Hmet|Hlt].
  - left. split; [exact Hmet|].
    unfold calculate_required_classes. rewrite Ecp. cbn [bind].
    unfold float_ge. rewrite (proj2 (SFleb_F2R _ _ Hgp Hg) Hmet). reflexivity.
  - right. destruct (Req_dec (F2R p) 100) as [E100|Hne].
    + left. split; [exact Hlt|]. split; [exact E100|].
      unfold calculate_required_classes. rewrite Ecp. cbn [bind].
      assert (T1 : float_ge (float_mul q f100_0) p = false).
      { unfold float_ge. destruct (SFleb p (float_mul q f100_0)) eqn:E; [|reflexivity].
        apply (SFleb_F2R _ _ Hgp Hg) in E. lra. }
      assert (T2 : float_eq p f100_0 = true).
      { apply (SFeqb_F2R _ _ Hgp good_f100_0). rewrite F2R_f100_0. exact E100. }
      rewrite T1, T2. reflexivity.
    + right. assert (H100 : (F2R p < 100)%R) by lra.
      split; [exact Hlt|]. split; [exact H100|].
      exact (deficit_branch_returns _ _ _ _ Ho Hp H100 Ecp Hlt).
Qed.

(** ** A genuine deficit needs at least one class *)





(** * Properties of the solver *)

(** ** Maximum missable classes *)

Lemma spec_affordable_misses_floor (c_att c_total : Z) (p_req : float) (x : Z) :
  spec_affordable_misses c_att c_total p_req x
  = missable_floor c_att c_total (SFdiv prec emax p_req f100_0) x.
Proof.
  unfold spec_affordable_misses, missable_floor. rewrite float_div_100.
  destruct (float_of_int (c_total + x)); cbn [bind]; [|reflexivity].
  destruct (float_of_int c_att); cbn [bind]; [|reflexivity].
  destruct (float_of_int x); reflexivity.
Qed.

(** C2: on every valid input the search scans the window sizes
    [1 .. max_future_classes] in increasing order and returns [(m_int, x)]
    at the first [x] whose value [m_int], the floor of the specification's
    [x - (R * (totalClasses + x) - classesAttended)], is not negative, and
    [(0, 0)] when that value is negative at every window of the range. *)
Theorem max_missable_first_window
  (c_att c_total : Z) (p_req : float) (max_future_classes : Z) :
  valid_counts c_att c_total -> valid_percent p_req ->
  max_future_classes <= max_count ->
  (exists m_int x,
      calculate_max_missable_classes c_att c_total p_req max_future_classes
        = Some (m_int, x)
      /\ 1 <= x <= max_future_classes
      /\ spec_affordable_misses c_att c_total p_req x = Some m_int /\ 0 <= m_int
      /\ forall y, 1 <= y < x ->
           exists m_y, spec_affordable_misses c_att c_total p_req y = Some m_y
                       /\ m_y < 0)
  \/ (calculate_max_missable_classes c_att c_total p_req max_future_classes
        = Some (0, 0)
      /\ forall y, 1 <= y <= max_future_classes ->
           exists m_y, spec_affordable_misses c_att c_total p_req y = Some m_y
                       /\ m_y < 0).
Proof.
  intros Hc Hp Hmax.
  unfold calculate_max_missable_classes. rewrite float_div_100. cbn [bind].
  pose proof (percent_ratio_bounded p_req Hp) as HR.
  destruct (missable_scan_total c_att c_total (SFdiv prec emax p_req f100_0)
              (range 1 (max_future_classes + 1))) as ([m w] & Hscan).
  { intros x Hx. apply In_range in Hx.
    apply missable_floor_total; try assumption. lia. }
  rewrite Hscan.
  destruct (missable_scan_range _ _ _ _ _ _ Hscan)
    as [(Hw & Hfl & Hm & Hpre)|(-> & -> & Hall)].
  - left. exists m, w. split; [reflexivity|]. split; [lia|].
    rewrite spec_affordable_misses_floor. split; [assumption|]. split; [assumption|].
    intros y Hy. rewrite spec_affordable_misses_floor. apply Hpre, Hy.
  - right. split; [reflexivity|]. intros y Hy.
    rewrite spec_affordable_misses_floor. apply Hall. lia.
Qed.

Lemma max_missable_first_window_witness :
  (exists m_int x,
      calculate_max_missable_classes 10 15 f75_0 default_max_future_classes
        = Some (m_int, x)
      /\ 1 <= x <= default_max_future_classes
      /\ spec_affordable_misses 10 15 f75_0 x = Some m_int /\ 0 <= m_int
      /\ forall y, 1 <= y < x ->
           exists m_y, spec_affordable_misses 10 15 f75_0 y = Some m_y /\ m_y < 0)
  \/ (calculate_max_missable_classes 10 15 f75_0 default_max_future_classes
        = Some (0, 0)
      /\ forall y, 1 <= y <= default_max_future_classes ->
           exists m_y, spec_affordable_misses 10 15 f75_0 y = Some m_y /\ m_y < 0).
Proof.
  apply (max_missable_first_window 10 15 f75_0 default_max_future_classes).
  - unfold valid_counts, max_count. lia.
  - repeat split; reflexivity.
  - unfold default_max_future_classes, max_count. lia.
Defined.

(** C10: when the search returns [(m, w)] with [w >= 1], the series value
    at the window size [w] is [m], and at every window size below [w] the
    series value is 0, the unclipped value being negative. *)
Theorem search_agrees_with_series
  (c_att c_total : Z) (p_req : float) (max_future_classes m w : Z) :
  calculate_max_missable_classes c_att c_total p_req max_future_classes = Some (m, w) ->
  1 <= w ->
  missable_entry c_att c_total p_req w = Some m
  /\ forall x, 1 <= x < w ->
       missable_entry c_att c_total p_req x = Some 0
       /\ exists R, float_div p_req f100_0 = Some R /\ no_slack c_att c_total R x.
Proof.
  unfold calculate_max_missable_classes. rewrite float_div_100. cbn [bind].
  intros Hscan Hw.
  destruct (missable_scan_range _ _ _ _ _ _ Hscan)
    as [(_ & Hfl & Hm & Hpre)|(_ & -> & _)]; [|lia].
  split.
  - rewrite missable_entry_floor, Hfl. cbn [bind]. f_equal. lia.
  - intros x Hx. destruct (Hpre x Hx) as (mx & Hfx & Hneg). split.
    + rewrite missable_entry_floor, Hfx. cbn [bind]. f_equal. lia.
    + eexists. split; [reflexivity|]. exists mx. auto.
Qed.

Lemma search_agrees_with_series_witness :
  missable_entry 10 15 f75_0 5 = Some 0
  /\ forall x, 1 <= x < 5 ->
       missable_entry 10 15 f75_0 x = Some 0
       /\ exists R, float_div f75_0 f100_0 = Some R /\ no_slack 10 15 R x.
Proof.
  apply (search_agrees_with_series 10 15 f75_0 default_max_future_classes 0 5).
  - vm_compute. reflexivity.
  - lia.
Defined.

(** ** The chart series *)

Lemma map_fst_combine {A B : Type} (l : list A) : forall (l' : list B),
  length l = length l' -> map fst (combine l l') = l.
Proof.
  induction l as [|a l IH]; intros [|b l'] H; cbn in *;
    try discriminate; try reflexivity.
  f_equal. apply IH. lia.
Qed.

Lemma map_snd_combine {A B : Type} (l : list A) : forall (l' : list B),
  length l = length l' -> map snd (combine l l') = l'.
Proof.
  induction l as [|a l IH]; intros [|b l'] H; cbn in *;
    try discriminate; try reflexivity.
  f_equal. apply IH. lia.
Qed.

Lemma missable_loop_spec (classes_attended total_classes : Z)
  (required_percentage : float) (windows : list Z) : forall acc,
  (forall x, In x windows ->
     exists m_int, missable_floor classes_attended total_classes
                     (SFdiv prec emax required_percentage f100_0) x = Some m_int) ->
  exists data,
    missable_loop classes_attended total_classes required_percentage windows acc
      = Some (acc ++ data)
    /\ Forall2 (fun x v =>
         exists m_int, missable_floor classes_attended total_classes
                         (SFdiv prec emax required_percentage f100_0) x = Some m_int
                       /\ v = Z.max 0 m_int) windows data.
Proof.
  induction windows as [|x rest IH]; intros acc H; cbn [missable_loop].
  - exists []. rewrite app_nil_r. split; [reflexivity|constructor].
  - destruct (H x (or_introl eq_refl)) as (m_int & Hm).
    rewrite missable_entry_floor, Hm. cbn [bind].
    destruct (IH (acc ++ [Z.max 0 m_int])) as (data & E & HF).
    { intros y Hy. apply H. right. exact Hy. }
    exists (Z.max 0 m_int :: data). rewrite E, <- app_assoc. split; [reflexivity|].
    constructor; [|assumption]. exists m_int. auto.
Qed.

(** C5: on every valid input and every finite sequence of window sizes the
    series holds one pair per window size, in the order of the sequence;
    the value paired with [x] is the floored value of the search's formula
    at [x], clipped at 0, so it is never negative. *)
Theorem missable_series_pointwise
  (classes_attended total_classes : Z) (required_percentage : float)
  (windows : list Z) :
  valid_counts classes_attended total_classes ->
  valid_percent required_percentage ->
  Forall (fun x => 0 <= x <= max_count) windows ->
  exists R data,
    float_div required_percentage f100_0 = Some R
    /\ missable_data classes_attended total_classes required_percentage windows
       = Some data
    /\ missable_df classes_attended total_classes required_percentage windows
       = Some (combine windows data)
    /\ length (combine windows data) = length windows
    /\ map fst (combine windows data) = windows
    /\ map snd (combine windows data) = data
    /\ Forall2 (fun x v =>
         exists m_int, missable_floor classes_attended total_classes R x = Some m_int
                       /\ v = Z.max 0 m_int) windows data
    /\ Forall (fun v => 0 <= v) data.
Proof.
  intros Hc Hp Hw.
  pose proof (percent_ratio_bounded required_percentage Hp) as HR.
  destruct (missable_loop_spec classes_attended total_classes required_percentage
              windows []) as (data & E & HF).
  { intros x Hx. rewrite Forall_forall in Hw.
    apply missable_floor_total; auto. }
  cbn [app] in E.
  exists (SFdiv prec emax required_percentage f100_0), data.
  assert (Hlen : length windows = length data) by (eapply Forall2_length; eassumption).
  unfold missable_df, missable_data. rewrite E. cbn [bind].
  repeat split; try reflexivity; try assumption.
  - rewrite length_combine. lia.
  - apply map_fst_combine, Hlen.
  - apply map_snd_combine, Hlen.
  - clear E Hlen Hw Hc. induction HF as [|x v xs vs (m_int & _ & ->) _ IH]; constructor.
    + lia.
    + apply IH.
Qed.

Lemma missable_series_pointwise_witness :
  exists R data,
    float_div f75_0 f100_0 = Some R
    /\ missable_data 10 15 f75_0 future_classes_range = Some data
    /\ missable_df 10 15 f75_0 future_classes_range
       = Some (combine future_classes_range data)
    /\ length (combine future_classes_range data) = length future_classes_range
    /\ map fst (combine future_classes_range data) = future_classes_range
    /\ map snd (combine future_classes_range data) = data
    /\ Forall2 (fun x v =>
         exists m_int, missable_floor 10 15 R x = Some m_int
                       /\ v = Z.max 0 m_int) future_classes_range data
    /\ Forall (fun v => 0 <= v) data.
Proof.
  apply (missable_series_pointwise 10 15 f75_0 future_classes_range).
  - unfold valid_counts, max_count. lia.
  - repeat split; reflexivity.
  - apply Forall_forall. intros x Hx. apply In_range in Hx. unfold max_count. lia.
Defined.

(** ** Required classes *)

Lemma current_percent_total (c_att c_total : Z) :
  0 <= c_att <= c_total -> 1 <= c_total ->
  exists current_percent, current_percent_of c_att c_total = Some current_percent.
Proof.
  intros Ha Ht. destruct (int_true_div_bounded c_att c_total Ha Ht) as (q & E & _).
  unfold current_percent_of. rewrite E. cbn [bind]. eauto.
Qed.

(** C3: when the counts are valid and the specification's current
    percentage, [classesAttended / totalClasses * 100], is at least the
    required one, the result is 0 additional classes and a projected
    percentage equal to that current percentage. *)
Theorem required_classes_already_met (c_att c_total : Z) (p_req : float) :
  0 <= c_att <= c_total -> 1 <= c_total ->
  exists current_percent,
    spec_current_percent c_att c_total = Some current_percent
    /\ (float_ge current_percent p_req = true ->
        calculate_required_classes c_att c_total p_req
        = Some (0, current_percent, current_percent)).
Proof.
  intros Ha Ht. destruct (int_true_div_bounded c_att c_total Ha Ht) as (q & E & _).
  exists (float_mul q f100_0). unfold spec_current_percent. rewrite E.
  split; [reflexivity|]. intros Hge.
  unfold calculate_required_classes, current_percent_of. rewrite E. cbn [bind].
  rewrite Hge. reflexivity.
Qed.

Lemma required_classes_already_met_witness :
  calculate_required_classes 10 15 f60_0 = Some (0, f66_666, f66_666).
Proof.
  destruct (required_classes_already_met 10 15 f60_0) as (cp & E & H);
    [lia|lia|].
  vm_compute in E. injection E as <-. apply H. reflexivity.
Defined.

Lemma SFeqb_finite_eq (x : float) (m : positive) (e : Z) :
  SFeqb x (S754_finite false m e) = true -> x = S754_finite false m e.
Proof.
  unfold SFeqb. destruct x as [s|s| |s mx ex]; cbn [SFcompare]; try discriminate.
  - destruct s; discriminate.
  - destruct s; [discriminate|].
    destruct (Z.compare_spec ex e) as [->|_|_]; try discriminate.
    rewrite Pos.compare_cont_spec. cbn [Pos.switch_Eq].
    destruct (Pos.compare_spec mx m) as [->|_|_]; try discriminate. reflexivity.
Qed.

(** C4: when the counts are valid, the required percentage is 100 and
    fewer classes were attended than conducted, the result is the sentinel
    -1 with a projected percentage of 0.0; it is a returned value, no
    exception is raised. *)
Theorem required_classes_unreachable (c_att c_total : Z) (p_req : float) :
  valid_counts c_att c_total -> c_att < c_total ->
  float_eq p_req f100_0 = true ->
  exists current_percent,
    current_percent_of c_att c_total = Some current_percent
    /\ calculate_required_classes c_att c_total p_req
       = Some (-1, current_percent, f0_0).
Proof.
  intros Hc Hlt Hp.
  destruct (current_percent_below_100 c_att c_total Hc Hlt) as (cp & E & Hcp).
  exists cp. split; [assumption|].
  unfold calculate_required_classes. rewrite E. cbn [bind].
  assert (Hp' : p_req = f100_0) by (apply SFeqb_finite_eq; exact Hp).
  rewrite Hp' in *.
  rewrite Hcp. reflexivity.
Qed.

Lemma required_classes_unreachable_witness :
  exists current_percent,
    current_percent_of 0 5 = Some current_percent
    /\ calculate_required_classes 0 5 f100_0 = Some (-1, current_percent, f0_0).
Proof.
  apply (required_classes_unreachable 0 5 f100_0).
  - unfold valid_counts, max_count. lia.
  - lia.
  - reflexivity.
Defined.

(** C7: on 10 of 15 classes with a target of 75 the result is 5
    additional classes, a projected percentage of 75.0, and a current
    percentage which the two-decimal format of the page (line 104) shows
    as 66.67; it is the float 4691249611844266 * 2^-46. *)
Theorem example_10_of_15_at_75 :
  calculate_required_classes 10 15 f75_0 = Some (5, f66_666, f75_0)
  /\ format_2f f66_666 = Some 6667
  /\ format_2f f75_0 = Some 7500.
Proof. vm_compute. repeat split; reflexivity. Qed.

(** With no class attended out of 10 and a target of 90, the raw solution
    is 90.00000000000001, one unit in the last place above 90.0: in
    binary64 [1.0 - 0.9] is 0.09999999999999998. *)
Example raw_solution_0_of_10_at_90 :
  float_div f90_0 f100_0 = Some (S754_finite false 8106479329266893 (-53))
  /\ float_sub f1_0 (S754_finite false 8106479329266893 (-53))
     = S754_finite false 7205759403792792 (-56)
  /\ raw_solution 0 10 f90_0 = Some (S754_finite false 6333186975989761 (-46)).
Proof. vm_compute. repeat split; reflexivity. Qed.

(** C1, at the input where the code departs from it: with no class
    attended out of 10 and a target of 90 the function returns 91, while
    90 additional classes already reach the target, so 91 is not the
    smallest solution. *)
Theorem required_classes_not_minimal :
  valid_counts 0 10 /\ valid_percent f90_0
  /\ (exists current_percent projected_percent,
        calculate_required_classes 0 10 f90_0
        = Some (91, current_percent, projected_percent)
        /\ float_ge current_percent f90_0 = false)
  /\ meets_target 0 10 f90_0 (91 - 1)
  /\ (exists q, int_true_div (0 + 91 - 1) (10 + 91 - 1) = Some q
                /\ float_div f90_0 f100_0 = Some q).
Proof.
  split; [unfold valid_counts, max_count; lia|].
  split; [repeat split; reflexivity|].
  split; [eexists; eexists; split; vm_compute; reflexivity|].
  split; [vm_compute; intros H; discriminate H|].
  eexists. split; vm_compute; reflexivity.
Qed.

(** ** The deficit branch *)




(** ** Monotonicity in the required percentage *)

(** C6 as stated fails: raising the target from 75 to 100 lowers the result
    from 5 to the sentinel -1. *)
Lemma required_classes_not_monotone :
  ~ (forall c_att c_total p1 p2 x1 x2 cp1 cp2 pp1 pp2,
       valid_counts c_att c_total -> valid_percent p1 -> valid_percent p2 ->
       float_ge p2 p1 = true ->
       calculate_required_classes c_att c_total p1 = Some (x1, cp1, pp1) ->
       calculate_required_classes c_att c_total p2 = Some (x2, cp2, pp2) ->
       x1 <= x2).
Proof.
  intros H.
  assert (H0 : 5 <= -1); [|lia].
  apply (H 10 15 f75_0 f100_0 5 (-1) f66_666 f66_666 f75_0 f0_0).
  - unfold valid_counts, max_count. lia.
  - repeat split; reflexivity.
  - repeat split; reflexivity.
  - reflexivity.
  - vm_compute. reflexivity.
  - vm_compute. reflexivity.
Qed.

(** C6, amended: on valid counts with a total of at most 2^24 and two
    valid targets [p1 <= p2], both calls return; when [p2] is not 100 the
    results are counts and the one for [p2] is not smaller than the one
    for [p1]; when [p2] is 100 and a class was missed, the result for [p2]
    is the sentinel -1, below the count returned for every [p1] other than
    100. *)
Theorem required_classes_monotone_below_100 (c_att c_total : Z) (p1 p2 : float) :
  ordinary_counts c_att c_total -> valid_percent p1 -> valid_percent p2 ->
  float_ge p2 p1 = true ->
  exists x1 x2 current_percent projected1 projected2,
    calculate_required_classes c_att c_total p1
    = Some (x1, current_percent, projected1)
    /\ calculate_required_classes c_att c_total p2
       = Some (x2, current_percent, projected2)
    /\ (float_eq p2 f100_0 = false -> 0 <= x1 <= x2)
    /\ (float_eq p2 f100_0 = true -> c_att < c_total ->
        x2 = -1 /\ (float_eq p1 f100_0 = false -> 0 <= x1)).
Proof.
  intros Ho Hp1 Hp2 Hle. pose proof (ordinary_counts_valid _ _ Ho) as Hc.
  pose proof (valid_percent_good p1 Hp1) as Hg1.
  pose proof (valid_percent_good p2 Hp2) as Hg2.
  pose proof (valid_percent_F2R p1 Hp1) as Hv1.
  pose proof (valid_percent_F2R p2 Hp2) as Hv2.
  unfold float_ge in Hle. apply (SFleb_F2R _ _ Hg1 Hg2) in Hle.
  assert (Heq : forall p, good p ->
            (float_eq p f100_0 = true <-> F2R p = 100%R)).
  { intros p Hg. unfold float_eq. rewrite <- F2R_f100_0.
    apply SFeqb_F2R; [exact Hg|exact good_f100_0]. }
  destruct (required_classes_outcome c_att c_total p1 Ho Hp1) as (cp & Ecp & O1).
  destruct (required_classes_outcome c_att c_total p2 Ho Hp2) as (cp' & Ecp' & O2).
  rewrite Ecp in Ecp'. injection Ecp' as <-.
  assert (Hcp100 : c_att < c_total -> (F2R cp < 100)%R).
  { intros Hlt.
    destruct (current_percent_below_100 c_att c_total Hc Hlt) as (cp' & E' & Hb).
    rewrite Ecp in E'. injection E' as <-. unfold float_ge in Hb.
    destruct (Rlt_le_dec (F2R cp) 100) as [|Hge]; [assumption|exfalso].
    rewrite <- F2R_f100_0 in Hge.
    apply (SFleb_F2R _ _ good_f100_0 (current_percent_good _ _ _ Hc Ecp)) in Hge.
    congruence. }
  destruct O2 as [(M2 & E2)|[(L2 & C2 & E2)|(L2 & C2 & x2 & c2 & pp2 & R2 & K2 & P2 & E2)]].
  - (* the higher target is met: so is the lower one *)
    destruct O1 as [(M1 & E1)|[(L1 & _)|(L1 & _)]]; try (exfalso; lra).
    exists 0, 0, cp, cp, cp. split; [exact E1|]. split; [exact E2|]. split.
    + intros _. lia.
    + intros H100 Hlt. exfalso. apply (Heq p2 Hg2) in H100.
      specialize (Hcp100 Hlt). lra.
  - (* the higher target is 100 and not met *)
    destruct O1 as [(M1 & E1)|[(L1 & C1 & E1)|(L1 & C1 & x1 & c1 & pp1 & R1 & K1 & P1 & E1)]].
    + exists 0, (-1), cp, cp, f0_0. split; [exact E1|]. split; [exact E2|]. split.
      * intros H100. exfalso. apply (Heq p2 Hg2) in C2. congruence.
      * intros _ _. split; [reflexivity|]. intros _. lia.
    + exists (-1), (-1), cp, f0_0, f0_0. split; [exact E1|]. split; [exact E2|]. split.
      * intros H100. exfalso. apply (Heq p2 Hg2) in C2. congruence.
      * intros _ _. split; [reflexivity|]. intros H1. exfalso.
        apply (Heq p1 Hg1) in C1. congruence.
    + exists c1, (-1), cp, pp1, f0_0. split; [exact E1|]. split; [exact E2|]. split.
      * intros H100. exfalso. apply (Heq p2 Hg2) in C2. congruence.
      * intros _ _. split; [reflexivity|]. intros _. exact P1.
  - (* the higher target is below 100 and not met *)
    assert (N100 : float_eq p2 f100_0 = true -> False).
    { intros H100. apply (Heq p2 Hg2) in H100. lra. }
    destruct O1 as [(M1 & E1)|[(L1 & C1 & E1)|(L1 & C1 & x1 & c1 & pp1 & R1 & K1 & P1 & E1)]].
    + exists 0, c2, cp, cp, pp2. split; [exact E1|]. split; [exact E2|]. split.
      * intros _. lia.
      * intros H100. destruct (N100 H100).
    + exfalso. lra.
    + exists c1, c2, cp, pp1, pp2. split; [exact E1|]. split; [exact E2|]. split.
      * intros _. split; [exact P1|].
        destruct (Rlt_le_dec (F2R (numerator_of c_att c_total p1)) 0) as [Hneg|Hpos].
        -- pose proof (raw_solution_nonpos _ _ _ _ Hc Hp1 C1 Hneg R1) as X1.
           pose proof (math_ceil_F2R _ _ K1) as B1.
           assert (c1 <= 0); [|lia].
           apply Z.lt_succ_r. apply lt_IZR. unfold Z.succ. rewrite plus_IZR. lra.
        -- apply (math_ceil_mono x1 x2 c1 c2 K1 K2).
           exact (raw_solution_mono _ _ _ _ _ _ Hc Hp1 Hp2 Hle C2 Hpos R1 R2).
      * intros H100. destruct (N100 H100).
Qed.

Lemma required_classes_monotone_below_100_witness :
  exists x1 x2 current_percent projected1 projected2,
    calculate_required_classes 10 15 f60_0 = Some (x1, current_percent, projected1)
    /\ calculate_required_classes 10 15 f75_0
       = Some (x2, current_percent, projected2)
    /\ 0 <= x1 <= x2.
Proof.
  destruct (required_classes_monotone_below_100 10 15 f60_0 f75_0)
    as (x1 & x2 & cp & pp1 & pp2 & E1 & E2 & H & _).
  - unfold ordinary_counts, max_ordinary_total. lia.
  - repeat split; reflexivity.
  - repeat split; reflexivity.
  - reflexivity.
  - exists x1, x2, cp, pp1, pp2. split; [exact E1|]. split; [exact E2|].
    apply H. reflexivity.
Defined.

(** Below 100 the rounding of the closed form also breaks the order at
    counts near [2^52]: one more unit in the last place of the target turns
    the result 0 into -1. *)
Example rounding_breaks_order_below_100 :
  let c_att := 2914382858285985 in
  let c_total := 4679802604719659 in
  let p1 := S754_finite false 8764534708522431 (-47) in
  let p2 := S754_finite false 8764534708522432 (-47) in
  valid_counts c_att c_total /\ valid_percent p1 /\ valid_percent p2
  /\ float_ge p2 p1 = true /\ float_lt p2 f100_0 = true
  /\ calculate_required_classes c_att c_total p1 = Some (0, p1, p1)
  /\ exists projected_percent,
       calculate_required_classes c_att c_total p2 = Some (-1, p1, projected_percent).
Proof.
  cbv zeta. split; [unfold valid_counts, max_count; lia|].
  split; [repeat split; reflexivity|]. split; [repeat split; reflexivity|].
  split; [reflexivity|]. split; [reflexivity|].
  split; [vm_compute; reflexivity|]. eexists. vm_compute. reflexivity.
Qed.

(** * Further properties *)

(** ** The range of the percentages *)

Lemma int_true_div_self (a : Z) : 1 <= a -> int_true_div a a = Some f1_0.
Proof.
  intros Ha. unfold int_true_div.
  replace (a =? 0) with false by (symmetry; apply Z.eqb_neq; lia).
  destruct a as [|pa|pa]; try lia. cbn [Z.abs].
  pose proof (SFdiv_core_binary_spec pa pa 0 0) as H. cbv zeta in H.
  unfold prec, emax. change (Z.pos pa <? 0) with false. cbn [xorb].
  destruct (SFdiv_core_binary 53 1024 (Z.pos pa) 0 (Z.pos pa) 0) as [[q e'] l].
  destruct H as (Hq & He & Hm & He' & Hqv).
  replace (Z.pos (digits2_pos pa) + 0 - (Z.pos (digits2_pos pa) + 0)) with 0 in He' by lia.
  rewrite fexp64_eq in He'.
  assert (Ee : e' = -53) by lia. clear He'. subst e'.
  replace (0 - 0 - -53) with 53 in Hqv by lia.
  assert (Hq53 : q = 2 ^ 53).
  { rewrite Hqv, Z.mul_comm. apply Z.div_mul. lia. }
  clear Hqv. subst q.
  change (Zdigits2 (2 ^ 53)) with 54 in He.
  destruct (binary_round_aux_cases false (2 ^ 53) (-53) l ltac:(lia) He ltac:(simpl; lia))
    as (m1 & Hm1 & Hhalf & Hcases).
  change (Zdigits2 (2 ^ 53)) with 54 in Hm1, Hhalf, Hcases.
  change (fexp64 (54 + -53)) with (-52) in Hm1, Hhalf, Hcases.
  change (2 ^ 53 / 2 ^ (-52 - -53)) with 4503599627370496 in Hm1.
  assert (Hh : shr_h (shr_record_of_loc (2 ^ 53) l) / 2 ^ (-52 - -53)
               = 9007199254740992).
  { unfold shr_h. rewrite shr_record_of_loc_m.
    change (2 ^ (-52 - -53)) with 2. change (2 * 2 ^ 53) with (9007199254740992 * 2).
    destruct (shr_r (shr_record_of_loc (2 ^ 53) l)).
    - symmetry. apply Z.div_unique with (r := 1); lia.
    - symmetry. apply Z.div_unique with (r := 0); lia. }
  rewrite Hh in Hhalf.
  assert (Hm1v : m1 = 4503599627370496) by lia.
  destruct Hcases as [[H0 _]|[(p & Hp & _ & _ & _ & ->)|(Hc & _ & _)]].
  - lia.
  - assert (p = 4503599627370496%positive) by lia. subst p. reflexivity.
  - change (2 ^ 53) with 9007199254740992 in Hc. lia.
Qed.

Lemma binary_round_aux_nonneg (m e : Z) (l : location) :
  0 <= m -> e <= fexp64 (Zdigits2 m + e) -> Zdigits2 m + e <= 1023 ->
  nonneg_float (binary_round_aux 53 1024 false m e l).
Proof.
  intros Hm He Hk.
  destruct (binary_round_aux_cases false m e l Hm He Hk)
    as (m1 & _ & _ & [[_ ->]|[(p & _ & _ & _ & _ & ->)|(_ & _ & ->)]]); exact I.
Qed.

Lemma int_true_div_le_one (a b : Z) :
  0 <= a <= b -> 1 <= b ->
  exists q, int_true_div a b = Some q /\ nonneg_float q
            /\ (bounded_mag 0 q \/ q = f1_0).
Proof.
  intros Ha Hb. destruct (Z.eq_dec a b) as [->|Hne].
  { exists f1_0. split; [apply int_true_div_self; lia|]. split; [exact I|]. auto. }
  unfold int_true_div.
  replace (b =? 0) with false by (symmetry; apply Z.eqb_neq; lia).
  destruct a as [|pa|pa]; try lia.
  { eexists. split; [reflexivity|]. split; [exact I|]. left. exact I. }
  destruct b as [|pb|pb]; try lia. cbn [Z.abs].
  pose proof (SFdiv_core_binary_spec pa pb 0 0) as H. cbv zeta in H.
  pose proof (Zdigits2_mono (Zpos pa) (Zpos pb) ltac:(lia)) as Hd.
  cbn [Zdigits2] in Hd.
  unfold prec, emax.
  change (Z.pos pa <? 0) with false. change (Z.pos pb <? 0) with false. cbn [xorb].
  destruct (SFdiv_core_binary 53 1024 (Z.pos pa) 0 (Z.pos pb) 0) as [[q e'] l].
  set (da := Zpos (digits2_pos pa)) in *. set (db := Zpos (digits2_pos pb)) in *.
  destruct H as (Hq & He & Hm & He' & Hqv).
  assert (Hnn : nonneg_float (binary_round_aux 53 1024 false q e' l))
    by (apply binary_round_aux_nonneg; lia).
  destruct (Z_le_gt_dec (da - db) (-2)) as [Hfar|Hnear].
  - (* the quotient is below 1/2 *)
    assert (Hbd : bounded_mag (-1 + 1) (binary_round_aux 53 1024 false q e' l))
      by (apply binary_round_aux_bounded; lia).
    eexists. split; [apply (checked_bounded _ _ Hbd)|]. split; [exact Hnn|]. left. exact Hbd.
  - rewrite fexp64_eq in He'.
    assert (Ee : e' = da - db - 53) by lia.
    replace (0 - 0 - e') with (- e') in Hqv by lia.
    pose proof (pow2_pos (- e') ltac:(lia)) as Hpe.
    assert (Hqlt : q < 2 ^ (- e')).
    { rewrite Hqv. apply Z.div_lt_upper_bound; [lia|]. nia. }
    assert (HD : Zdigits2 q <= - e') by (apply Zdigits2_le; lia).
    rewrite fexp64_eq in He.
    destruct (binary_round_aux_cases false q e' l Hq
                ltac:(rewrite fexp64_eq; lia) ltac:(lia))
      as (m1 & _ & _ & Hcases).
    rewrite fexp64_eq in Hcases.
    set (D := Zdigits2 q) in *.
    assert (HE : Z.max (D + e' - 53) (-1074) = D + e' - 53) by lia.
    rewrite HE in Hcases.
    destruct Hcases as [[_ ->]|[(p & _ & Hp53 & Hc & _ & ->)|(_ & _ & ->)]].
    + eexists. split; [reflexivity|]. split; [exact I|]. left. exact I.
    + eexists. split; [reflexivity|]. split; [exact I|]. left.
      cbn [bounded_mag]. rewrite fexp64_eq in Hc. rewrite fexp64_eq. split; lia.
    + eexists. split; [reflexivity|]. split; [exact I|].
      destruct (Z_le_gt_dec (D + e') (-1)) as [|Hgt].
      * left. cbn [bounded_mag]. change (Z.pos (digits2_pos 4503599627370496)) with 53.
        rewrite fexp64_eq. split; lia.
      * right. unfold f1_0. f_equal. lia.
Qed.

(** The order of two finite floats is total. *)
Lemma SFleb_total (x y : float) :
  is_finite x = true -> is_finite y = true -> SFleb x y = false -> SFleb y x = true.
Proof.
  destruct x as [sx|sx| |sx mx ex], y as [sy|sy| |sy my ey];
    try discriminate; try (destruct sx); try (destruct sy);
    try reflexivity; try discriminate; intros _ _ H.
  - apply SFleb_negative. destruct (Z_lt_ge_dec ex ey) as [|Hge]; [auto|].
    destruct (Z.eq_dec ex ey) as [->|]; [|exfalso].
    + destruct (Z_le_gt_dec (Zpos mx) (Zpos my)); [auto|exfalso].
      assert (C : SFleb (S754_finite true mx ey) (S754_finite true my ey) = true)
        by (apply SFleb_negative; lia). congruence.
    + assert (C : SFleb (S754_finite true mx ex) (S754_finite true my ey) = true)
        by (apply SFleb_negative; lia). congruence.
  - apply SFleb_positive. destruct (Z_lt_ge_dec ey ex) as [|Hge]; [auto|].
    destruct (Z.eq_dec ex ey) as [->|]; [|exfalso].
    + destruct (Z_le_gt_dec (Zpos my) (Zpos mx)); [auto|exfalso].
      assert (C : SFleb (S754_finite false mx ey) (S754_finite false my ey) = true)
        by (apply SFleb_positive; lia). congruence.
    + assert (C : SFleb (S754_finite false mx ex) (S754_finite false my ey) = true)
        by (apply SFleb_positive; lia). congruence.
Qed.

Lemma percent_in_range (q : float) :
  nonneg_float q -> bounded_mag 0 q \/ q = f1_0 ->
  is_finite (float_mul q f100_0) = true
  /\ nonneg_float (float_mul q f100_0)
  /\ float_ge (float_mul q f100_0) f0_0 = true
  /\ float_ge f100_0 (float_mul q f100_0) = true.
Proof.
  intros Hn [Hb| ->]; [|repeat split; reflexivity].
  assert (Hm : bounded_mag 8 (float_mul q f100_0)).
  { apply (SFmul_bounded q f100_0 0 7 7); try assumption; try lia.
    cbn. split; [reflexivity|lia]. }
  assert (Hfin : is_finite (float_mul q f100_0) = true)
    by (apply (bounded_mag_finite 8), Hm).
  assert (Hnn : nonneg_float (float_mul q f100_0)).
  { unfold float_mul. destruct q as [s|s| |s mq eq]; cbn [nonneg_float bounded_mag] in *;
      try tauto.
    destruct s; [tauto|]. destruct Hb as [Hc Hk]. rewrite fexp64_eq in Hc.
    unfold f100_0. rewrite SFmul_finite. cbn [xorb].
    pose proof (Zdigits2_mul mq 7036874417766400) as [Hdlo Hdhi].
    change (Zpos (digits2_pos 7036874417766400)) with 53 in Hdlo, Hdhi.
    apply binary_round_aux_nonneg; cbn [Zdigits2]; try lia.
    rewrite fexp64_eq. lia. }
  split; [assumption|]. split; [assumption|]. split.
  - unfold float_ge. destruct (float_mul q f100_0) as [s|s| |s m e];
      cbn [nonneg_float] in Hnn; try tauto; try reflexivity.
    destruct s; [tauto|reflexivity].
  - unfold float_ge. apply SFleb_total; [reflexivity|assumption|].
    apply percent_below_100; assumption.
Qed.

(** X1: for every count of attended classes between 0 and the positive
    total, the current percentage is computed without fault and lies
    between 0.0 and 100.0. *)
Theorem current_percent_in_range (c_att c_total : Z) :
  0 <= c_att <= c_total -> 1 <= c_total ->
  exists current_percent,
    current_percent_of c_att c_total = Some current_percent
    /\ float_ge current_percent f0_0 = true
    /\ float_ge f100_0 current_percent = true.
Proof.
  intros Ha Ht.
  destruct (int_true_div_le_one c_att c_total Ha Ht) as (q & E & Hn & Hq).
  destruct (percent_in_range q Hn Hq) as (_ & _ & H0 & H100).
  exists (float_mul q f100_0). unfold current_percent_of. rewrite E. cbn [bind]. auto.
Qed.

Lemma current_percent_in_range_witness :
  exists current_percent,
    current_percent_of 10 15 = Some current_percent
    /\ float_ge current_percent f0_0 = true
    /\ float_ge f100_0 current_percent = true.
Proof. apply (current_percent_in_range 10 15); lia. Defined.

(** X2: on valid counts the current percentage reaches 100.0 exactly when
    every class was attended; otherwise it is below 100.0. *)
Theorem current_percent_100_iff_all_attended (c_att c_total : Z) :
  valid_counts c_att c_total ->
  exists current_percent,
    current_percent_of c_att c_total = Some current_percent
    /\ float_ge current_percent f100_0 = (c_att =? c_total)
    /\ (c_att = c_total -> current_percent = f100_0).
Proof.
  intros Hc. destruct (Z.eq_dec c_att c_total) as [->|Hne].
  - exists f100_0. unfold current_percent_of.
    rewrite int_true_div_self by (destruct Hc; lia). cbn [bind].
    rewrite Z.eqb_refl. repeat split.
  - destruct (current_percent_below_100 c_att c_total Hc) as (cp & E & Hlt).
    { destruct Hc. lia. }
    exists cp. split; [assumption|]. rewrite Hlt. split; [|tauto].
    symmetry. apply Z.eqb_neq. exact Hne.
Qed.

Lemma current_percent_100_iff_all_attended_witness :
  exists current_percent,
    current_percent_of 14 15 = Some current_percent
    /\ float_ge current_percent f100_0 = (14 =? 15)
    /\ (14 = 15 -> current_percent = f100_0).
Proof.
  apply (current_percent_100_iff_all_attended 14 15).
  unfold valid_counts, max_count. lia.
Defined.

(** X3: when every class was attended, the result is 0 additional classes
    with both percentages 100.0, for every required percentage up to 100;
    the sentinel is never returned. *)
Theorem full_attendance_needs_nothing (c_total : Z) (p_req : float) :
  1 <= c_total -> float_ge f100_0 p_req = true ->
  calculate_required_classes c_total c_total p_req = Some (0, f100_0, f100_0).
Proof.
  intros Ht Hp. unfold calculate_required_classes, current_percent_of.
  rewrite int_true_div_self by lia. cbn [bind].
  change (float_mul f1_0 f100_0) with f100_0. rewrite Hp. reflexivity.
Qed.

Lemma full_attendance_needs_nothing_witness :
  calculate_required_classes 15 15 f100_0 = Some (0, f100_0, f100_0).
Proof. apply (full_attendance_needs_nothing 15 f100_0); [lia|reflexivity]. Defined.

(** X4: a required percentage of 0.0 or less is met by every attendance:
    the result is 0 additional classes. *)
Theorem zero_target_is_met (c_att c_total : Z) (p_req : float) :
  0 <= c_att <= c_total -> 1 <= c_total -> float_ge f0_0 p_req = true ->
  exists current_percent,
    calculate_required_classes c_att c_total p_req
    = Some (0, current_percent, current_percent).
Proof.
  intros Ha Ht Hp.
  destruct (int_true_div_le_one c_att c_total Ha Ht) as (q & E & Hn & Hq).
  destruct (percent_in_range q Hn Hq) as (_ & _ & H0 & _).
  exists (float_mul q f100_0).
  unfold calculate_required_classes, current_percent_of. rewrite E. cbn [bind].
  replace (float_ge (float_mul q f100_0) p_req) with true; [reflexivity|].
  symmetry. unfold float_ge in *. apply (SFleb_trans p_req f0_0); assumption.
Qed.

Lemma zero_target_is_met_witness :
  exists current_percent,
    calculate_required_classes 0 15 f0_0 = Some (0, current_percent, current_percent).
Proof. apply (zero_target_is_met 0 15 f0_0); [lia|lia|reflexivity]. Defined.

(** X5: whenever the function returns a count that is not negative, or is
    asked for 100 percent, both percentages it returns lie between 0.0 and
    100.0. *)
Theorem returned_percentages_in_range
  (c_att c_total x_min : Z) (p_req current_percent projected_percent : float) :
  0 <= c_att <= c_total -> 1 <= c_total ->
  calculate_required_classes c_att c_total p_req
  = Some (x_min, current_percent, projected_percent) ->
  0 <= x_min \/ float_eq p_req f100_0 = true ->
  (float_ge current_percent f0_0 = true /\ float_ge f100_0 current_percent = true)
  /\ (float_ge projected_percent f0_0 = true
      /\ float_ge f100_0 projected_percent = true).
Proof.
  intros Ha Ht Hres Hx.
  destruct (current_percent_total c_att c_total Ha Ht) as (cp & Ecp).
  destruct (int_true_div_le_one c_att c_total Ha Ht) as (q & Eq & Hn & Hq).
  destruct (percent_in_range q Hn Hq) as (_ & _ & H0 & H100).
  unfold calculate_required_classes, current_percent_of in Hres.
  rewrite Eq in Hres. cbn [bind] in Hres.
  destruct (float_ge (float_mul q f100_0) p_req).
  { inversion Hres; subst. auto. }
  destruct (float_eq p_req f100_0).
  { inversion Hres; subst. repeat split; auto. }
  destruct Hx as [Hx|Hx]; [|discriminate].
  destruct (float_div p_req f100_0) as [R|]; cbn [bind] in Hres; [|discriminate].
  destruct (float_of_int c_total) as [ft|]; cbn [bind] in Hres; [|discriminate].
  destruct (float_of_int c_att) as [fa|]; cbn [bind] in Hres; [|discriminate].
  destruct (float_div _ _) as [x_float|]; cbn [bind] in Hres; [|discriminate].
  destruct (math_ceil x_float) as [x|]; cbn [bind] in Hres; [|discriminate].
  destruct (int_true_div (c_att + x) (c_total + x)) as [q'|] eqn:Eq';
    cbn [bind] in Hres; [|discriminate].
  inversion Hres; subst.
  destruct (int_true_div_le_one (c_att + x_min) (c_total + x_min))
    as (q'' & Eq'' & Hn' & Hq'); [lia|lia|].
  rewrite Eq' in Eq''. inversion Eq''; subst.
  destruct (percent_in_range q'' Hn' Hq') as (_ & _ & H0' & H100'). auto.
Qed.

Lemma returned_percentages_in_range_witness :
  (float_ge f66_666 f0_0 = true /\ float_ge f100_0 f66_666 = true)
  /\ (float_ge f75_0 f0_0 = true /\ float_ge f100_0 f75_0 = true).
Proof.
  apply (returned_percentages_in_range 10 15 5 f75_0 f66_666 f75_0).
  - lia.
  - lia.
  - vm_compute. reflexivity.
  - left. lia.
Defined.

(** ** The search and its ceiling *)

Lemma range_app (lo mid hi : Z) :
  lo <= mid <= hi -> range lo hi = range lo mid ++ range mid hi.
Proof.
  remember (Z.to_nat (mid - lo)) as n eqn:En. revert lo En.
  induction n as [|n IH]; intros lo En H.
  - replace mid with lo by lia. rewrite (range_nil lo lo) by lia. reflexivity.
  - rewrite (range_cons lo hi), (range_cons lo mid) by lia.
    cbn [app]. f_equal. apply IH; lia.
Qed.

Lemma missable_scan_found (c_att c_total : Z) (R : float)
  (pre rest : list Z) (m w : Z) :
  Forall (no_slack c_att c_total R) pre ->
  missable_floor c_att c_total R w = Some m -> 0 <= m ->
  missable_scan c_att c_total R (pre ++ w :: rest) = Some (m, w).
Proof.
  intros Hpre Hw Hm. induction Hpre as [|x pre (mx & Hx & Hneg) _ IH];
    cbn [app missable_scan].
  - rewrite Hw. cbn [bind].
    replace (0 <=? m) with true by (symmetry; apply Z.leb_le; lia). reflexivity.
  - rewrite Hx. cbn [bind].
    replace (0 <=? mx) with false by (symmetry; apply Z.leb_gt; lia). exact IH.
Qed.

(** X6: a window that the search finds under one ceiling is the result
    under every larger ceiling. *)
Theorem found_window_survives_larger_ceiling
  (c_att c_total : Z) (p_req : float) (max_future_classes larger m w : Z) :
  calculate_max_missable_classes c_att c_total p_req max_future_classes
  = Some (m, w) ->
  1 <= w -> max_future_classes <= larger ->
  calculate_max_missable_classes c_att c_total p_req larger = Some (m, w).
Proof.
  unfold calculate_max_missable_classes. rewrite float_div_100. cbn [bind].
  intros Hscan Hw Hle.
  destruct (missable_scan_inv _ _ _ _ _ _ Hscan)
    as [(pre & post & E & Hfl & Hm & Hpre)|(_ & -> & _)]; [|lia].
  destruct (range_split _ _ _ _ _ E) as [Hr _].
  rewrite (range_app 1 (max_future_classes + 1) (larger + 1)) by lia.
  rewrite E, <- app_assoc. cbn [app].
  apply missable_scan_found; assumption.
Qed.

Lemma found_window_survives_larger_ceiling_witness :
  calculate_max_missable_classes 10 15 f75_0 100 = Some (0, 5).
Proof.
  apply (found_window_survives_larger_ceiling 10 15 f75_0 50 100 0 5).
  - vm_compute. reflexivity.
  - lia.
  - lia.
Defined.

(** ** The chart loop *)

Lemma missable_loop_acc (classes_attended total_classes : Z)
  (required_percentage : float) (windows : list Z) : forall acc,
  missable_loop classes_attended total_classes required_percentage windows acc
  = match missable_loop classes_attended total_classes required_percentage
            windows [] with
    | Some data => Some (acc ++ data)
    | None => None
    end.
Proof.
  induction windows as [|x rest IH]; intros acc; cbn [missable_loop].
  - rewrite app_nil_r. reflexivity.
  - destruct (missable_entry classes_attended total_classes required_percentage x)
      as [v|]; cbn [bind]; [|reflexivity].
    rewrite (IH (acc ++ [v])), (IH ([] ++ [v])).
    destruct (missable_loop _ _ _ rest []); [|reflexivity].
    rewrite <- app_assoc. reflexivity.
Qed.

(** X7: the chart loop returns a list exactly when the value of every
    window size is computed without fault, and the list then holds these
    values in the order of the window sizes; one faulty window size makes
    the whole loop fail. *)
Theorem missable_data_iff_every_entry
  (classes_attended total_classes : Z) (required_percentage : float)
  (windows data : list Z) :
  missable_data classes_attended total_classes required_percentage windows
  = Some data
  <-> Forall2 (fun x v =>
        missable_entry classes_attended total_classes required_percentage x
        = Some v) windows data.
Proof.
  unfold missable_data. revert data.
  induction windows as [|x rest IH]; intros data; cbn [missable_loop].
  - split.
    + intros H. inversion H. constructor.
    + intros H. inversion H. reflexivity.
  - destruct (missable_entry classes_attended total_classes required_percentage x)
      as [v|] eqn:Ev; cbn [bind].
    + rewrite missable_loop_acc.
      destruct (missable_loop _ _ _ rest []) as [d|] eqn:Ed.
      * split.
        -- intros H. inversion H. subst. cbn [app]. constructor; [assumption|].
           apply IH. reflexivity.
        -- intros H. inversion H as [|? v' ? d' Hv Hd]; subst.
           rewrite Ev in Hv. inversion Hv; subst.
           apply IH in Hd. inversion Hd; subst. reflexivity.
      * split; [discriminate|].
        intros H. inversion H as [|? v' ? d' Hv Hd]; subst.
        apply IH in Hd. discriminate.
    + split; [discriminate|].
      intros H. inversion H as [|? v' ? d' Hv Hd]; subst.
      rewrite Ev in Hv. discriminate.
Qed.

(** ** The page of the button *)

Lemma Pos_compare_cont_antisym_Eq (a b : positive) :
  Pos.compare_cont Eq b a = CompOpp (Pos.compare_cont Eq a b).
Proof.
  rewrite (Pos_compare_cont_Eq b a), (Pos_compare_cont_Eq a b).
  apply Pos.compare_antisym.
Qed.

Lemma SFcompare_antisym (x y : float) :
  SFcompare y x = option_map CompOpp (SFcompare x y).
Proof.
  destruct x as [sx|sx| |sx mx ex], y as [sy|sy| |sy my ey];
    try (destruct sx); try (destruct sy); try reflexivity;
    cbn [SFcompare option_map]; rewrite (Z.compare_antisym ex ey);
    destruct (ex ?= ey); cbn [CompOpp]; try reflexivity;
    rewrite (Pos_compare_cont_antisym_Eq mx my);
    destruct (Pos.compare_cont Eq mx my); reflexivity.
Qed.

Lemma SFleb_not_gt (x y : float) : SFleb x y = true -> SFltb y x = false.
Proof.
  unfold SFleb, SFltb. rewrite (SFcompare_antisym x y).
  destruct (SFcompare x y) as [[| |]|]; cbn; congruence.
Qed.

Lemma clip_upper_below (upper x : float) :
  float_ge upper x = true -> clip_upper upper x = x.
Proof.
  intros H. unfold clip_upper, float_lt. rewrite (SFleb_not_gt x upper H). reflexivity.
Qed.

(** The second component of a result is the current percentage of line 51. *)
Lemma required_classes_current (c_att c_total x_min : Z)
  (p_req current_percent projected_percent : float) :
  calculate_required_classes c_att c_total p_req
  = Some (x_min, current_percent, projected_percent) ->
  current_percent_of c_att c_total = Some current_percent.
Proof.
  unfold calculate_required_classes.
  destruct (current_percent_of c_att c_total) as [cp|]; cbn [bind]; [|discriminate].
  destruct (float_ge cp p_req); [intros H; inversion H; reflexivity|].
  destruct (float_eq p_req f100_0); [intros H; inversion H; reflexivity|].
  destruct (float_div p_req f100_0); cbn [bind]; [|discriminate].
  destruct (float_of_int c_total); cbn [bind]; [|discriminate].
  destruct (float_of_int c_att); cbn [bind]; [|discriminate].
  destruct (float_div _ _); cbn [bind]; [|discriminate].
  destruct (math_ceil _); cbn [bind]; [|discriminate].
  destruct (int_true_div _ _); cbn [bind]; [|discriminate].
  intros H; inversion H; reflexivity.
Qed.

Lemma search_total (c_att c_total : Z) (p_req : float) (max_future_classes : Z) :
  valid_counts c_att c_total -> valid_percent p_req ->
  max_future_classes <= max_count ->
  exists r,
    calculate_max_missable_classes c_att c_total p_req max_future_classes = Some r.
Proof.
  intros Hc Hp Hmax. unfold calculate_max_missable_classes.
  rewrite float_div_100. cbn [bind]. apply missable_scan_total.
  intros x Hx. apply In_range in Hx.
  apply missable_floor_total; [assumption|apply percent_ratio_bounded, Hp|lia].
Qed.

Lemma missable_df_total (classes_attended total_classes : Z)
  (required_percentage : float) (lo hi : Z) :
  valid_counts classes_attended total_classes -> valid_percent required_percentage ->
  0 <= lo -> hi <= max_count + 1 ->
  exists rows,
    missable_df classes_attended total_classes required_percentage (range lo hi)
    = Some rows
    /\ map fst rows = range lo hi.
Proof.
  intros Hc Hp Hlo Hhi.
  destruct (missable_loop_spec classes_attended total_classes required_percentage
              (range lo hi) []) as (data & E & HF).
  { intros x Hx. apply In_range in Hx.
    apply missable_floor_total; [assumption|apply percent_ratio_bounded, Hp|lia]. }
  exists (combine (range lo hi) data). unfold missable_df, missable_data.
  rewrite E. cbn [app bind]. split; [reflexivity|].
  apply map_fst_combine. apply (Forall2_length HF).
Qed.

(** X9: on valid inputs, once the solver has returned, nothing below it in
    the handler can fail: the search and the chart loop return, and the
    page is the twelve calls in the order of the script, the line chart
    holding one row per window size 1..30; the clip of the bar chart
    leaves both bars as they are, the current percentage never exceeding
    100. *)
Theorem page_is_complete (classes_attended total_classes : Z)
  (required_percentage : float) (x_min : Z)
  (current_percent projected_percent : float) :
  valid_counts classes_attended total_classes ->
  valid_percent required_percentage ->
  calculate_required_classes classes_attended total_classes required_percentage
  = Some (x_min, current_percent, projected_percent) ->
  exists missable_classes future_window rows,
    calculate_max_missable_classes classes_attended total_classes
      required_percentage default_max_future_classes
    = Some (missable_classes, future_window)
    /\ missable_df classes_attended total_classes required_percentage
         future_classes_range = Some rows
    /\ map fst rows = future_classes_range
    /\ on_calculate classes_attended total_classes required_percentage
       = ([St_markdown_box_open; St_subheader_status;
           St_markdown_current current_percent; St_subheader_plan;
           action_plan x_min current_percent required_percentage projected_percent;
           St_markdown_box_close;
           planning_insight missable_classes future_window required_percentage;
           St_subheader_bars;
           St_plotly_bars [current_percent; required_percentage];
           St_subheader_flexible; St_plotly_line rows; St_caption], true).
Proof.
  intros Hc Hp Hsol.
  destruct (search_total classes_attended total_classes required_percentage
              default_max_future_classes Hc Hp) as ([m w] & Hsearch).
  { unfold default_max_future_classes, max_count. lia. }
  destruct (missable_df_total classes_attended total_classes required_percentage
              1 31 Hc Hp) as (rows & Hdf & Hfst).
  { lia. }
  { unfold max_count. lia. }
  fold future_classes_range in Hdf, Hfst.
  exists m, w, rows. repeat (split; [assumption|]).
  pose proof (required_classes_current _ _ _ _ _ _ Hsol) as Hcur.
  assert (H100 : float_ge f100_0 current_percent = true).
  { destruct Hc as [Ha Ht].
    destruct (int_true_div_le_one classes_attended total_classes Ha) as (q & E & Hn & Hq);
      [lia|].
    destruct (percent_in_range q Hn Hq) as (_ & _ & _ & H).
    unfold current_percent_of in Hcur. rewrite E in Hcur. cbn [bind] in Hcur.
    inversion Hcur; subst. exact H. }
  unfold on_calculate.
  replace (total_classes <? classes_attended) with false
    by (symmetry; apply Z.ltb_ge; destruct Hc; lia).
  replace (total_classes =? 0) with false
    by (symmetry; apply Z.eqb_neq; destruct Hc; lia).
  rewrite Hsol, Hsearch, Hdf. cbn [map app].
  rewrite (clip_upper_below f100_0 current_percent H100).
  rewrite (clip_upper_below f100_0 required_percentage (proj2 (proj2 Hp))).
  reflexivity.
Qed.

Lemma page_is_complete_witness :
  exists missable_classes future_window rows,
    calculate_max_missable_classes 10 15 f75_0 default_max_future_classes
    = Some (missable_classes, future_window)
    /\ missable_df 10 15 f75_0 future_classes_range = Some rows
    /\ map fst rows = future_classes_range
    /\ on_calculate 10 15 f75_0
       = ([St_markdown_box_open; St_subheader_status;
           St_markdown_current f66_666; St_subheader_plan;
           action_plan 5 f66_666 f75_0 f75_0;
           St_markdown_box_close;
           planning_insight missable_classes future_window f75_0;
           St_subheader_bars;
           St_plotly_bars [f66_666; f75_0];
           St_subheader_flexible; St_plotly_line rows; St_caption], true).
Proof.
  apply (page_is_complete 10 15 f75_0 5 f66_666 f75_0).
  - unfold valid_counts, max_count. lia.
  - repeat split; reflexivity.
  - vm_compute. reflexivity.
Defined.

Lemma action_plan_not_planning (x_min future_window missable_classes : Z)
  (current_percent required_percentage projected_percent p : float) :
  action_plan x_min current_percent required_percentage projected_percent
  <> St_info_planning future_window missable_classes p.
Proof.
  unfold action_plan. destruct (x_min =? 0); [discriminate|].
  destruct (x_min =? -1); discriminate.
Qed.

(** X10: whenever the page shows the planning message "In the next [w]
    classes, you can miss [m]", the count [m] is at least 1, [w] is a
    window size between 1 and 50, [m] is the floored value of the search
    at [w], every smaller window has a negative value, and the percentage
    shown is the required one.  The message never appears beside a
    validation error. *)
Theorem planning_message_is_sound (classes_attended total_classes : Z)
  (required_percentage : float) (future_window missable_classes : Z) (p : float) :
  In (St_info_planning future_window missable_classes p)
     (fst (on_calculate classes_attended total_classes required_percentage)) ->
  p = required_percentage
  /\ classes_attended <= total_classes /\ total_classes <> 0
  /\ 1 <= missable_classes
  /\ 1 <= future_window <= default_max_future_classes
  /\ exists R, float_div required_percentage f100_0 = Some R
     /\ missable_floor classes_attended total_classes R future_window
        = Some missable_classes
     /\ forall y, 1 <= y < future_window ->
          no_slack classes_attended total_classes R y.
Proof.
  unfold on_calculate.
  destruct (Z.ltb_spec total_classes classes_attended) as [Hlt|Hge].
  { cbn. intros [H|[]]. discriminate. }
  destruct (Z.eqb_spec total_classes 0) as [Hz|Hnz].
  { cbn. intros [H|[]]. discriminate. }
  destruct (calculate_required_classes _ _ _) as [[[x cp] pp]|]; [|intros []].
  assert (Hrep : ~ In (St_info_planning future_window missable_classes p)
                   [St_markdown_box_open; St_subheader_status; St_markdown_current cp;
                    St_subheader_plan; action_plan x cp required_percentage pp;
                    St_markdown_box_close]).
  { cbn [In]. intros [H|[H|[H|[H|[H|[H|[]]]]]]]; try discriminate.
    exact (action_plan_not_planning _ _ _ _ _ _ _ H). }
  destruct (calculate_max_missable_classes _ _ _ _) as [[m w]|] eqn:Hsearch.
  2:{ cbn [fst]. intros H. destruct (Hrep H). }
  assert (Hmain : In (St_info_planning future_window missable_classes p)
                    [planning_insight m w required_percentage] ->
                  p = required_percentage
                  /\ classes_attended <= total_classes /\ total_classes <> 0
                  /\ 1 <= missable_classes
                  /\ 1 <= future_window <= default_max_future_classes
                  /\ exists R, float_div required_percentage f100_0 = Some R
                     /\ missable_floor classes_attended total_classes R future_window
                        = Some missable_classes
                     /\ forall y, 1 <= y < future_window ->
                          no_slack classes_attended total_classes R y).
  { cbn [In]. unfold planning_insight. intros [H|[]].
    destruct (Z.ltb_spec 0 m) as [Hm|Hm]; [|discriminate].
    injection H as Ew Em Ep. rewrite <- Ew, <- Em.
    unfold calculate_max_missable_classes in Hsearch.
    rewrite float_div_100 in Hsearch. cbn [bind] in Hsearch.
    destruct (missable_scan_range _ _ _ _ _ _ Hsearch)
      as [(Hw & Hfl & _ & Hpre)|(-> & _ & _)]; [|lia].
    split; [symmetry; exact Ep|]. split; [assumption|]. split; [assumption|].
    split; [lia|]. split; [unfold default_max_future_classes in *; lia|].
    exists (SFdiv prec emax required_percentage f100_0).
    split; [reflexivity|]. split; assumption. }
  assert (Hbars : forall tail,
            ~ In (St_info_planning future_window missable_classes p)
                (St_subheader_bars
                 :: St_plotly_bars (map (clip_upper f100_0) [cp; required_percentage])
                 :: St_subheader_flexible :: tail) ->
            In (St_info_planning future_window missable_classes p)
               ([St_markdown_box_open; St_subheader_status; St_markdown_current cp;
                 St_subheader_plan; action_plan x cp required_percentage pp;
                 St_markdown_box_close]
                ++ planning_insight m w required_percentage
                   :: St_subheader_bars
                   :: St_plotly_bars (map (clip_upper f100_0) [cp; required_percentage])
                   :: St_subheader_flexible :: tail) ->
            In (St_info_planning future_window missable_classes p)
               [planning_insight m w required_percentage]).
  { intros tail Htail H. apply in_app_or in H. destruct H as [H|H]; [destruct (Hrep H)|].
    destruct H as [H|H]; [left; exact H|destruct (Htail H)]. }
  destruct (missable_df _ _ _ _) as [rows|]; cbn [fst app]; intros H; apply Hmain.
  - apply (Hbars [St_plotly_line rows; St_caption]).
    + cbn [In]. intros [E|[E|[E|[E|[E|[]]]]]]; discriminate.
    + exact H.
  - apply (Hbars []).
    + cbn [In]. intros [E|[E|[E|[]]]]; discriminate.
    + exact H.
Qed.

Lemma planning_message_is_sound_witness :
  f75_0 = f75_0 /\ 12 <= 15 /\ 15 <> 0 /\ 1 <= 1
  /\ 1 <= 1 <= default_max_future_classes
  /\ exists R, float_div f75_0 f100_0 = Some R
     /\ missable_floor 12 15 R 1 = Some 1
     /\ forall y, 1 <= y < 1 -> no_slack 12 15 R y.
Proof.
  apply (planning_message_is_sound 12 15 f75_0 1 1 f75_0).
  vm_compute. right. right. right. right. right. right. left. reflexivity.
Defined.

(** ** The search at the two ends of the percentage scale *)

Lemma missable_scan_none (c_att c_total : Z) (R : float) (xs : list Z) :
  Forall (no_slack c_att c_total R) xs ->
  missable_scan c_att c_total R xs = Some (0, 0).
Proof.
  intros H. induction H as [|x xs (m & Hm & Hneg) _ IH]; cbn [missable_scan].
  - reflexivity.
  - rewrite Hm. cbn [bind].
    replace (0 <=? m) with false by (symmetry; apply Z.leb_gt; lia). exact IH.
Qed.

(** At the ratio 1.0 the value of every window is [c_att - c_total]. *)
Lemma missable_floor_at_one (c_att c_total x : Z) :
  valid_counts c_att c_total -> 0 <= x -> c_total + x <= max_count ->
  missable_floor c_att c_total f1_0 x = Some (c_att - c_total).
Proof.
  intros [Ha Ht] Hx Hmax. unfold missable_floor.
  assert (D1 : Zdigits2 (c_total + x) <= 53) by (apply Zdigits2_small; lia).
  assert (D2 : Zdigits2 c_att <= 53) by (apply Zdigits2_small; lia).
  assert (D3 : Zdigits2 x <= 53) by (apply Zdigits2_small; lia).
  assert (D4 : Zdigits2 (c_total + x - c_att) <= 53) by (apply Zdigits2_small; lia).
  assert (D5 : Zdigits2 (c_att - c_total) <= 53) by (apply Zdigits2_small; lia).
  rewrite (float_of_int_exact _ D1), (float_of_int_exact _ D2), (float_of_int_exact _ D3).
  cbn [bind].
  rewrite (SFmul_one_int _ D1), (SFsub_int _ _ D1 D2 D4).
  rewrite (SFsub_int x (c_total + x - c_att) D3 D4)
    by (replace (x - (c_total + x - c_att)) with (c_att - c_total) by lia; exact D5).
  replace (x - (c_total + x - c_att)) with (c_att - c_total) by lia.
  apply math_floor_int, D5.
Qed.

(** X11: with a required percentage of 100 nothing can be missed: on valid
    counts the search returns 0 missable classes under every ceiling, in
    the window 1 when every class was attended and there is a window to
    try, and with no window otherwise. *)
Theorem full_target_allows_no_miss (c_att c_total max_future_classes : Z) :
  valid_counts c_att c_total -> c_total + max_future_classes <= max_count ->
  calculate_max_missable_classes c_att c_total f100_0 max_future_classes
  = Some (0, if (c_att =? c_total) && (1 <=? max_future_classes) then 1 else 0).
Proof.
  intros Hc Hmax. unfold calculate_max_missable_classes.
  change (float_div f100_0 f100_0) with (Some f1_0). cbn [bind].
  destruct (Z.leb_spec 1 max_future_classes) as [H1|H1].
  - destruct (Z.eqb_spec c_att c_total) as [He|Hne]; cbn [andb].
    + rewrite range_cons by lia. cbn [missable_scan].
      rewrite missable_floor_at_one by (try assumption; lia).
      cbn [bind]. rewrite He, Z.sub_diag. reflexivity.
    + apply missable_scan_none. apply Forall_forall. intros x Hx.
      apply In_range in Hx. exists (c_att - c_total).
      split; [apply missable_floor_at_one; try assumption; lia|].
      destruct Hc. lia.
  - rewrite andb_false_r. rewrite range_nil by lia. reflexivity.
Qed.

Lemma full_target_allows_no_miss_witness :
  calculate_max_missable_classes 15 15 f100_0 default_max_future_classes
  = Some (0, 1).
Proof.
  apply (full_target_allows_no_miss 15 15 default_max_future_classes).
  - unfold valid_counts, max_count. lia.
  - unfold default_max_future_classes, max_count. lia.
Defined.

(** At the ratio 0.0 the value of the window [x] is [x + c_att]. *)
Lemma missable_floor_at_zero (c_att c_total x : Z) :
  valid_counts c_att c_total -> 0 <= x -> c_total + x <= max_count ->
  missable_floor c_att c_total f0_0 x = Some (x + c_att).
Proof.
  intros [Ha Ht] Hx Hmax. unfold missable_floor.
  assert (D1 : Zdigits2 (c_total + x) <= 53) by (apply Zdigits2_small; lia).
  assert (D2 : Zdigits2 c_att <= 53) by (apply Zdigits2_small; lia).
  assert (D3 : Zdigits2 x <= 53) by (apply Zdigits2_small; lia).
  assert (D4 : Zdigits2 (0 - c_att) <= 53) by (apply Zdigits2_small; lia).
  assert (D5 : Zdigits2 (x - (0 - c_att)) <= 53) by (apply Zdigits2_small; lia).
  rewrite (float_of_int_exact _ D1), (float_of_int_exact _ D2), (float_of_int_exact _ D3).
  cbn [bind].
  assert (E : float_mul f0_0 (int_float (c_total + x)) = int_float 0).
  { destruct (c_total + x) as [|p|p] eqn:Ep; [lia|reflexivity|lia]. }
  rewrite E, (SFsub_int 0 c_att ltac:(cbn; lia) D2 D4), (SFsub_int _ _ D3 D4 D5).
  replace (x - (0 - c_att)) with (x + c_att) in * by lia.
  apply math_floor_int, D5.
Qed.

(** X12: with a required percentage of 0 the search stops at the first
    window: on valid counts it returns the window 1 with [c_att + 1]
    missable classes, more than the window holds as soon as a class was
    attended. *)
Theorem zero_target_first_window (c_att c_total max_future_classes : Z) :
  valid_counts c_att c_total -> c_total < max_count -> 1 <= max_future_classes ->
  calculate_max_missable_classes c_att c_total f0_0 max_future_classes
  = Some (c_att + 1, 1).
Proof.
  intros Hc Hmax H1. unfold calculate_max_missable_classes.
  change (float_div f0_0 f100_0) with (Some f0_0). cbn [bind].
  rewrite range_cons by lia. cbn [missable_scan].
  rewrite missable_floor_at_zero by (try assumption; lia). cbn [bind].
  replace (0 <=? 1 + c_att) with true
    by (symmetry; apply Z.leb_le; destruct Hc; lia).
  do 2 f_equal. lia.
Qed.

Lemma zero_target_first_window_witness :
  calculate_max_missable_classes 10 15 f0_0 default_max_future_classes
  = Some (10 + 1, 1).
Proof.
  apply (zero_target_first_window 10 15 default_max_future_classes).
  - unfold valid_counts, max_count. lia.
  - unfold max_count. lia.
  - unfold default_max_future_classes. lia.
Defined.

(** X13: with a required percentage of 100 the line chart is flat: on
    valid counts the chart loop returns the value 0 for every window size
    of the sequence, whatever the attendance. *)
Theorem full_target_flat_chart (classes_attended total_classes : Z)
  (windows : list Z) :
  valid_counts classes_attended total_classes ->
  Forall (fun x => 0 <= x /\ total_classes + x <= max_count) windows ->
  missable_data classes_attended total_classes f100_0 windows
  = Some (map (fun _ => 0) windows).
Proof.
  intros Hc Hw. unfold missable_data.
  induction Hw as [|x rest [Hx Hmax] _ IH]; cbn [missable_loop map].
  - reflexivity.
  - rewrite missable_entry_floor.
    change (SFdiv prec emax f100_0 f100_0) with f1_0.
    rewrite (missable_floor_at_one _ _ x Hc Hx Hmax). cbn [bind].
    rewrite missable_loop_acc, IH. cbn [app]. do 2 f_equal.
    destruct Hc. lia.
Qed.

Lemma full_target_flat_chart_witness :
  missable_data 10 15 f100_0 [1; 2; 30] = Some [0; 0; 0].
Proof.
  apply (full_target_flat_chart 10 15 [1; 2; 30]).
  - unfold valid_counts, max_count. lia.
  - repeat constructor; unfold max_count; lia.
Defined.
